(** * The orchestration kernel of the hedge fund runner

    A shallow embedding of [src/main.py] and [src/utils/analysts.py]:
    the securing phase ([secure_wrap_agents]), the workflow builder
    ([create_workflow], [get_analyst_nodes]), the decision parser
    ([parse_hedge_fund_response]), the top-level [run_hedge_fund] and
    the command line handling of [main].

    Python dictionaries whose iteration order is observable (the agent
    table, the secured agents, the graph's nodes) are association lists
    in insertion order; [analyst_signals], of which only the key set and
    the entries matter, is a [gmap].  Exceptions are values of [exn]; the
    calls into collaborators (identity authority, graph library, progress
    tracker, agents, console) are recorded as a trace of [event]s. *)

From stdpp Require Import base strings list gmap.
From Stdlib Require Import ZArith Ascii String.

Set Warnings "-register-all,-clear-no-such-hyp".

Local Open Scope string_scope.
Local Open Scope list_scope.

(** ** Python values *)

(** JSON documents as [json.loads] delivers them.  [JNull] is Python's
    [None].  A float keeps the text of its literal. *)
Inductive json : Type :=
| JNull
| JBool (b : bool)
| JInt (z : Z)
| JFloat (literal : string)
| JString (s : string)
| JList (items : list json)
| JObject (fields : list (string * json)).

(** Exceptions raised by the program and by its collaborators. *)
Inductive exn : Type :=
| ValueError (msg : string)
| KeyError (key : string)
| IndexError (msg : string)
| UnboundLocalError (var : string)
| JSONDecodeError (msg : string)
| GraphRecursionError
| OtherError (msg : string).

(** [str(e)] as the f-string of the handler prints it. *)
Definition exn_str (e : exn) : string :=
  match e with
  | ValueError m => m
  | KeyError k => "'" ++ k ++ "'"
  | IndexError m => m
  | UnboundLocalError v =>
      "cannot access local variable '" ++ v ++ "' where it is not associated with a value"
  | JSONDecodeError m => m
  | GraphRecursionError => "Recursion limit reached"
  | OtherError m => m
  end.

(** ** Agents and shared state *)

(** The nine agent callables imported by [main.py]. *)
Inductive agent_fn : Type :=
| warren_buffett_agent
| ben_graham_agent
| bill_ackman_agent
| fundamentals_agent
| technical_analyst_agent
| sentiment_agent
| valuation_agent
| portfolio_management_agent
| risk_management_agent.

#[global] Instance agent_fn_eq_dec : EqDecision agent_fn.
Proof. solve_decision. Defined.

Record Message : Type := HumanMessage { content : string }.

Record Data : Type := mkData {
  tickers : list string;
  portfolio : json;
  start_date : string;
  end_date : string;
  analyst_signals : gmap string json;
}.

Record Metadata : Type := mkMetadata {
  show_reasoning : bool;
  model_name : string;
  model_provider : string;
}.

(** Modelled from the spec: [graph/state.py] is not part of the sources;
    section 3 gives the three fields of the shared state, and section 4.4
    says that each node receives the state returned by its predecessor. *)
Record AgentState : Type := mkState {
  messages : list Message;
  data : Data;
  metadata : Metadata;
}.

(** ** Collaborators *)

(** [client.config], read by the handler of [run_hedge_fund]. *)
Record Config : Type := mkConfig { base_url : string; environment : string }.

Record Aztp : Type := mkAztp { config : option Config }.

(** What [client.secure_connect(agent, name=...)] returns: the credential
    issued by the identity authority for that name, and the callable it
    was given, kept in [_agent] (section 4.1, item 4). *)
Record SecureConnection : Type := mkConn {
  conn_name : string;
  credential : string;
  _agent : agent_fn;
}.

(** The answers of everything outside the two source files.  An [inl]
    is an exception raised by the collaborator. *)
Record Env : Type := mkEnv {
  getenv_AZTP_API_KEY : option string;
  Aztp_init : string -> exn + Aztp;
  register : agent_fn -> string -> exn + string;
  verify_identity : SecureConnection -> exn + bool;
  get_identity : SecureConnection -> exn + string;
  agent_call : agent_fn -> AgentState -> exn + AgentState;
  json_loads : string -> exn + json;
}.

(** [client.secure_connect(agent, name=name)]: the authority registers
    the agent under [name] and answers with a credential. *)
Definition secure_connect (env : Env) (agent : agent_fn) (name : string)
  : exn + SecureConnection :=
  match register env agent name with
  | inl e => inl e
  | inr cred => inr (mkConn name cred agent)
  end.

(** ** Trace and monad *)

Inductive event : Type :=
| EvPrint (line : string)
| EvSecureConnect (agent : agent_fn) (name : string)
| EvVerifyIdentity (conn : SecureConnection)
| EvGetIdentity (conn : SecureConnection)
| EvProgressStart
| EvProgressStop
| EvStateGraph
| EvCompile
| EvInvoke
| EvAgentCall (agent : agent_fn).

#[global] Instance SecureConnection_eq_dec : EqDecision SecureConnection.
Proof. solve_decision. Defined.

#[global] Instance event_eq_dec : EqDecision event.
Proof. solve_decision. Defined.

(** A computation yields a value or an exception, and the events it
    caused, oldest first. *)
Definition M (A : Type) : Type := (exn + A) * list event.

Definition ret {A} (a : A) : M A := (inr a, []).
Definition raise {A} (e : exn) : M A := (inl e, []).
Definition emit (ev : event) : M unit := (inr tt, [ev]).
Definition lift {A} (r : exn + A) : M A := (r, []).

Definition bind {A B} (m : M A) (k : A -> M B) : M B :=
  match m with
  | (inl e, tr) => (inl e, tr)
  | (inr a, tr) => let '(r, tr') := k a in (r, tr ++ tr')
  end.

(** [try: m except: h] *)
Definition catch {A} (m : M A) (h : exn -> M A) : M A :=
  match m with
  | (inl e, tr) => let '(r, tr') := h e in (r, tr ++ tr')
  | (inr a, tr) => (inr a, tr)
  end.

(** [try: m finally: fin], for a [fin] that does not raise. *)
Definition finally {A} (m : M A) (fin : list event) : M A :=
  let '(r, tr) := m in (r, tr ++ fin).

Definition result {A} (m : M A) : exn + A := fst m.
Definition trace {A} (m : M A) : list event := snd m.

Declare Scope m_scope.
Delimit Scope m_scope with M.
Notation "x <- m ;; k" := (bind m (fun x => k))
  (at level 100, m at next level, right associativity) : m_scope.
Notation "m ;;; k" := (bind m (fun _ => k))
  (at level 100, right associativity) : m_scope.
Local Open Scope m_scope.

Definition print (line : string) : M unit := emit (EvPrint line).

#[global] Arguments bind {A B} m k : simpl never.
#[global] Arguments catch {A} m h : simpl never.
#[global] Arguments finally {A} m fin : simpl never.
#[global] Arguments ret {A} a : simpl never.
#[global] Arguments raise {A} e : simpl never.
#[global] Arguments lift {A} r : simpl never.
#[global] Arguments emit ev : simpl never.
#[global] Arguments print line : simpl never.

(** [for x in xs: body x] *)
Fixpoint for_each {A} (xs : list A) (body : A -> M unit) : M unit :=
  match xs with
  | [] => ret tt
  | x :: rest => body x ;;; for_each rest body
  end.

(** ** Dictionaries in insertion order *)

Definition dict (V : Type) : Type := list (string * V).

Fixpoint dict_get {V} (d : dict V) (k : string) : option V :=
  match d with
  | [] => None
  | (k', v) :: rest => if decide (k' = k) then Some v else dict_get rest k
  end.

(** [d[k] = v]: an existing key keeps its position. *)
Fixpoint dict_set {V} (d : dict V) (k : string) (v : V) : dict V :=
  match d with
  | [] => [(k, v)]
  | (k', v') :: rest =>
      if decide (k' = k) then (k, v) :: rest else (k', v') :: dict_set rest k v
  end.

(** [k in d] *)
Definition dict_mem {V} (d : dict V) (k : string) : bool :=
  bool_decide (is_Some (dict_get d k)).

(** [d[k]], raising [KeyError] *)
Definition dict_index {V} (d : dict V) (k : string) : exn + V :=
  match dict_get d k with
  | Some v => inr v
  | None => inl (KeyError k)
  end.

Definition keys {V} (d : dict V) : list string := map fst d.

(** ** [utils/analysts.py] *)

Record AnalystInfo : Type := mkAnalyst {
  display_name : string;
  key : string;
  order : Z;
}.

Definition ANALYST_CONFIG : dict AnalystInfo :=
  [ ("ben_graham", mkAnalyst "Ben Graham" "ben_graham" 0);
    ("bill_ackman", mkAnalyst "Bill Ackman" "bill_ackman" 1);
    ("warren_buffett", mkAnalyst "Warren Buffett" "warren_buffett" 2);
    ("technical_analyst", mkAnalyst "Technical Analyst" "technicals" 3);
    ("fundamentals_analyst", mkAnalyst "Fundamentals Analyst" "fundamentals" 4);
    ("sentiment_analyst", mkAnalyst "Sentiment Analyst" "sentiment" 5);
    ("valuation_analyst", mkAnalyst "Valuation Analyst" "valuation" 6) ].

(** [sorted(xs, key=rank)]: a stable insertion sort. *)
Fixpoint insert_by {A} (rank : A -> Z) (x : A) (sorted : list A) : list A :=
  match sorted with
  | [] => [x]
  | y :: rest =>
      if (rank x <? rank y)%Z then x :: y :: rest else y :: insert_by rank x rest
  end.

Definition sorted_by {A} (rank : A -> Z) (xs : list A) : list A :=
  foldr (insert_by rank) [] xs.

Definition ANALYST_ORDER : list string :=
  sorted_by
    (fun x => match dict_get ANALYST_CONFIG x with Some a => order a | None => 0%Z end)
    (keys ANALYST_CONFIG).

(** What a graph node or a dictionary of agents can hold. *)
Inductive callable : Type :=
| raw (f : agent_fn)
| wrapped_agent (secure_conn : SecureConnection)
| start_node.

Definition get_analyst_nodes (secured_agents : option (dict callable))
  : exn + dict callable :=
  match secured_agents with
  | None =>
      inr [ ("ben_graham", raw ben_graham_agent);
            ("bill_ackman", raw bill_ackman_agent);
            ("warren_buffett", raw warren_buffett_agent);
            ("technical_analyst", raw technical_analyst_agent);
            ("fundamentals_analyst", raw fundamentals_agent);
            ("sentiment_analyst", raw sentiment_agent);
            ("valuation_analyst", raw valuation_agent) ]
  | Some secured =>
      match dict_index secured "ben_graham" with inl e => inl e | inr a0 =>
      match dict_index secured "bill_ackman" with inl e => inl e | inr a1 =>
      match dict_index secured "warren_buffett" with inl e => inl e | inr a2 =>
      match dict_index secured "technicals" with inl e => inl e | inr a3 =>
      match dict_index secured "fundamentals" with inl e => inl e | inr a4 =>
      match dict_index secured "sentiment" with inl e => inl e | inr a5 =>
      match dict_index secured "valuation" with inl e => inl e | inr a6 =>
        inr [ ("ben_graham", a0);
              ("bill_ackman", a1);
              ("warren_buffett", a2);
              ("technical_analyst", a3);
              ("fundamentals_analyst", a4);
              ("sentiment_analyst", a5);
              ("valuation_analyst", a6) ]
      end end end end end end end
  end.

(** Calling a node: the start node passes the state through, a wrapped
    agent delegates to the callable its connection keeps. *)
Definition call (env : Env) (f : callable) (state : AgentState) : M AgentState :=
  match f with
  | start_node => ret state
  | raw a => emit (EvAgentCall a) ;;; lift (agent_call env a state)
  | wrapped_agent secure_conn =>
      emit (EvAgentCall (_agent secure_conn)) ;;;
      lift (agent_call env (_agent secure_conn) state)
  end.

(** ** The graph library

    [langgraph] is a dependency, not part of the sources.  This module
    models the part of [StateGraph] that [create_workflow] and
    [run_hedge_fund] use: the checks of [add_node], [add_edge] and
    [compile] as the library makes them, and the execution of linear
    graphs as section 4.3 and 4.4 of the design describe it: nodes run one
    after the other along the edges, each on the state its predecessor
    returned. *)
Module LangGraph.

Definition START : string := "__start__".
Definition END : string := "__end__".

(** Default [recursion_limit] of an invocation. *)
Definition recursion_limit : nat := 25.

Record StateGraph : Type := mkGraph {
  nodes : dict callable;
  edges : gset (string * string);
}.

(** [StateGraph(AgentState)] *)
Definition new : M StateGraph := emit EvStateGraph ;;; ret (mkGraph [] ∅).

(** [add_node] refuses a name that is taken or reserved. *)
Definition add_node (g : StateGraph) (name : string) (f : callable)
  : exn + StateGraph :=
  if dict_mem (nodes g) name then
    inl (ValueError ("Node `" ++ name ++ "` already present."))
  else if bool_decide (name = END \/ name = START) then
    inl (ValueError ("Node `" ++ name ++ "` is reserved."))
  else inr (mkGraph (nodes g ++ [(name, f)]) (edges g)).

(** [add_edge] keeps a set of pairs and checks only the two markers. *)
Definition add_edge (g : StateGraph) (start_key end_key : string)
  : exn + StateGraph :=
  if bool_decide (start_key = END) then
    inl (ValueError "END cannot be a start node")
  else if bool_decide (end_key = START) then
    inl (ValueError "START cannot be an end node")
  else inr (mkGraph (nodes g) ({[ (start_key, end_key) ]} ∪ edges g)).

Definition set_entry_point (g : StateGraph) (name : string)
  : exn + StateGraph :=
  add_edge g START name.

Definition known_source (g : StateGraph) (e : string * string) : bool :=
  dict_mem (nodes g) e.1 || bool_decide (e.1 = START).

Definition known_target (g : StateGraph) (e : string * string) : bool :=
  dict_mem (nodes g) e.2 || bool_decide (e.2 = END).

(** The checks of [compile()]: every edge joins known nodes, and the
    graph has an entry point. *)
Definition validate (g : StateGraph) : exn + unit :=
  match List.find (fun e => negb (known_source g e)) (elements (edges g)) with
  | Some e => inl (ValueError ("Found edge starting at unknown node '" ++ e.1 ++ "'"))
  | None =>
      if negb (bool_decide (set_Exists (fun e => e.1 = START) (edges g))) then
        inl (ValueError "Graph must have an entrypoint: add at least one edge from START to another node")
      else
        match List.find (fun e => negb (known_target g e)) (elements (edges g)) with
        | Some e => inl (ValueError ("Found edge ending at unknown node `" ++ e.2 ++ "`"))
        | None => inr tt
        end
  end.

Record CompiledGraph : Type := mkCompiled { builder : StateGraph }.

Definition compile (g : StateGraph) : M CompiledGraph :=
  emit EvCompile ;;; lift (validate g) ;;; ret (mkCompiled g).

Definition successors (g : StateGraph) (cur : string) : list string :=
  elements (set_map snd (filter (fun e => e.1 = cur) (edges g)) : gset string).

(** Run the node [cur] and follow its edge.  A node without an outgoing
    edge ends the run, like one whose edge leads to [END].  Several
    outgoing edges start parallel branches in the library; the design
    has none, and this model stops there with [OtherError]. *)
Fixpoint run_from (env : Env) (fuel : nat) (g : StateGraph) (cur : string)
    (state : AgentState) : M AgentState :=
  match fuel with
  | O => raise GraphRecursionError
  | S fuel' =>
      f <- lift (dict_index (nodes g) cur) ;;
      state' <- call env f state ;;
      match successors g cur with
      | [] => ret state'
      | [next] =>
          if bool_decide (next = END) then ret state'
          else run_from env fuel' g next state'
      | _ => raise (OtherError "parallel branches")
      end
  end.

Definition invoke (env : Env) (c : CompiledGraph) (input : AgentState)
  : M AgentState :=
  emit EvInvoke ;;;
  match successors (builder c) START with
  | [] => ret input
  | [entry] =>
      if bool_decide (entry = END) then ret input
      else run_from env recursion_limit (builder c) entry input
  | _ => raise (OtherError "parallel branches")
  end.

End LangGraph.

Import LangGraph.

(** ** [main.py] *)

Definition agents : dict agent_fn :=
  [ ("warren_buffett", warren_buffett_agent);
    ("ben_graham", ben_graham_agent);
    ("bill_ackman", bill_ackman_agent);
    ("fundamentals", fundamentals_agent);
    ("technicals", technical_analyst_agent);
    ("sentiment", sentiment_agent);
    ("valuation", valuation_agent);
    ("portfolio", portfolio_management_agent);
    ("risk", risk_management_agent) ].

Definition aztp_names : dict string :=
  [ ("warren_buffett", "warren-buffett");
    ("ben_graham", "ben-graham");
    ("bill_ackman", "bill-ackman");
    ("fundamentals", "fundamentals");
    ("technicals", "technicals");
    ("sentiment", "sentiment");
    ("valuation", "valuation");
    ("portfolio", "portfolio");
    ("risk", "risk") ].

Definition nl : string := String (ascii_of_nat 10) "".

Definition is_lower (c : ascii) : bool :=
  ((97 <=? nat_of_ascii c) && (nat_of_ascii c <=? 122))%nat.
Definition is_upper (c : ascii) : bool :=
  ((65 <=? nat_of_ascii c) && (nat_of_ascii c <=? 90))%nat.
Definition to_upper (c : ascii) : ascii :=
  if is_lower c then ascii_of_nat (nat_of_ascii c - 32) else c.
Definition to_lower (c : ascii) : ascii :=
  if is_upper c then ascii_of_nat (nat_of_ascii c + 32) else c.

(** [s.title()] on ASCII text *)
Fixpoint title_from (inside_word : bool) (s : string) : string :=
  match s with
  | EmptyString => EmptyString
  | String c rest =>
      if is_lower c || is_upper c then
        String (if inside_word then to_lower c else to_upper c) (title_from true rest)
      else String c (title_from false rest)
  end.
Definition title (s : string) : string := title_from false s.

(** [make_callable]: the closure keeps the connection in its only cell. *)
Definition make_callable (secure_conn : SecureConnection) : callable :=
  wrapped_agent secure_conn.

(** [agent.__closure__[0].cell_contents] *)
Definition cell_contents (agent : callable) : exn + SecureConnection :=
  match agent with
  | wrapped_agent secure_conn => inr secure_conn
  | _ => inl (OtherError "'NoneType' object is not subscriptable")
  end.

(** Results of a list of answers, or the first exception among them. *)
Fixpoint collect {A} (rs : list (exn + A)) : exn + list A :=
  match rs with
  | [] => inr []
  | inl e :: _ => inl e
  | inr a :: rest =>
      match collect rest with
      | inl e => inl e
      | inr l => inr (a :: l)
      end
  end.

(** [await asyncio.gather] over the verification tasks: every call is
    issued, and the first exception (here: in argument order) is raised. *)
Definition gather_verify (env : Env) (conns : list SecureConnection) : M (list bool) :=
  (collect (map (verify_identity env) conns), map EvVerifyIdentity conns).

(** The first loop of [secure_wrap_agents]: one awaited registration
    after the other. *)
Fixpoint secure_each (env : Env) (items : dict agent_fn) (secured_agents : dict callable)
  : M (dict callable) :=
  match items with
  | [] => ret secured_agents
  | (name, agent) :: rest =>
      print ("Securing " ++ name ++ " agent...") ;;;
      aztp_name <- lift (dict_index aztp_names name) ;;
      emit (EvSecureConnect agent (aztp_name ++ "-analyst")) ;;;
      secured_conn <- lift (secure_connect env agent (aztp_name ++ "-analyst")) ;;
      secure_each env rest (dict_set secured_agents name (make_callable secured_conn))
  end.

Definition print_identity (env : Env) (item : string * callable) : M unit :=
  conn <- lift (cell_contents item.2) ;;
  emit (EvGetIdentity conn) ;;;
  identity <- lift (get_identity env conn) ;;
  print (nl ++ title item.1 ++ " Identity: " ++ identity).

Definition secure_wrap_agents (env : Env) (client : Aztp) : M (dict callable) :=
  print (nl ++ "Initializing secure agent connections...") ;;;
  secured_agents <- secure_each env agents [] ;;
  print (nl ++ "Verifying agent identities...") ;;;
  conns <- lift (collect (map (fun item => cell_contents item.2) secured_agents)) ;;
  agents_valid <- gather_verify env conns ;;
  if negb (forallb id agents_valid) then
    raise (ValueError "Agent verification failed")
  else
    for_each secured_agents (print_identity env) ;;;
    print (nl ++ "All agents verified successfully!") ;;;
    ret secured_agents.

Definition parse_hedge_fund_response (env : Env) (response : string) : M json :=
  catch (lift (json_loads env response))
        (fun _ => print ("Error parsing response: " ++ response) ;;; ret JNull).

(** The first loop of [create_workflow]: a key outside [analyst_nodes] is
    skipped. *)
Fixpoint add_analyst_nodes (selected_analysts : list string) (first : option string)
    (analyst_nodes : dict callable) (workflow : StateGraph) : exn + StateGraph :=
  match selected_analysts with
  | [] => inr workflow
  | analyst :: rest =>
      match dict_get analyst_nodes analyst with
      | Some f =>
          match add_node workflow analyst f with
          | inl e => inl e
          | inr workflow =>
              if bool_decide (Some analyst = first) then
                match add_edge workflow "START" analyst with
                | inl e => inl e
                | inr workflow => add_analyst_nodes rest first analyst_nodes workflow
                end
              else add_analyst_nodes rest first analyst_nodes workflow
          end
      | None => add_analyst_nodes rest first analyst_nodes workflow
      end
  end.

(** The second loop: an edge from each key to the next one. *)
Fixpoint add_sequence_edges (selected_analysts : list string) (workflow : StateGraph)
  : exn + StateGraph :=
  match selected_analysts with
  | a :: (b :: _) as rest =>
      match add_edge workflow a b with
      | inl e => inl e
      | inr workflow => add_sequence_edges rest workflow
      end
  | _ => inr workflow
  end.

Definition create_workflow (selected_analysts : list string)
    (secured_agents : dict callable) : M StateGraph :=
  analyst_nodes <- lift (get_analyst_nodes (Some secured_agents)) ;;
  workflow <- LangGraph.new ;;
  workflow <- lift (add_node workflow "START" start_node) ;;
  workflow <- lift (add_analyst_nodes selected_analysts (head selected_analysts)
                      analyst_nodes workflow) ;;
  workflow <- lift (add_sequence_edges selected_analysts workflow) ;;
  workflow <- lift (match last selected_analysts with
                    | Some k => add_edge workflow k END
                    | None => inr workflow
                    end) ;;
  lift (set_entry_point workflow "START").

Record RunResult : Type := mkResult {
  decisions : json;
  result_signals : gmap string json;
}.

(** The [except Exception] clause of [run_hedge_fund].  [client] is the
    local variable of that name: [None] while it has not been assigned. *)
Definition on_exception (client : option Aztp) (e : exn) : M (option RunResult) :=
  print ("Error running hedge fund: " ++ exn_str e) ;;;
  match client with
  | None => raise (UnboundLocalError "client")
  | Some c =>
      match config c with
      | Some cfg =>
          print (nl ++ "Current configuration:") ;;;
          print ("Base URL: " ++ base_url cfg) ;;;
          print ("Environment: " ++ environment cfg) ;;;
          ret None
      | None => ret None
      end
  end.

Definition initial_state (tickers : list string) (start_date end_date : string)
    (portfolio : json) (show_reasoning : bool) (model_name model_provider : string)
  : AgentState :=
  mkState
    [HumanMessage "Make trading decisions based on the provided data."]
    (mkData tickers portfolio start_date end_date ∅)
    (mkMetadata show_reasoning model_name model_provider).

Definition run_hedge_fund (env : Env)
    (tickers : list string) (start_date end_date : string) (portfolio : json)
    (show_reasoning : bool) (selected_analysts : list string)
    (model_name model_provider : string) : M (option RunResult) :=
  match getenv_AZTP_API_KEY env with
  | None | Some "" => on_exception None (ValueError "AZTP_API_KEY is required")
  | Some api_key =>
      match Aztp_init env api_key with
      | inl e => on_exception None e
      | inr client =>
          catch
            (secured_agents <- secure_wrap_agents env client ;;
             emit EvProgressStart ;;;
             finally
               (workflow <- create_workflow
                              (match selected_analysts with
                               | [] => ANALYST_ORDER
                               | _ => selected_analysts
                               end) secured_agents ;;
                agent <- compile workflow ;;
                final_state <- invoke env agent
                                 (initial_state tickers start_date end_date portfolio
                                    show_reasoning model_name model_provider) ;;
                match last (messages final_state) with
                | None => raise (IndexError "list index out of range")
                | Some m =>
                    d <- parse_hedge_fund_response env (content m) ;;
                    ret (Some (mkResult d (analyst_signals (data final_state))))
                end)
               [EvProgressStop])
            (on_exception (Some client))
      end
  end.

(** ** A reference decoder

    [json.loads] belongs to the Python library; the theorems below hold
    for any decoder in [Env].  [Decoder.loads] is a decoder for JSON text
    used in the worked examples: objects, arrays, strings with the simple
    escapes, integers, floats (kept as text) and the three literals. *)
Module Decoder.

Definition is_ws (c : ascii) : bool :=
  bool_decide (c ∈ [" "%char; ascii_of_nat 9; ascii_of_nat 10; ascii_of_nat 13]).

Definition is_digit (c : ascii) : bool :=
  ((48 <=? nat_of_ascii c) && (nat_of_ascii c <=? 57))%nat.

Fixpoint skip_ws (s : string) : string :=
  match s with
  | String c rest => if is_ws c then skip_ws rest else s
  | EmptyString => s
  end.

(** The longest prefix of digits, and what follows it. *)
Fixpoint digits (s : string) : string * string :=
  match s with
  | String c rest =>
      if is_digit c then let '(d, r) := digits rest in (String c d, r)
      else (EmptyString, s)
  | EmptyString => (EmptyString, s)
  end.

Definition digits_value (d : string) : Z :=
  fold_left (fun acc c => (10 * acc + Z.of_nat (nat_of_ascii c - 48))%Z)
            (list_ascii_of_string d) 0%Z.

(** The integer part: [0] alone or a digit sequence without leading zero *)
Definition int_part (s : string) : option (string * string) :=
  match digits s with
  | (EmptyString, _) => None
  | (String "0" d, r) => Some ("0", (d ++ r)%string)
  | (d, r) => Some (d, r)
  end.

Definition frac_part (s : string) : option (string * string) :=
  match s with
  | String "." rest =>
      match digits rest with
      | (EmptyString, _) => None
      | (d, r) => Some (("." ++ d)%string, r)
      end
  | _ => None
  end.

Definition exp_part (s : string) : option (string * string) :=
  match s with
  | String e rest =>
      if bool_decide (e = "e"%char \/ e = "E"%char) then
        let '(sign, rest') :=
          match rest with
          | String "+" r => ("+", r)
          | String "-" r => ("-", r)
          | _ => ("", rest)
          end in
        match digits rest' with
        | (EmptyString, _) => None
        | (d, r) => Some ((String e sign ++ d)%string, r)
        end
      else None
  | EmptyString => None
  end.

Definition number (s : string) : option (json * string) :=
  let '(neg, s1) := match s with String "-" r => (true, r) | _ => (false, s) end in
  match int_part s1 with
  | None => None
  | Some (i, s2) =>
      let '(f, s3) := match frac_part s2 with Some p => p | None => ("", s2) end in
      let '(e, s4) := match exp_part s3 with Some p => p | None => ("", s3) end in
      match f, e with
      | EmptyString, EmptyString =>
          Some (JInt (if neg then - digits_value i else digits_value i)%Z, s4)
      | _, _ => Some (JFloat ((if neg then "-" else "") ++ i ++ f ++ e), s4)
      end
  end.

Definition escape (c : ascii) : option ascii :=
  (if bool_decide (c = "034"%char) then Some "034"
   else if bool_decide (c = "\"%char) then Some "\"
   else if bool_decide (c = "/"%char) then Some "/"
   else if bool_decide (c = "b"%char) then Some (ascii_of_nat 8)
   else if bool_decide (c = "f"%char) then Some (ascii_of_nat 12)
   else if bool_decide (c = "n"%char) then Some (ascii_of_nat 10)
   else if bool_decide (c = "r"%char) then Some (ascii_of_nat 13)
   else if bool_decide (c = "t"%char) then Some (ascii_of_nat 9)
   else None)%char.

(** The characters of a string literal after its opening quote. *)
Fixpoint chars (s : string) : option (string * string) :=
  match s with
  | EmptyString => None
  | String c rest =>
      if bool_decide (c = "034"%char) then Some (EmptyString, rest)
      else if bool_decide (c = "\"%char) then
        match rest with
        | String e rest' =>
            match escape e, chars rest' with
            | Some x, Some (body, r) => Some (String x body, r)
            | _, _ => None
            end
        | EmptyString => None
        end
      else if (nat_of_ascii c <? 32)%nat then None
      else
        match chars rest with
        | Some (body, r) => Some (String c body, r)
        | None => None
        end
  end.

Definition literal (word : string) (v : json) (s : string) : option (json * string) :=
  if String.prefix word s
  then Some (v, String.substring (String.length word)
                                 (String.length s - String.length word) s)
  else None.

Fixpoint value (fuel : nat) (s : string) : option (json * string) :=
  match fuel with
  | O => None
  | S fuel =>
      match skip_ws s with
      | String "{" rest =>
          match skip_ws rest with
          | String "}" r => Some (JObject [], r)
          | rest' => members fuel rest' []
          end
      | String "[" rest =>
          match skip_ws rest with
          | String "]" r => Some (JList [], r)
          | rest' => elements fuel rest' []
          end
      | String "034" rest =>
          match chars rest with
          | Some (body, r) => Some (JString body, r)
          | None => None
          end
      | String "t" _ as s' => literal "true" (JBool true) s'
      | String "f" _ as s' => literal "false" (JBool false) s'
      | String "n" _ as s' => literal "null" JNull s'
      | String "N" _ as s' => literal "NaN" (JFloat "NaN") s'
      | String "I" _ as s' => literal "Infinity" (JFloat "Infinity") s'
      | String "-" (String "I" _) as s' => literal "-Infinity" (JFloat "-Infinity") s'
      | s' => number s'
      end
  end
with elements (fuel : nat) (s : string) (acc : list json) : option (json * string) :=
  match fuel with
  | O => None
  | S fuel =>
      match value fuel s with
      | Some (v, r) =>
          match skip_ws r with
          | String "," r' => elements fuel r' (acc ++ [v])
          | String "]" r' => Some (JList (acc ++ [v]), r')
          | _ => None
          end
      | None => None
      end
  end
with members (fuel : nat) (s : string) (acc : dict json) : option (json * string) :=
  match fuel with
  | O => None
  | S fuel =>
      match skip_ws s with
      | String "034" rest =>
          match chars rest with
          | Some (k, r) =>
              match skip_ws r with
              | String ":" r' =>
                  match value fuel r' with
                  | Some (v, r'') =>
                      match skip_ws r'' with
                      | String "," r3 => members fuel r3 (dict_set acc k v)
                      | String "}" r3 => Some (JObject (dict_set acc k v), r3)
                      | _ => None
                      end
                  | None => None
                  end
              | _ => None
              end
          | None => None
          end
      | _ => None
      end
  end.

Definition loads (s : string) : exn + json :=
  match value (2 * String.length s + 2) s with
  | Some (v, r) =>
      match skip_ws r with
      | EmptyString => inr v
      | _ => inl (JSONDecodeError "Extra data")
      end
  | None => inl (JSONDecodeError "Expecting value")
  end.

End Decoder.

(** ** Scenarios

    Concrete collaborators, to run the embedding on. *)
Module Scenario.

Definition quote : string := String "034" EmptyString.

(** The text [{"AAPL": {"action":"buy","quantity":10}}]. *)
Definition aapl_text : string :=
  "{" ++ quote ++ "AAPL" ++ quote ++ ": {" ++ quote ++ "action" ++ quote ++ ":"
      ++ quote ++ "buy" ++ quote ++ "," ++ quote ++ "quantity" ++ quote ++ ":10}}".

(** The node name under which [get_analyst_nodes] wires each agent;
    the portfolio and risk agents have none. *)
Definition node_key (a : agent_fn) : string :=
  match a with
  | ben_graham_agent => "ben_graham"
  | bill_ackman_agent => "bill_ackman"
  | warren_buffett_agent => "warren_buffett"
  | technical_analyst_agent => "technical_analyst"
  | fundamentals_agent => "fundamentals_analyst"
  | sentiment_agent => "sentiment_analyst"
  | valuation_agent => "valuation_analyst"
  | portfolio_management_agent => "portfolio_management"
  | risk_management_agent => "risk_management"
  end.

(** An agent that records a signal under its node name and appends a
    message with a decision. *)
Definition well_behaved (a : agent_fn) (state : AgentState) : exn + AgentState :=
  let d := data state in
  inr (mkState
         (messages state ++ [HumanMessage aapl_text])
         (mkData (tickers d) (portfolio d) (start_date d) (end_date d)
                 (<[node_key a := JString "bullish"]> (analyst_signals d)))
         (metadata state)).

Definition client : Aztp := mkAztp (Some (mkConfig "https://aztp.example" "production")).

(** Every collaborator answers and every identity is valid. *)
Definition all_good : Env :=
  mkEnv (Some "secret")
        (fun _ => inr client)
        (fun _ name => inr ("aztp://" +:+ name))
        (fun _ => inr true)
        (fun conn => inr (credential conn))
        well_behaved
        Decoder.loads.

(** The authority denies the identity of the agent [denied]. *)
Definition rejecting (denied : agent_fn) : Env :=
  mkEnv (Some "secret")
        (fun _ => inr client)
        (fun _ name => inr ("aztp://" +:+ name))
        (fun conn => inr (negb (bool_decide (_agent conn = denied))))
        (fun conn => inr (credential conn))
        well_behaved
        Decoder.loads.

(** The registration of the agent [refused] fails. *)
Definition unreachable_for (refused : agent_fn) : Env :=
  mkEnv (Some "secret")
        (fun _ => inr client)
        (fun a name => if bool_decide (a = refused)
                       then inl (OtherError "identity service unreachable")
                       else inr ("aztp://" +:+ name))
        (fun _ => inr true)
        (fun conn => inr (credential conn))
        well_behaved
        Decoder.loads.

(** [AZTP_API_KEY] is not set. *)
Definition no_api_key : Env :=
  mkEnv None
        (fun _ => inr client)
        (fun _ name => inr ("aztp://" +:+ name))
        (fun _ => inr true)
        (fun conn => inr (credential conn))
        well_behaved
        Decoder.loads.

(** The run of [main] with the given analysts and nothing else of
    interest. *)
Definition run (env : Env) (selected_analysts : list string) : M (option RunResult) :=
  run_hedge_fund env ["AAPL"] "2024-01-01" "2024-04-01" (JObject []) false
                 selected_analysts "gpt-4" "OpenAI".

(** What [secure_wrap_agents] returns when every collaborator answers. *)
Definition secured_agents : dict callable :=
  Eval vm_compute in
    match result (secure_wrap_agents all_good client) with
    | inr secured => secured
    | inl _ => []
    end.

(** The analyst nodes over these secured agents. *)
Definition analyst_nodes : dict callable :=
  Eval vm_compute in
    match get_analyst_nodes (Some secured_agents) with
    | inr nodes => nodes
    | inl _ => []
    end.

Definition state0 : AgentState :=
  initial_state ["AAPL"] "2024-01-01" "2024-04-01" (JObject []) false "gpt-4" "OpenAI".

End Scenario.

(** ** Vocabulary of the properties *)

(** Every event of [m] satisfies [P]. *)
Definition only (P : event -> Prop) {A} (m : M A) : Prop := Forall P (trace m).

(** Events of the securing phase and of the console. *)
Definition securing_event (ev : event) : Prop :=
  match ev with
  | EvPrint _ | EvSecureConnect _ _ | EvVerifyIdentity _ | EvGetIdentity _ => True
  | _ => False
  end.

(** The connection that [secure_wrap_agents] obtains for the entry
    [(name, agent)] of [agents]. *)
Definition connection_for (env : Env) (name : string) (agent : agent_fn)
  : exn + SecureConnection :=
  match dict_index aztp_names name with
  | inl e => inl e
  | inr aztp_name => secure_connect env agent (aztp_name ++ "-analyst")
  end.

(** The dictionary entry that the securing phase stores for a connection. *)
Definition secured_entry (item : string * agent_fn) (conn : SecureConnection)
  : string * callable :=
  (item.1, wrapped_agent conn).

(** The identity authority denies one of the nine identities. *)
Definition verification_rejected (env : Env) : Prop :=
  exists name agent conn,
    (name, agent) ∈ agents /\
    connection_for env name agent = inr conn /\
    verify_identity env conn = inr false.

Definition is_registration (ev : event) : Prop :=
  match ev with EvSecureConnect _ _ => True | _ => False end.

(** The registration of an entry of [agents] has completed. *)
Definition registered (env : Env) (item : string * agent_fn) : Prop :=
  exists conn, connection_for env item.1 item.2 = inr conn.

(** The agent behind each analyst node: the table that [get_analyst_nodes]
    returns for unsecured agents. *)
Definition analyst_wiring : dict agent_fn :=
  [ ("ben_graham", ben_graham_agent);
    ("bill_ackman", bill_ackman_agent);
    ("warren_buffett", warren_buffett_agent);
    ("technical_analyst", technical_analyst_agent);
    ("fundamentals_analyst", fundamentals_agent);
    ("sentiment_analyst", sentiment_agent);
    ("valuation_analyst", valuation_agent) ].

(** The agent that a callable runs, if any. *)
Definition agent_of (f : callable) : option agent_fn :=
  match f with
  | raw a => Some a
  | wrapped_agent secure_conn => Some (_agent secure_conn)
  | start_node => None
  end.

(** [f] is the secured form of the agent [a]. *)
Definition wraps (a : agent_fn) (f : callable) : Prop :=
  exists conn, f = wrapped_agent conn /\ _agent conn = a.

(** Agent calls are calls of agents in [allowed]. *)
Definition pipeline_event (allowed : list agent_fn) (ev : event) : Prop :=
  match ev with
  | EvAgentCall a => a ∈ allowed
  | _ => True
  end.

(** The analyst nodes that the first loop of [create_workflow] adds: the
    selected keys that [analyst_nodes] knows, in the order of selection. *)
Definition selected_nodes (analyst_nodes : dict callable) (selected_analysts : list string)
  : dict callable :=
  omap (fun k => pair k <$> dict_get analyst_nodes k) selected_analysts.

Definition is_ValueError (e : exn) : Prop :=
  match e with ValueError _ => True | _ => False end.

(** Events of a run in which no graph was invoked and no agent called. *)
Definition before_execution (ev : event) : Prop :=
  match ev with
  | EvInvoke | EvAgentCall _ => False
  | _ => True
  end.

(** In [env], [run_hedge_fund] obtains [client] and the securing phase
    returns [secured]. *)
Definition securing_succeeds (env : Env) (client : Aztp) (secured : dict callable)
  : Prop :=
  exists api_key,
    getenv_AZTP_API_KEY env = Some api_key /\ api_key <> EmptyString /\
    Aztp_init env api_key = inr client /\
    result (secure_wrap_agents env client) = inr secured.

(** The callable [f] succeeds on every state and adds exactly one entry
    to [analyst_signals], under the key [k]. *)
Definition writes_own_entry (env : Env) (k : string) (f : callable) : Prop :=
  forall state, exists state',
    result (call env f state) = inr state' /\
    dom (analyst_signals (data state')) = {[ k ]} ∪ dom (analyst_signals (data state)).

(** The agents that a trace calls, in the order of the calls. *)
Definition called (tr : list event) : list agent_fn :=
  omap (fun ev => match ev with EvAgentCall a => Some a | _ => None end) tr.

(** The agents behind the selected nodes, in the order of selection. *)
Definition node_agents (analyst_nodes : dict callable) (selected_analysts : list string)
  : list agent_fn :=
  omap (fun k => dict_get analyst_nodes k ≫= agent_of) selected_analysts.

(** The selection that [run_hedge_fund] builds the workflow from. *)
Definition effective_selection (selected_analysts : list string) : list string :=
  match selected_analysts with
  | [] => ANALYST_ORDER
  | _ => selected_analysts
  end.

(** What [parse_hedge_fund_response] returns for a text. *)
Definition decision (env : Env) (text : string) : json :=
  match json_loads env text with
  | inr v => v
  | inl _ => JNull
  end.

Definition is_progress (ev : event) : Prop :=
  match ev with EvProgressStart | EvProgressStop => True | _ => False end.

(** The three steps of [run_hedge_fund] between [progress.start()] and the
    parsing of the final message. *)
Definition build_and_invoke (env : Env) (selected_analysts : list string)
    (secured_agents : dict callable) (state : AgentState) : M AgentState :=
  workflow <- create_workflow selected_analysts secured_agents ;;
  agent <- compile workflow ;;
  invoke env agent state.

(** The agents of the selected analysts, in the order of selection. *)
Definition selected_agents (selected_analysts : list string) : list agent_fn :=
  omap (dict_get analyst_wiring) selected_analysts.

(** The agent [a] answers on every state. *)
Definition always_succeeds (env : Env) (a : agent_fn) : Prop :=
  forall state, exists state', agent_call env a state = inr state'.

(** The agent [a] raises [e] on every state. *)
Definition always_raises (env : Env) (a : agent_fn) (e : exn) : Prop :=
  forall state, agent_call env a state = inl e.

(** The node of the key [k] answers on every state. *)
Definition node_succeeds (env : Env) (analyst_nodes : dict callable) (k : string)
  : Prop :=
  forall f, dict_get analyst_nodes k = Some f ->
    forall state, exists state', result (call env f state) = inr state'.

(** The node of the key [k] raises [e] on every state. *)
Definition node_raises (env : Env) (analyst_nodes : dict callable) (k : string)
    (e : exn) : Prop :=
  forall f, dict_get analyst_nodes k = Some f ->
    forall state, result (call env f state) = inl e.

(** Every collaborator answers, except that the agent [failed] raises. *)
Definition crashing (failed : agent_fn) : Env :=
  mkEnv (Some "secret")
        (fun _ => inr Scenario.client)
        (fun _ name => inr ("aztp://" +:+ name))
        (fun _ => inr true)
        (fun conn => inr (credential conn))
        (fun a state => if bool_decide (a = failed)
                        then inl (OtherError "rate limit exceeded")
                        else Scenario.well_behaved a state)
        Decoder.loads.

(** ** The command line

    [main] after [parser.parse_args()] has accepted the command line.
    The clock, the date arithmetic of [dateutil] and the prompt of
    [questionary] are collaborators. *)

(** [s.split(sep)] for a separator that is not empty (Python refuses
    the empty one; [main] passes constants): the pieces between the
    occurrences of [sep], which are found from the left and do not
    overlap.  [skip] counts the characters of an occurrence that are
    still to be passed over, [piece] is the piece read so far. *)
Fixpoint split_from (sep : string) (skip : nat) (piece : string) (s : string)
  : list string :=
  match s with
  | EmptyString => [piece]
  | String c rest =>
      match skip with
      | S n => split_from sep n piece rest
      | O =>
          if String.prefix sep s
          then piece :: split_from sep (String.length sep - 1) EmptyString rest
          else split_from sep 0 (piece +:+ String c EmptyString) rest
      end
  end.

Definition str_split (sep s : string) : list string :=
  split_from sep 0 EmptyString s.

(** The bytes of a text, which is held in UTF-8. *)
Definition chars (s : string) : list ascii := list_ascii_of_string s.

(** [c.isspace()] for an ASCII character: tab, line feed, vertical tab,
    form feed, carriage return, the four separators 28 to 31 and the
    space. *)
Definition is_space (c : ascii) : bool :=
  (((9 <=? nat_of_ascii c) && (nat_of_ascii c <=? 13))
   || ((28 <=? nat_of_ascii c) && (nat_of_ascii c <=? 32)))%nat.

(** The characters of two bytes for which [isspace()] holds: U+0085 and
    U+00A0. *)
Definition is_space2 (a b : ascii) : bool :=
  ((nat_of_ascii a =? 194)
   && ((nat_of_ascii b =? 133) || (nat_of_ascii b =? 160)))%nat.

(** The characters of three bytes for which [isspace()] holds: U+1680,
    U+2000 to U+200A, U+2028, U+2029, U+202F, U+205F and U+3000. *)
Definition is_space3 (a b c : ascii) : bool :=
  (((nat_of_ascii a =? 225) && (nat_of_ascii b =? 154) && (nat_of_ascii c =? 128))
   || ((nat_of_ascii a =? 226) && (nat_of_ascii b =? 128)
       && (((128 <=? nat_of_ascii c) && (nat_of_ascii c <=? 138))
           || (nat_of_ascii c =? 168) || (nat_of_ascii c =? 169)
           || (nat_of_ascii c =? 175)))
   || ((nat_of_ascii a =? 226) && (nat_of_ascii b =? 129) && (nat_of_ascii c =? 159))
   || ((nat_of_ascii a =? 227) && (nat_of_ascii b =? 128)
       && (nat_of_ascii c =? 128)))%nat.

(** The same characters read from their last byte to their first. *)
Definition is_space2_back (b a : ascii) : bool := is_space2 a b.
Definition is_space3_back (c b a : ascii) : bool := is_space3 a b c.

(** The number of bytes of the whitespace character with which the bytes
    [l] begin, 0 when they begin with none; [two] and [three] tell the
    whitespace characters of two and of three bytes. *)
Definition space_width (two : ascii -> ascii -> bool)
    (three : ascii -> ascii -> ascii -> bool) (l : list ascii) : nat :=
  match l with
  | [] => 0
  | a :: rest =>
      if is_space a then 1
      else match rest with
           | [] => 0
           | b :: rest' =>
               if two a b then 2
               else match rest' with
                    | [] => 0
                    | c :: _ => if three a b c then 3 else 0
                    end
           end
  end.

(** The bytes [l] without the whitespace characters with which they
    begin. *)
Fixpoint strip_front (two : ascii -> ascii -> bool)
    (three : ascii -> ascii -> ascii -> bool) (l : list ascii) : list ascii :=
  match l with
  | [] => []
  | a :: rest =>
      if is_space a then strip_front two three rest
      else match rest with
           | [] => l
           | b :: rest' =>
               if two a b then strip_front two three rest'
               else match rest' with
                    | [] => l
                    | c :: rest'' =>
                        if three a b c then strip_front two three rest'' else l
                    end
           end
  end.

(** [s.lstrip()] and [s.rstrip()] on the bytes of [s].  The end of the
    text is read backwards: a whitespace character ends a text exactly
    when its bytes do, the first byte of a character being no later byte
    of another. *)
Definition lstrip_space (l : list ascii) : list ascii :=
  strip_front is_space2 is_space3 l.

Definition rstrip_space (l : list ascii) : list ascii :=
  reverse (strip_front is_space2_back is_space3_back (reverse l)).

(** [s.strip()] *)
Definition strip (s : string) : string :=
  string_of_list_ascii (rstrip_space (lstrip_space (chars s))).

(** [s.rstrip(chars)] for ASCII characters [chars], [drop] telling the
    characters that are removed. *)
Fixpoint rstrip (drop : ascii -> bool) (s : string) : string :=
  match s with
  | EmptyString => EmptyString
  | String c rest =>
      match rstrip drop rest with
      | EmptyString => if drop c then EmptyString else String c EmptyString
      | kept => String c kept
      end
  end.

(** The characters of the argument of [s.rstrip(chars)]. *)
Definition one_of (chars : string) (c : ascii) : bool :=
  existsb (Ascii.eqb c) (list_ascii_of_string chars).

(** [xs[i]] for an index that is not negative. *)
Definition list_index {A} (xs : list A) (i : nat) : exn + A :=
  match xs !! i with
  | Some x => inr x
  | None => inl (IndexError "list index out of range")
  end.

(** [[ticker.strip() for ticker in args.tickers.split(",")]] *)
Definition parse_tickers (text : string) : list string :=
  map strip (str_split "," text).

Definition model_choices : list string :=
  [ "gpt-4 (OpenAI)";
    "gpt-3.5-turbo (OpenAI)";
    "claude-3-opus-20240229 (Anthropic)";
    "claude-3-sonnet-20240229 (Anthropic)";
    "mixtral-8x7b-32768 (Groq)" ].

(** The model name and the provider that [main] reads from the chosen
    entry. *)
Definition parse_model_choice (model_choice : string) : exn + (string * string) :=
  match list_index (str_split " (" model_choice) 0 with
  | inl e => inl e
  | inr model_name =>
      match list_index (str_split "(" model_choice) 1 with
      | inl e => inl e
      | inr provider => inr (model_name, rstrip (one_of ")") provider)
      end
  end.

(** The namespace that [parser.parse_args()] returns. *)
Record Namespace : Type := mkNamespace {
  args_tickers : string;
  args_start_date : option string;
  args_end_date : option string;
  args_portfolio : string;
  args_show_reasoning : bool;
  args_analysts : list string;
}.

(** The command line and the answers of the collaborators of [main]:
    [today] is [datetime.now().strftime("%Y-%m-%d")];
    [three_months_before end_date] is
    [(datetime.strptime(end_date, "%Y-%m-%d") - relativedelta(months=3))
    .strftime("%Y-%m-%d")], an [inl] when [strptime] refuses the text;
    [ask message choices default] is what
    [questionary.select(message, choices=choices, default=default).ask()]
    returns, [None] when the prompt is cancelled. *)
Record Cli : Type := mkCli {
  args : Namespace;
  today : string;
  three_months_before : string -> exn + string;
  ask : string -> list string -> string -> option string;
}.

(** The arguments with which [main] calls [run_hedge_fund]. *)
Record Invocation : Type := mkInvocation {
  inv_tickers : list string;
  inv_start_date : string;
  inv_end_date : string;
  inv_portfolio : json;
  inv_show_reasoning : bool;
  inv_selected_analysts : list string;
  inv_model_name : string;
  inv_model_provider : string;
}.

(** How [main] ends: it returns after [print_trading_output(result)],
    it leaves through [sys.exit(code)], or an exception reaches the top
    level. *)
Inductive Termination : Type :=
| Displayed (result : RunResult)
| SystemExit (code : Z)
| Uncaught (e : exn).

(** [x or y] on an optional string: [None] and the empty string are
    false. *)
Definition or_else (x : option string) (y : string) : string :=
  match x with
  | None | Some EmptyString => y
  | Some s => s
  end.

(** The start and the end date that [main] settles. *)
Definition dates (cli : Cli) : exn + (string * string) :=
  let end_date := or_else (args_end_date (args cli)) (today cli) in
  match args_start_date (args cli) with
  | None | Some EmptyString =>
      match three_months_before cli end_date with
      | inl e => inl e
      | inr start_date => inr (start_date, end_date)
      end
  | Some start_date => inr (start_date, end_date)
  end.

(** [main] up to the call of [run_hedge_fund]: the arguments of that
    call, or the way in which [main] ends before it. *)
Definition arguments (cli : Cli) (env : Env)
  : (Termination * list event) + Invocation :=
  let tickers := parse_tickers (args_tickers (args cli)) in
  match dates cli with
  | inl e => inl (Uncaught e, [])
  | inr (start_date, end_date) =>
      match json_loads env (args_portfolio (args cli)) with
      | inl (JSONDecodeError _) =>
          inl (SystemExit 1, [EvPrint "Error: Invalid portfolio JSON"])
      | inl e => inl (Uncaught e, [])
      | inr portfolio =>
          match ask cli "Select LLM model:" model_choices
                    (List.hd EmptyString model_choices) with
          | None =>
              inl (Uncaught (OtherError "'NoneType' object has no attribute 'split'"),
                   [])
          | Some model_choice =>
              match parse_model_choice model_choice with
              | inl e => inl (Uncaught e, [])
              | inr (model_name, model_provider) =>
                  inr (mkInvocation tickers start_date end_date portfolio
                         (args_show_reasoning (args cli)) (args_analysts (args cli))
                         model_name model_provider)
              end
          end
      end
  end.

(** [asyncio.run(run_hedge_fund(...))] on the arguments [inv]. *)
Definition run_invocation (env : Env) (inv : Invocation) : M (option RunResult) :=
  run_hedge_fund env (inv_tickers inv) (inv_start_date inv) (inv_end_date inv)
                 (inv_portfolio inv) (inv_show_reasoning inv)
                 (inv_selected_analysts inv) (inv_model_name inv)
                 (inv_model_provider inv).

Definition main (cli : Cli) (env : Env) : Termination * list event :=
  match arguments cli env with
  | inl ended => ended
  | inr inv =>
      match result (run_invocation env inv) with
      | inl e => (Uncaught e, trace (run_invocation env inv))
      | inr (Some result) => (Displayed result, trace (run_invocation env inv))
      | inr None =>
          (SystemExit 1,
           trace (run_invocation env inv)
             ++ [EvPrint (nl ++ "Hedge fund execution failed.")])
      end
  end.


(** The text [s] neither begins nor ends with an ASCII whitespace
    character. *)
Definition bare (s : string) : Prop :=
  forall c, head (chars s) = Some c \/ last (chars s) = Some c -> is_space c = false.

(** The text [s] neither begins nor ends with a whitespace character,
    ASCII or not. *)
Definition trimmed (s : string) : Prop :=
  space_width is_space2 is_space3 (chars s) = 0 /\
  space_width is_space2_back is_space3_back (reverse (chars s)) = 0.



(** The client of a run: [None] when [AZTP_API_KEY] is missing or empty
    or when [Aztp(api_key=...)] raises. *)
Definition client_of (env : Env) : option Aztp :=
  match getenv_AZTP_API_KEY env with
  | None | Some EmptyString => None
  | Some api_key =>
      match Aztp_init env api_key with
      | inl _ => None
      | inr client => Some client
      end
  end.

(** A command line with the given tickers and analysts, the dates given,
    an empty portfolio, and a user who picks the first model. *)
Definition command_line (tickers : string) (analysts : list string) : Cli :=
  mkCli (mkNamespace tickers (Some "2024-01-01") (Some "2024-04-01") "{}" false
                     analysts)
        "2024-04-01"
        (fun _ => inr "2024-01-01")
        (fun _ choices default => Some default).

(** * Properties *)

(** ** The monad *)

Lemma result_bind {A B} (m : M A) (k : A -> M B) :
  result (bind m k) = match result m with inl e => inl e | inr a => result (k a) end.
Proof.
  destruct m as [[e|a] tr]; unfold bind, result, trace; simpl; [done|].
  by destruct (k a).
Qed.

Lemma trace_bind {A B} (m : M A) (k : A -> M B) :
  trace (bind m k)
  = match result m with inl _ => trace m | inr a => trace m ++ trace (k a) end.
Proof.
  destruct m as [[e|a] tr]; unfold bind, result, trace; simpl; [done|].
  by destruct (k a).
Qed.

Lemma result_catch {A} (m : M A) (h : exn -> M A) :
  result (catch m h) = match result m with inl e => result (h e) | inr a => inr a end.
Proof.
  destruct m as [[e|a] tr]; unfold catch, result, trace; simpl; [|done].
  by destruct (h e).
Qed.

Lemma trace_catch {A} (m : M A) (h : exn -> M A) :
  trace (catch m h)
  = match result m with inl e => trace m ++ trace (h e) | inr _ => trace m end.
Proof.
  destruct m as [[e|a] tr]; unfold catch, result, trace; simpl; [|done].
  by destruct (h e).
Qed.

Lemma result_finally {A} (m : M A) (fin : list event) :
  result (finally m fin) = result m.
Proof. by destruct m. Qed.

Lemma trace_finally {A} (m : M A) (fin : list event) :
  trace (finally m fin) = trace m ++ fin.
Proof. by destruct m. Qed.

Lemma result_lift {A} (r : exn + A) : result (lift r) = r.
Proof. done. Qed.

Lemma trace_lift {A} (r : exn + A) : trace (lift r) = [].
Proof. done. Qed.

Lemma result_ret {A} (a : A) : result (ret a) = inr a.
Proof. done. Qed.

Lemma trace_ret {A} (a : A) : trace (ret a) = [].
Proof. done. Qed.

Lemma result_raise {A} (e : exn) : result (@raise A e) = inl e.
Proof. done. Qed.

Lemma trace_raise {A} (e : exn) : trace (@raise A e) = [].
Proof. done. Qed.

Lemma result_emit ev : result (emit ev) = inr tt.
Proof. done. Qed.

Lemma trace_emit ev : trace (emit ev) = [ev].
Proof. done. Qed.

Lemma result_print line : result (print line) = inr tt.
Proof. done. Qed.

Lemma trace_print line : trace (print line) = [EvPrint line].
Proof. done. Qed.

Create Rewrite HintDb run.
#[global] Hint Rewrite @result_bind @trace_bind @result_catch @trace_catch
  @result_finally @trace_finally @result_lift @trace_lift @result_ret @trace_ret
  @result_raise @trace_raise result_emit trace_emit result_print trace_print : run.

(** Evaluate the monadic operations under [result] and [trace]. *)
Ltac run := autorewrite with run.

Lemma only_bind P {A B} (m : M A) (k : A -> M B) :
  only P m -> (forall a, result m = inr a -> only P (k a)) -> only P (bind m k).
Proof.
  unfold only. intros Hm Hk. rewrite trace_bind.
  destruct (result m) as [e|a] eqn:E; [done|].
  apply Forall_app; split; [done|]. by apply Hk.
Qed.

Lemma only_catch P {A} (m : M A) (h : exn -> M A) :
  only P m -> (forall e, result m = inl e -> only P (h e)) -> only P (catch m h).
Proof.
  unfold only. intros Hm Hh. rewrite trace_catch.
  destruct (result m) as [e|a] eqn:E; [|done].
  apply Forall_app; split; [done|]. by apply Hh.
Qed.

Lemma only_finally P {A} (m : M A) (fin : list event) :
  only P m -> Forall P fin -> only P (finally m fin).
Proof. unfold only. rewrite trace_finally. intros. by apply Forall_app. Qed.

Lemma only_lift P {A} (r : exn + A) : only P (lift r).
Proof. by constructor. Qed.

Lemma only_ret P {A} (a : A) : only P (ret a).
Proof. by constructor. Qed.

Lemma only_raise P {A} (e : exn) : only P (@raise A e).
Proof. by constructor. Qed.

Lemma only_emit (P : event -> Prop) ev : P ev -> only P (emit ev).
Proof. intros. by repeat constructor. Qed.

Lemma only_for_each P {A} (xs : list A) (body : A -> M unit) :
  (forall x, x ∈ xs -> only P (body x)) -> only P (for_each xs body).
Proof.
  induction xs as [|x xs IH]; intros H; simpl; [apply only_ret|].
  apply only_bind; [apply H; by left|].
  intros _ _. apply IH. intros y Hy. apply H. by right.
Qed.

Lemma only_weaken (P Q : event -> Prop) {A} (m : M A) :
  (forall ev, P ev -> Q ev) -> only P m -> only Q m.
Proof. unfold only. intros H HP. by eapply Forall_impl. Qed.

(** ** Dictionaries *)

Lemma dict_get_Some_keys {V} (d : dict V) k v :
  dict_get d k = Some v -> k ∈ keys d.
Proof.
  induction d as [|[k' v'] d IH]; simpl; [done|].
  case_decide; [intros _; subst; by left|]. intros. right. by apply IH.
Qed.

Lemma dict_get_None_keys {V} (d : dict V) k :
  dict_get d k = None <-> k ∉ keys d.
Proof.
  induction d as [|[k' v'] d IH]; simpl.
  - split; [intros _; apply not_elem_of_nil|done].
  - rewrite not_elem_of_cons. case_decide; subst.
    + split; [done|]. by intros [].
    + rewrite IH. split; [by intros; split|by intros []].
Qed.

Lemma dict_mem_keys {V} (d : dict V) k : dict_mem d k = true <-> k ∈ keys d.
Proof.
  unfold dict_mem. rewrite bool_decide_eq_true.
  destruct (dict_get d k) as [v|] eqn:E.
  - split; [intros _; by eapply dict_get_Some_keys|by eauto].
  - apply dict_get_None_keys in E. split; [by intros []|done].
Qed.

Lemma dict_mem_false_keys {V} (d : dict V) k : dict_mem d k = false <-> k ∉ keys d.
Proof. rewrite <- dict_mem_keys. by destruct (dict_mem d k). Qed.

Lemma dict_set_fresh {V} (d : dict V) k v :
  k ∉ keys d -> dict_set d k v = d ++ [(k, v)].
Proof.
  induction d as [|[k' v'] d IH]; simpl; [done|].
  rewrite not_elem_of_cons. intros [Hne Hk].
  case_decide; [by subst|]. by rewrite IH.
Qed.

(** ** The securing phase *)

Lemma collect_inr {A} (rs : list (exn + A)) (l : list A) :
  collect rs = inr l <-> rs = map inr l.
Proof.
  revert l. induction rs as [|[e|a] rs IH]; intros l; simpl.
  - split; [intros [= <-]; done|]. by destruct l.
  - split; [done|]. by destruct l.
  - destruct (collect rs) as [e|l'] eqn:E.
    + split; [done|]. destruct l as [|a' l]; [done|]. intros [= -> Hrs].
      apply IH in Hrs. done.
    + split.
      * intros [= <-]. simpl. f_equal. by apply IH.
      * destruct l as [|a' l]; [done|]. intros [= -> Hrs].
        apply IH in Hrs. by simplify_eq.
Qed.

Lemma secure_each_only env items acc :
  only securing_event (secure_each env items acc).
Proof.
  revert acc. induction items as [|[name agent] items IH]; intros acc; simpl.
  - apply only_ret.
  - apply only_bind; [by apply only_emit|]. intros _ _.
    apply only_bind; [apply only_lift|]. intros aztp_name _.
    apply only_bind; [by apply only_emit|]. intros _ _.
    apply only_bind; [apply only_lift|]. intros conn _. apply IH.
Qed.

Lemma secure_each_result env items acc secured :
  NoDup (keys acc ++ keys items) ->
  result (secure_each env items acc) = inr secured ->
  exists conns,
    Forall2 (fun item conn => connection_for env item.1 item.2 = inr conn) items conns /\
    secured = acc ++ zip_with secured_entry items conns.
Proof.
  revert acc. induction items as [|[name agent] items IH]; intros acc Hnd; simpl.
  - run. intros [= <-]. exists []. split; [constructor|]. by rewrite app_nil_r.
  - run.
    destruct (dict_index aztp_names name) as [e|aztp_name] eqn:En; run; [done|].
    destruct (secure_connect env agent (aztp_name ++ "-analyst")) as [e|conn] eqn:Ec;
      run; [done|]. unfold make_callable.
    assert (name ∉ keys acc) as Hfresh.
    { apply NoDup_app in Hnd as (_ & Hdisj & _). intros Hin.
      apply (Hdisj _ Hin). simpl. by left. }
    rewrite dict_set_fresh by done. intros Hr.
    apply IH in Hr as (conns & Hall & ->).
    + exists (conn :: conns). split.
      * constructor; [|done]. simpl. unfold connection_for. by rewrite En.
      * simpl. by rewrite <- app_assoc.
    + unfold keys in *. rewrite map_app. simpl. by rewrite <- app_assoc.
Qed.

Lemma cells_of_secured (items : dict agent_fn) conns :
  List.length items = List.length conns ->
  collect (map (fun item : string * callable => cell_contents item.2)
               (zip_with secured_entry items conns)) = inr conns.
Proof.
  revert conns. induction items as [|item items IH]; intros [|conn conns]; simpl;
    try done.
  intros [= Hlen]. by rewrite IH.
Qed.

Lemma print_identity_only env item : only securing_event (print_identity env item).
Proof.
  unfold print_identity.
  apply only_bind; [apply only_lift|]. intros conn _.
  apply only_bind; [by apply only_emit|]. intros _ _.
  apply only_bind; [apply only_lift|]. intros identity _. by apply only_emit.
Qed.

Lemma gather_verify_only env conns : only securing_event (gather_verify env conns).
Proof.
  unfold only, gather_verify, trace. simpl. induction conns; by constructor.
Qed.

Lemma secure_wrap_agents_only env client :
  only securing_event (secure_wrap_agents env client).
Proof.
  unfold secure_wrap_agents.
  apply only_bind; [by apply only_emit|]. intros _ _.
  apply only_bind; [apply secure_each_only|]. intros secured _.
  apply only_bind; [by apply only_emit|]. intros _ _.
  apply only_bind; [apply only_lift|]. intros conns _.
  apply only_bind; [apply gather_verify_only|]. intros valid _.
  destruct (negb (forallb id valid)); [apply only_raise|].
  apply only_bind.
  - apply only_for_each. intros. apply print_identity_only.
  - intros _ _. apply only_bind; [by apply only_emit|]. intros _ _. apply only_ret.
Qed.

Lemma agents_NoDup : NoDup (keys agents).
Proof. by apply (bool_decide_unpack _). Qed.

(** What a successful securing phase returns: one wrapped connection per
    entry of [agents], in that order, each verified. *)
Lemma secure_wrap_agents_result env client secured :
  result (secure_wrap_agents env client) = inr secured ->
  exists conns,
    Forall2 (fun item conn => connection_for env item.1 item.2 = inr conn) agents conns /\
    Forall (fun conn => verify_identity env conn = inr true) conns /\
    secured = zip_with secured_entry agents conns.
Proof.
  unfold secure_wrap_agents. run.
  destruct (result (secure_each env agents [])) as [e|sec] eqn:Es; [done|].
  apply secure_each_result in Es as (conns & Hall & ->); [|apply agents_NoDup].
  rewrite !app_nil_l. run. rewrite cells_of_secured by (by eapply Forall2_length).
  run. unfold gather_verify at 1. unfold result at 1. simpl.
  destruct (collect (map (verify_identity env) conns)) as [e|valid] eqn:Ev; [done|].
  destruct (forallb id valid) eqn:Hvalid; simpl; run; [|done].
  destruct (result (for_each _ _)); [done|]. run. intros [= <-].
  exists conns. split_and!; [done| |done].
  apply collect_inr in Ev. apply Forall_forall. intros conn Hin.
  assert (verify_identity env conn ∈ map inr valid) as Hv.
  { rewrite <- Ev. apply list_elem_of_fmap. by exists conn. }
  apply list_elem_of_fmap in Hv as (b & -> & Hb).
  rewrite forallb_forall in Hvalid. apply list_elem_of_In in Hb.
  f_equal. exact (Hvalid _ Hb).
Qed.

Lemma Forall2_elem_of_l {A B} (R : A -> B -> Prop) (xs : list A) (ys : list B) x :
  Forall2 R xs ys -> x ∈ xs -> exists y, y ∈ ys /\ R x y.
Proof.
  induction 1 as [|x' y' xs ys HR _ IH]; [by intros ?%elem_of_nil|].
  intros [->|Hin]%elem_of_cons.
  - exists y'. split; [by left|done].
  - destruct (IH Hin) as (y & Hy & HRy). exists y. split; [by right|done].
Qed.

(** A denied identity makes the securing phase raise. *)
Lemma rejected_securing_fails env client :
  verification_rejected env ->
  exists e, result (secure_wrap_agents env client) = inl e.
Proof.
  intros (name & agent & conn & Hin & Hconn & Hdenied).
  destruct (result (secure_wrap_agents env client)) as [e|secured] eqn:E; [by eauto|].
  apply secure_wrap_agents_result in E as (conns & Hall & Hvalid & _).
  destruct (Forall2_elem_of_l _ _ _ _ Hall Hin) as (conn' & Hin' & Hc).
  simpl in Hc. rewrite Hconn in Hc. injection Hc as <-.
  rewrite Forall_forall in Hvalid. specialize (Hvalid _ Hin'). congruence.
Qed.

Lemma on_exception_only client e : only securing_event (on_exception client e).
Proof.
  unfold on_exception.
  apply only_bind; [by apply only_emit|]. intros _ _.
  destruct client as [c|]; [|apply only_raise].
  destruct (config c); [|apply only_ret].
  repeat (apply only_bind; [by apply only_emit|]; intros _ _). apply only_ret.
Qed.

Lemma on_exception_no_result client e r :
  result (on_exception client e) <> inr (Some r).
Proof.
  unfold on_exception. run. destruct client as [c|]; run; [|done].
  destruct (config c); run; done.
Qed.

Lemma on_exception_bound client e : result (on_exception (Some client) e) = inr None.
Proof. unfold on_exception. run. by destruct (config client); run. Qed.

Section Run.

Context (env : Env).
Context (tickers : list string) (start_date end_date : string) (portfolio : json).
Context (show_reasoning : bool) (model_name model_provider : string).

(** [run_hedge_fund] on the arguments of this section. *)
Local Abbreviation run_with selected_analysts :=
  (run_hedge_fund env tickers start_date end_date portfolio show_reasoning
     selected_analysts model_name model_provider).

(** C1: when the identity authority denies one of the identities, the
    securing phase raises, the run yields no result, and the run consists
    of securing and console events only: no graph is created, compiled
    or invoked and no agent is called. *)
Theorem verification_failure_aborts_run (client : Aztp) (selected_analysts : list string) :
  verification_rejected env ->
  (exists e, result (secure_wrap_agents env client) = inl e) /\
  (forall r, result (run_hedge_fund env tickers start_date end_date portfolio
                       show_reasoning selected_analysts model_name model_provider)
             <> inr (Some r)) /\
  only securing_event (run_hedge_fund env tickers start_date end_date portfolio
                         show_reasoning selected_analysts model_name model_provider).
Proof.
  intros Hrej. split; [by apply rejected_securing_fails|].
  unfold run_hedge_fund.
  destruct (getenv_AZTP_API_KEY env) as [[|c api_key]|];
    [split; [apply on_exception_no_result|apply on_exception_only]| |
     split; [apply on_exception_no_result|apply on_exception_only]].
  destruct (Aztp_init env _) as [e|client'];
    [split; [apply on_exception_no_result|apply on_exception_only]|].
  destruct (rejected_securing_fails env client' Hrej) as [e He].
  split.
  - intros r. run. rewrite He. apply on_exception_no_result.
  - apply only_catch; [|intros; apply on_exception_only].
    unfold only. run. rewrite He. apply secure_wrap_agents_only.
Qed.

End Run.

Lemma rejecting_risk_rejected :
  verification_rejected (Scenario.rejecting risk_management_agent).
Proof.
  exists "risk", risk_management_agent,
         (mkConn "risk-analyst" "aztp://risk-analyst" risk_management_agent).
  split_and!; [|reflexivity|reflexivity].
  by apply (bool_decide_unpack _).
Defined.

Lemma verification_failure_aborts_run_witness :
  verification_rejected (Scenario.rejecting risk_management_agent) /\
  (forall r, result (Scenario.run (Scenario.rejecting risk_management_agent)
                       ["ben_graham"]) <> inr (Some r)) /\
  only securing_event (Scenario.run (Scenario.rejecting risk_management_agent)
                         ["ben_graham"]).
Proof.
  split; [exact rejecting_risk_rejected|].
  apply (verification_failure_aborts_run
           (Scenario.rejecting risk_management_agent)
           ["AAPL"] "2024-01-01" "2024-04-01" (JObject []) false "gpt-4" "OpenAI"
           Scenario.client ["ben_graham"] rejecting_risk_rejected).
Defined.

(** ** The decision parser *)

(** C8: [parse_hedge_fund_response] never raises.  It returns what the
    decoder returns when the text is well formed, and [None] after
    printing the raw text when it is not; with the reference decoder, the
    text [{"AAPL": {"action":"buy","quantity":10}}] gives a mapping with the
    one entry AAPL and the text [not json] gives [None]. *)
Theorem parse_hedge_fund_response_fails_soft (env : Env) (response : string) :
  (exists v, result (parse_hedge_fund_response env response) = inr v) /\
  (forall v, json_loads env response = inr v ->
             parse_hedge_fund_response env response = (inr v, [])) /\
  (forall e, json_loads env response = inl e ->
             parse_hedge_fund_response env response
             = (inr JNull, [EvPrint ("Error parsing response: " ++ response)])) /\
  parse_hedge_fund_response Scenario.all_good Scenario.aapl_text
  = (inr (JObject [("AAPL", JObject [("action", JString "buy");
                                     ("quantity", JInt 10)])]), []) /\
  parse_hedge_fund_response Scenario.all_good "not json"
  = (inr JNull, [EvPrint "Error parsing response: not json"]).
Proof.
  split_and!; [| | |reflexivity|reflexivity].
  - unfold parse_hedge_fund_response. run.
    destruct (json_loads env response); run; eauto.
  - intros v Hv. unfold parse_hedge_fund_response. by rewrite Hv.
  - intros e He. unfold parse_hedge_fund_response. by rewrite He.
Qed.

(** C10: the parser returns [None] for the JSON text [null] exactly as it
    does for a text that fails to parse, and it returns any decoded value
    as it is, whatever its shape. *)
Theorem parse_null_is_parse_failure (env : Env) (bad response : string)
    (e : exn) (v : json) :
  json_loads env "null" = inr JNull ->
  json_loads env bad = inl e ->
  json_loads env response = inr v ->
  result (parse_hedge_fund_response env "null") = inr JNull /\
  result (parse_hedge_fund_response env bad) = inr JNull /\
  result (parse_hedge_fund_response env response) = inr v.
Proof.
  intros Hnull Hbad Hv. unfold parse_hedge_fund_response. run.
  rewrite Hnull, Hbad, Hv. by run.
Qed.

Lemma parse_null_is_parse_failure_witness :
  result (parse_hedge_fund_response Scenario.all_good "null") = inr JNull /\
  result (parse_hedge_fund_response Scenario.all_good "not json") = inr JNull /\
  result (parse_hedge_fund_response Scenario.all_good "[1, 2]")
  = inr (JList [JInt 1; JInt 2]).
Proof.
  apply (parse_null_is_parse_failure Scenario.all_good "not json" "[1, 2]"
           (JSONDecodeError "Expecting value") (JList [JInt 1; JInt 2]));
    reflexivity.
Defined.

(** Decoded values that are not mappings come back unchecked. *)
Example parse_returns_any_shape :
  result (parse_hedge_fund_response Scenario.all_good "42") = inr (JInt 42) /\
  result (parse_hedge_fund_response Scenario.all_good "true") = inr (JBool true) /\
  result (parse_hedge_fund_response Scenario.all_good
            (Scenario.quote ++ "hold" ++ Scenario.quote)) = inr (JString "hold") /\
  result (parse_hedge_fund_response Scenario.all_good "[]") = inr (JList []).
Proof. by split_and!. Qed.

(** ** The top-level handler *)

Section Handler.

Context (env : Env).
Context (tickers : list string) (start_date end_date : string) (portfolio : json).
Context (show_reasoning : bool) (model_name model_provider : string).

Local Abbreviation run_with selected_analysts :=
  (run_hedge_fund env tickers start_date end_date portfolio show_reasoning
     selected_analysts model_name model_provider).

(** Once [client] is assigned, nothing escapes [run_hedge_fund]. *)
Lemma run_hedge_fund_catches (api_key : string) (client : Aztp) selected_analysts :
  getenv_AZTP_API_KEY env = Some api_key -> api_key <> EmptyString ->
  Aztp_init env api_key = inr client ->
  exists r, result (run_with selected_analysts) = inr r.
Proof.
  intros Hkey Hne Hinit. unfold run_hedge_fund. rewrite Hkey.
  destruct api_key as [|c api_key]; [done|]. rewrite Hinit, result_catch.
  match goal with |- context [match result ?m with inl _ => _ | inr _ => _ end] =>
    destruct (result m) as [e|r'] end; [|by eauto].
  rewrite on_exception_bound. by eauto.
Qed.

(** C7: the error raised for a missing [AZTP_API_KEY] is not turned into
    the value [None]: the handler reads [client] before it was assigned,
    and [run_hedge_fund] raises [UnboundLocalError]. *)
Theorem missing_api_key_escapes selected_analysts :
  getenv_AZTP_API_KEY env = None ->
  run_hedge_fund env tickers start_date end_date portfolio show_reasoning
                 selected_analysts model_name model_provider
  = (inl (UnboundLocalError "client"),
     [EvPrint "Error running hedge fund: AZTP_API_KEY is required"]).
Proof. intros Hkey. unfold run_hedge_fund. by rewrite Hkey. Qed.

End Handler.

Lemma missing_api_key_escapes_witness :
  Scenario.run Scenario.no_api_key ["ben_graham"]
  = (inl (UnboundLocalError "client"),
     [EvPrint "Error running hedge fund: AZTP_API_KEY is required"]).
Proof.
  apply (missing_api_key_escapes Scenario.no_api_key
           ["AAPL"] "2024-01-01" "2024-04-01" (JObject []) false "gpt-4" "OpenAI"
           ["ben_graham"]).
  reflexivity.
Defined.

(** ** The workflow built from the empty list *)

(** C3, as stated, fails: the graph built from the empty list has no edge
    from the start node to the end marker. *)
Lemma empty_workflow_start_not_linked_to_end :
  ~ (forall secured wf,
       result (create_workflow [] secured) = inr wf ->
       ("START", END) ∈ edges wf /\
       (forall env c state,
          result (compile wf) = inr c -> result (invoke env c state) = inr state)).
Proof.
  intros H.
  destruct (H Scenario.secured_agents
              (mkGraph [("START", start_node)] {[ (START, "START") ]}))
    as [Hedge _]; [by vm_compute|].
  revert Hedge. by apply (bool_decide_unpack _).
Qed.

(** C3, amended: the graph built from the empty list has the pass-through
    start node as its only node and the entry edge as its only edge, so
    the start node has no successor and no edge leads to the end marker;
    it compiles, and invoking it returns the state unchanged without
    calling an agent.  [run_hedge_fund] does not build it: for an empty
    selection it builds the graph of [ANALYST_ORDER]. *)
Theorem empty_selection_workflow (secured : dict callable)
    (analyst_nodes : dict callable) :
  get_analyst_nodes (Some secured) = inr analyst_nodes ->
  let g := mkGraph [("START", start_node)] {[ (START, "START") ]} in
  create_workflow [] secured = (inr g, [EvStateGraph]) /\
  (("START", END) ∉ edges g) /\
  successors g "START" = [] /\
  compile g = (inr (mkCompiled g), [EvCompile]) /\
  (forall env state, invoke env (mkCompiled g) state = (inr state, [EvInvoke])) /\
  (forall env tickers start_date end_date portfolio show_reasoning model_name
          model_provider,
     run_hedge_fund env tickers start_date end_date portfolio show_reasoning []
                    model_name model_provider
     = run_hedge_fund env tickers start_date end_date portfolio show_reasoning
                      ANALYST_ORDER model_name model_provider).
Proof.
  intros Hnodes g. split_and!.
  - unfold create_workflow. rewrite Hnodes. by vm_compute.
  - by apply (bool_decide_unpack _).
  - by vm_compute.
  - by vm_compute.
  - intros env state. by vm_compute.
  - reflexivity.
Qed.

Lemma empty_selection_workflow_witness :
  let g := mkGraph [("START", start_node)] {[ (START, "START") ]} in
  create_workflow [] Scenario.secured_agents = (inr g, [EvStateGraph]) /\
  (forall env state, invoke env (mkCompiled g) state = (inr state, [EvInvoke])).
Proof.
  destruct (empty_selection_workflow Scenario.secured_agents
              [ ("ben_graham", wrapped_agent (mkConn "ben-graham-analyst" "aztp://ben-graham-analyst" ben_graham_agent));
                ("bill_ackman", wrapped_agent (mkConn "bill-ackman-analyst" "aztp://bill-ackman-analyst" bill_ackman_agent));
                ("warren_buffett", wrapped_agent (mkConn "warren-buffett-analyst" "aztp://warren-buffett-analyst" warren_buffett_agent));
                ("technical_analyst", wrapped_agent (mkConn "technicals-analyst" "aztp://technicals-analyst" technical_analyst_agent));
                ("fundamentals_analyst", wrapped_agent (mkConn "fundamentals-analyst" "aztp://fundamentals-analyst" fundamentals_agent));
                ("sentiment_analyst", wrapped_agent (mkConn "sentiment-analyst" "aztp://sentiment-analyst" sentiment_agent));
                ("valuation_analyst", wrapped_agent (mkConn "valuation-analyst" "aztp://valuation-analyst" valuation_agent)) ]
              eq_refl) as (H1 & _ & _ & _ & H2 & _).
  split; [exact H1|exact H2].
Defined.

(** ** Order of the securing phase *)

Lemma secure_each_trace_cons env name agent rest acc :
  trace (secure_each env ((name, agent) :: rest) acc)
  = EvPrint ("Securing " ++ name ++ " agent...") ::
    match dict_index aztp_names name with
    | inl _ => []
    | inr aztp_name =>
        EvSecureConnect agent (aztp_name ++ "-analyst") ::
        match secure_connect env agent (aztp_name ++ "-analyst") with
        | inl _ => []
        | inr conn =>
            trace (secure_each env rest (dict_set acc name (wrapped_agent conn)))
        end
    end.
Proof.
  simpl. run. simpl. f_equal.
  destruct (dict_index aztp_names name) as [e|aztp_name]; [done|].
  run. reflexivity.
Qed.

(** A registration is requested only when all earlier ones completed. *)
Lemma secure_each_reached env pre name agent post acc label :
  agent ∉ map snd pre ->
  EvSecureConnect agent label ∈ trace (secure_each env (pre ++ (name, agent) :: post) acc) ->
  Forall (registered env) pre.
Proof.
  revert acc. induction pre as [|[n0 a0] pre IH]; intros acc Hfresh Hin; [constructor|].
  simpl in Hfresh. apply not_elem_of_cons in Hfresh as [Hne Hfresh].
  rewrite <- app_comm_cons, secure_each_trace_cons in Hin.
  apply elem_of_cons in Hin as [[=]|Hin].
  destruct (dict_index aztp_names n0) as [e|aztp_name] eqn:En;
    [by apply elem_of_nil in Hin|].
  apply elem_of_cons in Hin as [[= -> _]|Hin]; [done|].
  destruct (secure_connect env a0 _) as [e|conn] eqn:Ec;
    [by apply elem_of_nil in Hin|].
  constructor; [|by eapply IH].
  exists conn. unfold connection_for. simpl. by rewrite En.
Qed.

Lemma secure_each_no_verify env items acc conn :
  EvVerifyIdentity conn ∉ trace (secure_each env items acc).
Proof.
  revert acc. induction items as [|[name agent] items IH]; intros acc.
  - apply not_elem_of_nil.
  - rewrite secure_each_trace_cons. apply not_elem_of_cons. split; [done|].
    destruct (dict_index aztp_names name); [apply not_elem_of_nil|].
    apply not_elem_of_cons. split; [done|].
    destruct (secure_connect env agent _); [apply not_elem_of_nil|]. apply IH.
Qed.

(** Every entry is requested, under the name of its connection, when the
    loop completes. *)
Lemma secure_each_requests env items acc secured name agent :
  result (secure_each env items acc) = inr secured ->
  (name, agent) ∈ items ->
  exists conn, connection_for env name agent = inr conn /\
    EvSecureConnect agent (conn_name conn) ∈ trace (secure_each env items acc).
Proof.
  revert acc. induction items as [|[n0 a0] items IH]; intros acc Hres Hin.
  { by apply elem_of_nil in Hin. }
  rewrite secure_each_trace_cons. simpl in Hres. revert Hres. run.
  unfold connection_for.
  destruct (dict_index aztp_names n0) as [e|aztp_name] eqn:En; run; [done|].
  destruct (secure_connect env a0 _) as [e|conn] eqn:Ec; run; [done|].
  intros Hres. apply elem_of_cons in Hin as [[= -> ->]|Hin].
  - rewrite En, Ec. exists conn. split; [done|]. right.
    assert (conn_name conn = (aztp_name ++ "-analyst")%string) as ->; [|by left].
    unfold secure_connect in Ec. destruct (register env a0 _); [done|].
    by injection Ec as <-.
  - destruct (IH _ Hres Hin) as (conn' & Hc & Hev). exists conn'.
    split; [done|]. by do 2 right.
Qed.

Lemma print_identity_no_registration env item :
  only (fun ev => ~ is_registration ev) (print_identity env item).
Proof.
  unfold print_identity.
  apply only_bind; [apply only_lift|]. intros conn _.
  apply only_bind; [by apply only_emit; simpl; auto|]. intros _ _.
  apply only_bind; [apply only_lift|]. intros identity _.
  apply only_emit. simpl. auto.
Qed.

(** The trace of the securing phase: the registrations, then the rest,
    which holds no registration and exists only when all registrations
    completed. *)
Lemma secure_wrap_agents_trace env client :
  exists tail,
    trace (secure_wrap_agents env client)
    = EvPrint (nl ++ "Initializing secure agent connections...")
      :: trace (secure_each env agents []) ++ tail /\
    Forall (fun ev => ~ is_registration ev) tail /\
    (tail <> [] -> exists secured, result (secure_each env agents []) = inr secured).
Proof.
  unfold secure_wrap_agents. run.
  destruct (result (secure_each env agents [])) as [e|secured] eqn:Es.
  { exists []. rewrite app_nil_r. split_and!; [done|constructor|done]. }
  eexists. split; [reflexivity|]. split; [|by eauto].
  change (only (fun ev => ~ is_registration ev)
    (print (nl ++ "Verifying agent identities...") ;;;
     conns <- lift (collect (map (fun item : string * callable => cell_contents item.2)
                                 secured)) ;;
     agents_valid <- gather_verify env conns ;;
     if negb (forallb id agents_valid)
     then raise (ValueError "Agent verification failed")
     else for_each secured (print_identity env) ;;;
          print (nl ++ "All agents verified successfully!") ;;; ret secured)).
  apply only_bind; [by apply only_emit; simpl; auto|]. intros _ _.
  apply only_bind; [apply only_lift|]. intros conns _.
  apply only_bind.
  { unfold only, gather_verify, trace. simpl.
    induction conns; constructor; simpl; auto. }
  intros valid _. destruct (negb (forallb id valid)); [apply only_raise|].
  apply only_bind.
  { apply only_for_each. intros. apply print_identity_no_registration. }
  intros _ _. apply only_bind; [by apply only_emit; simpl; auto|]. intros _ _.
  apply only_ret.
Qed.

Lemma agents_distinct : NoDup (map snd agents).
Proof. by apply (bool_decide_unpack _). Qed.

(** C6, as stated, fails: a registration that raises keeps every later
    registration from being requested. *)
Lemma registration_blocked_by_earlier_failure :
  ~ (forall env client name agent,
       (name, agent) ∈ agents ->
       exists label, EvSecureConnect agent label ∈ trace (secure_wrap_agents env client)).
Proof.
  intros H.
  destruct (H (Scenario.unreachable_for warren_buffett_agent) Scenario.client
              "ben_graham" ben_graham_agent) as [label Hin].
  { by apply (bool_decide_unpack _). }
  assert (trace (secure_wrap_agents (Scenario.unreachable_for warren_buffett_agent)
                   Scenario.client)
          = [EvPrint (nl ++ "Initializing secure agent connections...");
             EvPrint "Securing warren_buffett agent...";
             EvSecureConnect warren_buffett_agent "warren-buffett-analyst"]) as Htr
    by reflexivity.
  rewrite Htr in Hin. apply list_elem_of_In in Hin. simpl in Hin.
  by destruct Hin as [?|[?|[?|?]]].
Qed.

(** C6, amended: registrations are requested one after the other, in the
    order of [agents]: a registration is requested only when every
    earlier one has completed, and a verification is requested only when
    all nine registrations have completed, after which no registration is
    requested. *)
Theorem registration_is_sequential (env : Env) (client : Aztp) :
  (forall pre name agent post label,
     agents = pre ++ (name, agent) :: post ->
     EvSecureConnect agent label ∈ trace (secure_wrap_agents env client) ->
     Forall (registered env) pre) /\
  (forall tr1 conn tr2,
     trace (secure_wrap_agents env client) = tr1 ++ EvVerifyIdentity conn :: tr2 ->
     Forall (registered env) agents /\
     Forall (fun ev => ~ is_registration ev) tr2).
Proof.
  destruct (secure_wrap_agents_trace env client) as (tail & Htr & Htail & Hdone).
  split.
  - intros pre name agent post label Hsplit Hin. rewrite Htr in Hin.
    apply elem_of_cons in Hin as [[=]|Hin].
    apply elem_of_app in Hin as [Hin|Hin].
    + rewrite Hsplit in Hin. eapply secure_each_reached; [|exact Hin].
      pose proof agents_distinct as Hnd. rewrite Hsplit, map_app in Hnd.
      apply NoDup_app in Hnd as (_ & Hdisj & _). intros Hpre.
      apply (Hdisj _ Hpre). simpl. by left.
    + rewrite Forall_forall in Htail. by destruct (Htail _ Hin).
  - intros tr1 conn tr2 Hsplit.
    assert (Forall (fun ev => ~ is_registration ev) tr2 /\ tail <> []) as [Htr2 Hne].
    { rewrite Htr, app_comm_cons in Hsplit.
      apply app_eq_app in Hsplit as [l [[Hl Hr]|[Hl Hr]]].
      - destruct l as [|ev l].
        + simpl in Hr. rewrite <- Hr in Htail. split; [|by rewrite <- Hr].
          by apply Forall_cons in Htail as [_ ?].
        + injection Hr as <- _. exfalso.
          assert (EvVerifyIdentity conn
                  ∈ EvPrint (nl ++ "Initializing secure agent connections...")
                    :: trace (secure_each env agents [])) as Hin.
          { rewrite Hl. apply elem_of_app. right. by left. }
          apply elem_of_cons in Hin as [[=]|Hin].
          by apply secure_each_no_verify in Hin.
      - rewrite Hr in Htail. apply Forall_app in Htail as [_ Htail].
        apply Forall_cons in Htail as [_ ?]. split; [done|].
        rewrite Hr. by destruct l. }
    split; [|done].
    destruct (Hdone Hne) as [secured Hs].
    apply secure_each_result in Hs as (conns & Hall & _); [|apply agents_NoDup].
    clear -Hall. induction Hall as [|item c items conns Hc _ IH]; constructor; [|done].
    by exists c.
Qed.

(** The two cases of the theorem occur: with a failing first registration
    nothing follows it, and with answering collaborators the verifications
    follow the nine registrations. *)
Example registration_is_sequential_runs :
  trace (secure_wrap_agents (Scenario.unreachable_for warren_buffett_agent)
           Scenario.client)
  = [EvPrint (nl ++ "Initializing secure agent connections...");
     EvPrint "Securing warren_buffett agent...";
     EvSecureConnect warren_buffett_agent "warren-buffett-analyst"] /\
  Forall (registered Scenario.all_good) agents.
Proof.
  split; [reflexivity|].
  repeat constructor; eexists; reflexivity.
Qed.

(** ** Which agents a workflow can run *)

Lemma connection_for_agent env name agent conn :
  connection_for env name agent = inr conn -> _agent conn = agent.
Proof.
  unfold connection_for, secure_connect.
  destruct (dict_index aztp_names name); [done|].
  destruct (register env agent _); [done|]. by intros [= <-].
Qed.

Lemma unsecured_nodes_wiring :
  get_analyst_nodes None = inr (map (fun item => (item.1, raw item.2)) analyst_wiring).
Proof. reflexivity. Qed.

(** With the agents of a successful securing phase, [get_analyst_nodes]
    wires each analyst node to the secured form of the agent it has in
    the unsecured table. *)
Lemma secured_nodes_wiring env client secured :
  result (secure_wrap_agents env client) = inr secured ->
  exists analyst_nodes,
    get_analyst_nodes (Some secured) = inr analyst_nodes /\
    Forall2 (fun item node => node.1 = item.1 /\ wraps item.2 node.2)
            analyst_wiring analyst_nodes.
Proof.
  intros (conns & Hall & _ & ->)%secure_wrap_agents_result.
  unfold agents in Hall.
  repeat match goal with
         | H : Forall2 _ (_ :: _) _ |- _ =>
             apply Forall2_cons_inv_l in H as (? & ? & ?%connection_for_agent & H & ->)
         | H : Forall2 _ [] _ |- _ => apply Forall2_nil_inv_l in H as ->
         end.
  simpl in *. eexists. split; [reflexivity|].
  repeat constructor; simpl; eexists; by split.
Qed.

(** ** The graph builder *)

Lemma add_node_inr g name f g' :
  add_node g name f = inr g' ->
  nodes g' = nodes g ++ [(name, f)] /\ edges g' = edges g /\ name ∉ keys (nodes g).
Proof.
  unfold add_node. destruct (dict_mem (nodes g) name) eqn:Hmem; [done|].
  case_bool_decide; [done|]. intros [= <-]. simpl.
  split_and!; [done..|]. by apply dict_mem_false_keys.
Qed.

Lemma add_node_inl g name f e : add_node g name f = inl e -> is_ValueError e.
Proof.
  unfold add_node. destruct (dict_mem (nodes g) name); [by intros [= <-]|].
  case_bool_decide; [by intros [= <-]|done].
Qed.

Lemma add_edge_inr g a b g' :
  add_edge g a b = inr g' ->
  nodes g' = nodes g /\ edges g' = {[ (a, b) ]} ∪ edges g /\ a <> END /\ b <> START.
Proof.
  unfold add_edge. repeat case_bool_decide; try done. by intros [= <-].
Qed.

Lemma add_edge_inl g a b e : add_edge g a b = inl e -> is_ValueError e.
Proof. unfold add_edge. repeat case_bool_decide; by intros [= <-]. Qed.

Lemma add_edge_ok g a b :
  a <> END -> b <> START ->
  add_edge g a b = inr (mkGraph (nodes g) ({[ (a, b) ]} ∪ edges g)).
Proof. intros. unfold add_edge. by rewrite !bool_decide_eq_false_2. Qed.

Lemma add_analyst_nodes_inl sel first an wf e :
  add_analyst_nodes sel first an wf = inl e -> is_ValueError e.
Proof.
  revert wf. induction sel as [|k sel IH]; intros wf; simpl; [done|].
  destruct (dict_get an k) as [f|]; [|by apply IH].
  destruct (add_node wf k f) as [e'|wf1] eqn:E1; [intros [= <-]; by eapply add_node_inl|].
  case_bool_decide; [|by apply IH].
  destruct (add_edge wf1 "START" k) as [e'|wf2] eqn:E2;
    [intros [= <-]; by eapply add_edge_inl|by apply IH].
Qed.

Lemma add_analyst_nodes_inr sel first an wf wf' :
  add_analyst_nodes sel first an wf = inr wf' ->
  nodes wf' = nodes wf ++ selected_nodes an sel /\
  (forall e, e ∈ edges wf' <->
             e ∈ edges wf \/
             exists k, e = ("START", k) /\ first = Some k /\ k ∈ sel /\
                       is_Some (dict_get an k)).
Proof.
  revert wf. induction sel as [|k sel IH]; intros wf; simpl.
  { intros [= <-]. rewrite app_nil_r. split; [done|]. intros e. split; [by left|].
    intros [?|(k & _ & _ & []%elem_of_nil & _)]; done. }
  unfold selected_nodes. simpl. fold (selected_nodes an sel).
  destruct (dict_get an k) as [f|] eqn:Ek; simpl.
  - destruct (add_node wf k f) as [e'|wf1] eqn:E1; [done|].
    apply add_node_inr in E1 as (Hn1 & He1 & _).
    case_bool_decide as Hfirst.
    + destruct (add_edge wf1 "START" k) as [e'|wf2] eqn:E2; [done|].
      apply add_edge_inr in E2 as (Hn2 & He2 & _).
      intros (Hn & He)%IH. rewrite Hn, Hn2, Hn1, <- app_assoc. split; [done|].
      intros e. rewrite He, He2, He1, elem_of_union, elem_of_singleton.
      split.
      * intros [[->|?]|(k' & -> & ? & ? & ?)]; [right|by left|right].
        -- exists k. split_and!; [done|done|by left|by eauto].
        -- exists k'. split_and!; [done|done|by right|done].
      * intros [?|(k' & -> & Hf & [->|?]%elem_of_cons & ?)];
          [by left; right|by left; left|right]. by exists k'.
    + intros (Hn & He)%IH. rewrite Hn, Hn1, <- app_assoc. split; [done|].
      intros e. rewrite He, He1. split.
      * intros [?|(k' & -> & ? & ? & ?)]; [by left|right].
        exists k'. split_and!; [done|done|by right|done].
      * intros [?|(k' & -> & Hf & [->|?]%elem_of_cons & ?)]; [by left|done|right].
        by exists k'.
  - intros (Hn & He)%IH. split; [done|]. intros e. rewrite He. split.
    + intros [?|(k' & -> & ? & ? & ?)]; [by left|right].
      exists k'. split_and!; [done|done|by right|done].
    + intros [?|(k' & -> & Hf & [->|?]%elem_of_cons & Hk)]; [by left| |right].
      * rewrite Ek in Hk. by destruct Hk.
      * by exists k'.
Qed.

Lemma add_sequence_edges_inl sel wf e :
  add_sequence_edges sel wf = inl e -> is_ValueError e.
Proof.
  revert wf. induction sel as [|a [|b sel] IH]; intros wf; simpl; [done..|].
  destruct (add_edge wf a b) as [e'|wf1] eqn:E1; [intros [= <-]; by eapply add_edge_inl|].
  apply IH.
Qed.

Lemma add_sequence_edges_inr sel wf wf' :
  add_sequence_edges sel wf = inr wf' ->
  nodes wf' = nodes wf /\
  edges wf' = edges wf ∪ list_to_set (zip sel (tail sel)) /\
  Forall (fun e : string * string => e.1 <> END /\ e.2 <> START) (zip sel (tail sel)).
Proof.
  revert wf. induction sel as [|a [|b sel] IH]; intros wf.
  - intros [= <-]. split_and!; [done|set_solver|constructor].
  - intros [= <-]. split_and!; [done|set_solver|constructor].
  - change (add_sequence_edges (a :: b :: sel) wf)
      with (match add_edge wf a b with
            | inl e => inl e
            | inr wf1 => add_sequence_edges (b :: sel) wf1
            end).
    destruct (add_edge wf a b) as [e'|wf1] eqn:E1; [done|].
    apply add_edge_inr in E1 as (Hn1 & He1 & ? & ?).
    intros (Hn & He & Hall)%IH. rewrite Hn, He, He1.
    split_and!; [done| |by constructor].
    change (zip (a :: b :: sel) (tail (a :: b :: sel)))
      with ((a, b) :: zip (b :: sel) (tail (b :: sel))).
    set_solver.
Qed.

(** Every selected key is the source of an edge: to its successor, or
    to the end marker. *)
Lemma selected_is_source (sel : list string) k :
  k ∈ sel -> last sel = Some k \/ exists b, (k, b) ∈ zip sel (tail sel).
Proof.
  induction sel as [|a [|b sel] IH].
  - by intros ?%elem_of_nil.
  - intros ->%list_elem_of_singleton. by left.
  - intros [->|Hin]%elem_of_cons.
    + right. exists b. by left.
    + destruct (IH Hin) as [Hlast|[b' Hb']]; [by left|].
      right. exists b'. by right.
Qed.

Lemma create_workflow_inr sel secured wf :
  result (create_workflow sel secured) = inr wf ->
  exists an,
    get_analyst_nodes (Some secured) = inr an /\
    nodes wf = ("START", start_node) :: selected_nodes an sel /\
    (forall e, e ∈ edges wf <->
               e = (START, "START") \/
               (exists k, last sel = Some k /\ e = (k, END)) \/
               e ∈ zip sel (tail sel) \/
               (exists k, e = ("START", k) /\ head sel = Some k /\
                          is_Some (dict_get an k))) /\
    Forall (fun k => k <> END) sel.
Proof.
  unfold create_workflow, LangGraph.new. run.
  destruct (get_analyst_nodes (Some secured)) as [e|an]; [done|].
  run. simpl. run.
  change (add_node (mkGraph [] ∅) "START" start_node)
    with (@inr exn _ (mkGraph [("START", start_node)] ∅)).
  run.
  destruct (add_analyst_nodes sel (head sel) an _) as [e|wf1] eqn:E1; [done|].
  apply add_analyst_nodes_inr in E1 as (Hn1 & He1). simpl in Hn1. run.
  destruct (add_sequence_edges sel wf1) as [e|wf2] eqn:E2; [done|].
  apply add_sequence_edges_inr in E2 as (Hn2 & He2 & Hsrc). run.
  destruct (match last sel with
            | Some k => add_edge wf2 k END
            | None => inr wf2
            end) as [e|wf3] eqn:E3; [done|]. run.
  unfold set_entry_point. intros E4.
  apply add_edge_inr in E4 as (Hn4 & He4 & _).
  assert (nodes wf3 = nodes wf2 /\
          (forall e, e ∈ edges wf3 <->
                     (exists k, last sel = Some k /\ e = (k, END)) \/ e ∈ edges wf2) /\
          (forall k, last sel = Some k -> k <> END)) as (Hn3 & He3 & Hlast).
  { destruct (last sel) as [k|].
    - apply add_edge_inr in E3 as (Hn3 & He3 & Hk & _). split_and!; [done| |].
      + intros e. rewrite He3, elem_of_union, elem_of_singleton. split.
        * intros [->|?]; [left; by exists k|by right].
        * intros [(k' & [= <-] & ->)|?]; [by left|by right].
      + by intros k' [= <-].
    - injection E3 as <-. split_and!; [done| |done].
      intros e. split; [by right|]. by intros [(k & ? & _)|?]. }
  exists an. split_and!; [done|by rewrite Hn4, Hn3, Hn2, Hn1| |].
  - intros e. rewrite He4, elem_of_union, elem_of_singleton, He3, He2,
      elem_of_union, elem_of_list_to_set, He1. simpl.
    split.
    + intros [?|[?|[[[]%elem_of_empty|(k & -> & ? & ? & ?)]|?]]];
        [by left|by right; left| |by right; right; left].
      do 3 right. by exists k.
    + intros [?|[?|[?|(k & -> & Hh & ?)]]];
        [by left|by right; left|by right; right; right|].
      right. right. left. right. exists k. split_and!; [done..| |done].
      destruct sel; [done|]. injection Hh as ->. by left.
  - apply Forall_forall. intros k Hk.
    destruct (selected_is_source _ _ Hk) as [Hl|[b Hb]]; [by apply Hlast|].
    rewrite Forall_forall in Hsrc. by destruct (Hsrc _ Hb).
Qed.

Lemma create_workflow_only sel secured :
  only (fun ev => ev = EvStateGraph) (create_workflow sel secured).
Proof.
  unfold create_workflow, LangGraph.new.
  apply only_bind; [apply only_lift|]. intros an _.
  apply only_bind.
  { apply only_bind; [by apply only_emit|]. intros _ _. apply only_ret. }
  intros wf0 _. repeat (apply only_bind; [apply only_lift|]; intros ? _).
  apply only_lift.
Qed.

(** ** Registration and verification of the nine agents *)

(** Once the nine registrations have completed, the trace holds the
    registration and the verification request of each entry of [agents]. *)
Lemma secure_wrap_agents_requests env client sec name agent :
  result (secure_each env agents []) = inr sec ->
  (name, agent) ∈ agents ->
  exists conn,
    connection_for env name agent = inr conn /\
    EvSecureConnect agent (conn_name conn) ∈ trace (secure_wrap_agents env client) /\
    EvVerifyIdentity conn ∈ trace (secure_wrap_agents env client).
Proof.
  intros Es Hin.
  destruct (secure_each_requests _ _ _ _ _ _ Es Hin) as (conn & Hc & Hreq).
  exists conn. split; [done|].
  unfold secure_wrap_agents. run. rewrite Es.
  apply secure_each_result in Es as (conns & Hall & ->); [|apply agents_NoDup].
  destruct (Forall2_elem_of_l _ _ _ _ Hall Hin) as (conn' & Hconn & Hc'). simpl in Hc'.
  rewrite Hc in Hc'. injection Hc' as <-.
  rewrite !app_nil_l. run. rewrite cells_of_secured by (by eapply Forall2_length).
  run. split.
  - right. apply elem_of_app. by left.
  - right. apply elem_of_app. right. apply elem_of_app. right.
    rewrite app_nil_l.
    assert (EvVerifyIdentity conn ∈ trace (gather_verify env conns)) as Hv.
    { unfold gather_verify, trace. cbn [snd]. by apply list_elem_of_fmap_2. }
    destruct (result (gather_verify env conns)); [done|].
    apply elem_of_app. by left.
Qed.

Lemma secure_wrap_agents_verifies env client secured name agent :
  result (secure_wrap_agents env client) = inr secured ->
  (name, agent) ∈ agents ->
  exists conn,
    connection_for env name agent = inr conn /\
    verify_identity env conn = inr true /\
    EvSecureConnect agent (conn_name conn) ∈ trace (secure_wrap_agents env client) /\
    EvVerifyIdentity conn ∈ trace (secure_wrap_agents env client).
Proof.
  intros Hres Hin.
  destruct (secure_wrap_agents_result _ _ _ Hres) as (conns & Hall & Hvalid & _).
  destruct (Forall2_elem_of_l _ _ _ _ Hall Hin) as (conn & Hconn & Hc). simpl in Hc.
  assert (exists sec, result (secure_each env agents []) = inr sec) as [sec Es].
  { revert Hres. unfold secure_wrap_agents. run.
    destruct (result (secure_each env agents [])); [done|by eauto]. }
  destruct (secure_wrap_agents_requests env client sec name agent Es Hin)
    as (conn' & Hc' & Hreq & Hver).
  rewrite Hc in Hc'. injection Hc' as <-.
  exists conn. split_and!; [done| |done..].
  rewrite Forall_forall in Hvalid. by apply Hvalid.
Qed.

(** ** Which agents a run can call *)

Lemma dict_get_Some_elem {V} (d : dict V) k v : dict_get d k = Some v -> (k, v) ∈ d.
Proof.
  induction d as [|[k' v'] d IH]; simpl; [done|].
  case_decide; [intros [= ->]; subst; by left|]. intros. right. by apply IH.
Qed.

Lemma Forall2_elem_of_r {A B} (R : A -> B -> Prop) (xs : list A) (ys : list B) y :
  Forall2 R xs ys -> y ∈ ys -> exists x, x ∈ xs /\ R x y.
Proof.
  induction 1 as [|x' y' xs ys HR _ IH]; [by intros ?%elem_of_nil|].
  intros [->|Hin]%elem_of_cons.
  - exists x'. split; [by left|done].
  - destruct (IH Hin) as (x & Hx & HRx). exists x. split; [by right|done].
Qed.

Lemma call_only env f state allowed :
  (forall a, agent_of f = Some a -> a ∈ allowed) ->
  only (pipeline_event allowed) (call env f state).
Proof.
  intros Hf. destruct f as [a|conn|]; simpl.
  - apply only_bind; [apply only_emit; simpl; by apply Hf|]. intros. apply only_lift.
  - apply only_bind; [apply only_emit; simpl; by apply Hf|]. intros. apply only_lift.
  - apply only_ret.
Qed.

Lemma run_from_only env fuel g cur state allowed :
  (forall k f a, dict_get (nodes g) k = Some f -> agent_of f = Some a -> a ∈ allowed) ->
  only (pipeline_event allowed) (run_from env fuel g cur state).
Proof.
  intros Hg. revert cur state. induction fuel as [|fuel IH]; intros cur state; simpl.
  { apply only_raise. }
  apply only_bind; [apply only_lift|]. intros f Hf. rewrite result_lift in Hf.
  unfold dict_index in Hf. destruct (dict_get (nodes g) cur) as [f'|] eqn:Ef; [|done].
  injection Hf as ->.
  apply only_bind; [apply call_only; by eauto|]. intros state' _.
  destruct (successors g cur) as [|next [|]]; [apply only_ret| |apply only_raise].
  case_bool_decide; [apply only_ret|apply IH].
Qed.

Lemma invoke_only env c state allowed :
  (forall k f a, dict_get (nodes (builder c)) k = Some f -> agent_of f = Some a ->
                 a ∈ allowed) ->
  only (pipeline_event allowed) (invoke env c state).
Proof.
  intros Hg. unfold invoke.
  apply only_bind; [by apply only_emit|]. intros _ _.
  destruct (successors (builder c) START) as [|entry [|]];
    [apply only_ret| |apply only_raise].
  case_bool_decide; [apply only_ret|by apply run_from_only].
Qed.

(** The nodes of a workflow over secured agents: the start node, and
    secured forms of agents of the analyst table, each under its key. *)
Lemma workflow_nodes_wiring env client secured sel wf k f :
  result (secure_wrap_agents env client) = inr secured ->
  result (create_workflow sel secured) = inr wf ->
  (k, f) ∈ nodes wf ->
  (k = "START" /\ f = start_node) \/
  (k ∈ sel /\ exists a, (k, a) ∈ analyst_wiring /\ wraps a f).
Proof.
  intros (an & Han & Hwire)%secured_nodes_wiring
         (an' & Han' & Hnodes & _)%create_workflow_inr Hin.
  rewrite Han in Han'. injection Han' as <-.
  rewrite Hnodes in Hin. apply elem_of_cons in Hin as [[= -> ->]|Hin]; [by left|].
  right. unfold selected_nodes in Hin.
  apply list_elem_of_omap in Hin as (k' & Hk' & Hf).
  destruct (dict_get an k') as [f'|] eqn:Ek; [|done]. injection Hf as <- <-.
  split; [done|].
  apply dict_get_Some_elem in Ek.
  destruct (Forall2_elem_of_r _ _ _ _ Hwire Ek) as ([k0 a] & Hitem & Hk0 & Hw).
  simpl in *. subst k0. by exists a.
Qed.

Lemma workflow_agents env client secured sel wf k f a :
  result (secure_wrap_agents env client) = inr secured ->
  result (create_workflow sel secured) = inr wf ->
  dict_get (nodes wf) k = Some f ->
  agent_of f = Some a ->
  a ∈ map snd analyst_wiring.
Proof.
  intros Hs Hwf Hk%dict_get_Some_elem Ha.
  destruct (workflow_nodes_wiring _ _ _ _ _ _ _ Hs Hwf Hk)
    as [[_ ->]|(_ & a' & Hin & conn & -> & <-)]; [done|].
  injection Ha as <-. apply list_elem_of_fmap. by exists (k, _agent conn).
Qed.

Lemma securing_is_pipeline_event allowed ev :
  securing_event ev -> pipeline_event allowed ev.
Proof. by destruct ev. Qed.

Lemma parse_hedge_fund_response_only env response allowed :
  only (pipeline_event allowed) (parse_hedge_fund_response env response).
Proof.
  unfold parse_hedge_fund_response. apply only_catch; [apply only_lift|].
  intros. apply only_bind; [by apply only_emit|]. intros. apply only_ret.
Qed.

(** Whatever the selection, a run calls agents of the analyst table only. *)
Lemma run_hedge_fund_only env tickers start_date end_date portfolio show_reasoning
    selected_analysts model_name model_provider :
  only (pipeline_event (map snd analyst_wiring))
       (run_hedge_fund env tickers start_date end_date portfolio show_reasoning
                       selected_analysts model_name model_provider).
Proof.
  assert (forall c e, only (pipeline_event (map snd analyst_wiring)) (on_exception c e))
    as Hexc.
  { intros. eapply only_weaken; [apply securing_is_pipeline_event|].
    apply on_exception_only. }
  unfold run_hedge_fund.
  destruct (getenv_AZTP_API_KEY env) as [[|c api_key]|]; [apply Hexc| |apply Hexc].
  destruct (Aztp_init env _) as [e|client]; [apply Hexc|].
  apply only_catch; [|intros; apply Hexc].
  apply only_bind.
  { eapply only_weaken; [apply securing_is_pipeline_event|].
    apply secure_wrap_agents_only. }
  intros secured Hs.
  apply only_bind; [by apply only_emit|]. intros _ _.
  apply only_finally; [|by repeat constructor].
  apply only_bind.
  { eapply only_weaken; [|apply create_workflow_only]. by intros ev ->. }
  intros wf Hwf. unfold compile.
  apply only_bind.
  { apply only_bind; [by apply only_emit|]. intros _ _.
    apply only_bind; [apply only_lift|]. intros _ _. apply only_ret. }
  intros agent Hagent.
  assert (agent = mkCompiled wf) as ->.
  { revert Hagent. run. destruct (validate wf); run; [done|]. by intros [= <-]. }
  apply only_bind.
  { apply invoke_only. simpl. intros k f a. by eapply workflow_agents. }
  intros final_state _.
  destruct (last (messages final_state)); [|apply only_raise].
  apply only_bind; [apply parse_hedge_fund_response_only|]. intros. apply only_ret.
Qed.

Lemma unused_agents_not_wired :
  (portfolio_management_agent ∉ map snd analyst_wiring) /\
  (risk_management_agent ∉ map snd analyst_wiring).
Proof. split; by apply (bool_decide_unpack _). Qed.

(** C9, as stated, fails: the securing phase does not always register
    and verify all nine agents.  When the first registration raises, the
    portfolio agent is neither registered nor verified. *)
Lemma unused_agents_not_always_secured :
  ~ (forall env client name agent,
       (name, agent) ∈ agents ->
       exists conn,
         _agent conn = agent /\
         EvSecureConnect agent (conn_name conn)
         ∈ trace (secure_wrap_agents env client) /\
         EvVerifyIdentity conn ∈ trace (secure_wrap_agents env client)).
Proof.
  intros H.
  destruct (H (Scenario.unreachable_for warren_buffett_agent) Scenario.client
              "portfolio" portfolio_management_agent) as (conn & _ & _ & Hin).
  { by apply (bool_decide_unpack _). }
  assert (trace (secure_wrap_agents (Scenario.unreachable_for warren_buffett_agent)
                   Scenario.client)
          = [EvPrint (nl ++ "Initializing secure agent connections...");
             EvPrint "Securing warren_buffett agent...";
             EvSecureConnect warren_buffett_agent "warren-buffett-analyst"]) as Htr
    by reflexivity.
  rewrite Htr in Hin. apply list_elem_of_In in Hin. simpl in Hin.
  by destruct Hin as [?|[?|[?|?]]].
Qed.

(** C9, amended: whatever the selection, no node of the workflow runs the
    portfolio or the risk agent and no run calls them; yet, whenever the
    nine registrations complete, the securing phase has registered all
    nine agents of [agents], these two included, and requested the
    verification of all nine, and it succeeds only when all nine are
    verified: a denied identity of the portfolio or of the risk agent
    makes it raise. *)
Theorem verification_gate_covers_unused_agents (env : Env) (client : Aztp) :
  (forall selected_analysts secured wf k f,
     result (secure_wrap_agents env client) = inr secured ->
     result (create_workflow selected_analysts secured) = inr wf ->
     (k, f) ∈ nodes wf ->
     agent_of f <> Some portfolio_management_agent /\
     agent_of f <> Some risk_management_agent) /\
  (forall tickers start_date end_date portfolio show_reasoning selected_analysts
          model_name model_provider,
     Forall (fun ev => ev <> EvAgentCall portfolio_management_agent /\
                       ev <> EvAgentCall risk_management_agent)
            (trace (run_hedge_fund env tickers start_date end_date portfolio
                      show_reasoning selected_analysts model_name model_provider))) /\
  (forall sec name agent,
     result (secure_each env agents []) = inr sec ->
     (name, agent) ∈ agents ->
     exists conn,
       connection_for env name agent = inr conn /\
       EvSecureConnect agent (conn_name conn) ∈ trace (secure_wrap_agents env client) /\
       EvVerifyIdentity conn ∈ trace (secure_wrap_agents env client)) /\
  (forall secured name agent,
     result (secure_wrap_agents env client) = inr secured ->
     (name, agent) ∈ agents ->
     exists conn,
       connection_for env name agent = inr conn /\
       verify_identity env conn = inr true /\
       EvSecureConnect agent (conn_name conn) ∈ trace (secure_wrap_agents env client) /\
       EvVerifyIdentity conn ∈ trace (secure_wrap_agents env client)) /\
  ("portfolio", portfolio_management_agent) ∈ agents /\
  ("risk", risk_management_agent) ∈ agents /\
  (forall name agent conn,
     (name, agent) ∈ [("portfolio", portfolio_management_agent);
                      ("risk", risk_management_agent)] ->
     connection_for env name agent = inr conn ->
     verify_identity env conn = inr false ->
     exists e, result (secure_wrap_agents env client) = inl e).
Proof.
  destruct unused_agents_not_wired as [Hp Hr].
  split_and!.
  - intros sel secured wf k f Hs Hwf Hin.
    destruct (workflow_nodes_wiring _ _ _ _ _ _ _ Hs Hwf Hin)
      as [[_ ->]|(_ & a & Ha & conn & -> & <-)]; [done|].
    simpl. split; intros [= Heq]; [apply Hp|apply Hr]; rewrite <- Heq;
      apply list_elem_of_fmap; by exists (k, _agent conn).
  - intros. eapply Forall_impl; [apply run_hedge_fund_only|].
    intros ev Hev. split; intros ->; simpl in Hev; done.
  - intros. by eapply secure_wrap_agents_requests.
  - intros. by eapply secure_wrap_agents_verifies.
  - by apply (bool_decide_unpack _).
  - by apply (bool_decide_unpack _).
  - intros name agent conn Hin Hconn Hdenied. apply rejected_securing_fails.
    exists name, agent, conn. split_and!; [|done..].
    apply elem_of_cons in Hin as [[= -> ->]|Hin];
      [by apply (bool_decide_unpack _)|].
    apply list_elem_of_singleton in Hin as [= -> ->].
    by apply (bool_decide_unpack _).
Qed.

(** With answering collaborators the securing phase succeeds, so the
    theorem applies: the portfolio agent was registered and verified. *)
Example gate_covers_portfolio_agent :
  result (secure_wrap_agents Scenario.all_good Scenario.client)
  = inr Scenario.secured_agents /\
  EvVerifyIdentity (mkConn "portfolio-analyst" "aztp://portfolio-analyst"
                           portfolio_management_agent)
  ∈ trace (secure_wrap_agents Scenario.all_good Scenario.client).
Proof. split; [reflexivity|]. by apply (bool_decide_unpack _). Qed.

(** ** Requests that the builder refuses *)

Lemma keys_selected_nodes an sel :
  keys (selected_nodes an sel) = filter (fun k => is_Some (dict_get an k)) sel.
Proof.
  induction sel as [|k sel IH]; [done|].
  unfold selected_nodes, keys in *. simpl.
  destruct (dict_get an k) as [f|] eqn:Ek; simpl.
  - rewrite filter_cons_True by (by rewrite Ek). simpl. f_equal. exact IH.
  - rewrite filter_cons_False by (rewrite Ek; by intros []). exact IH.
Qed.



Lemma keys_secured_nodes env client secured an :
  result (secure_wrap_agents env client) = inr secured ->
  get_analyst_nodes (Some secured) = inr an ->
  keys an = keys ANALYST_CONFIG.
Proof.
  intros (an' & Han & Hwire)%secured_nodes_wiring Han'.
  rewrite Han in Han'. injection Han' as ->.
  change (keys ANALYST_CONFIG) with (keys analyst_wiring).
  clear Han. induction Hwire as [|item node items an' [Hk _] _ IH]; [done|].
  unfold keys in *. simpl. by rewrite Hk, IH.
Qed.


Section BuildFailure.

Context (env : Env).
Context (tickers : list string) (start_date end_date : string) (portfolio : json).
Context (show_reasoning : bool) (model_name model_provider : string).

Local Abbreviation run_with selected_analysts :=
  (run_hedge_fund env tickers start_date end_date portfolio show_reasoning
     selected_analysts model_name model_provider).

(** A selection whose graph cannot be built or compiled: the run has
    secured all nine agents, reports the error and returns [None], and
    nothing was invoked. *)
Lemma run_hedge_fund_build_fails client secured (selected_analysts : list string) :
  securing_succeeds env client secured ->
  selected_analysts <> [] ->
  (forall c, result (workflow <- create_workflow selected_analysts secured ;;
                     compile workflow) <> inr c) ->
  result (run_with selected_analysts) = inr None /\
  only before_execution (run_with selected_analysts) /\
  (forall name agent, (name, agent) ∈ agents ->
     exists label, EvSecureConnect agent label ∈ trace (run_with selected_analysts)).
Proof.
  intros (api_key & Hkey & Hne & Hinit & Hs) Hsel Hfail.
  unfold run_hedge_fund. rewrite Hkey.
  destruct api_key as [|c0 api_key]; [done|]. rewrite Hinit.
  destruct selected_analysts as [|k0 sel]; [done|].
  set (selected := k0 :: sel) in *.
  split_and!.
  - rewrite result_catch, result_bind, Hs, result_bind, result_emit, result_finally.
    rewrite result_bind.
    destruct (result (create_workflow selected secured)) as [e|wf] eqn:Ewf.
    { apply on_exception_bound. }
    rewrite result_bind.
    destruct (result (compile wf)) as [e|c] eqn:Ec; [apply on_exception_bound|].
    exfalso. apply (Hfail c). by rewrite result_bind, Ewf.
  - apply only_catch.
    2:{ intros. eapply only_weaken; [|apply on_exception_only]. by intros []. }
    apply only_bind.
    { eapply only_weaken; [|apply secure_wrap_agents_only]. by intros []. }
    intros secured' Hs'. rewrite Hs in Hs'. injection Hs' as <-.
    apply only_bind; [by apply only_emit|]. intros _ _.
    apply only_finally; [|by repeat constructor].
    apply only_bind.
    { eapply only_weaken; [|apply create_workflow_only]. by intros ev ->. }
    intros wf Hwf. apply only_bind.
    { unfold compile. apply only_bind; [by apply only_emit|]. intros _ _.
      apply only_bind; [apply only_lift|]. intros _ _. apply only_ret. }
    intros c Hc. exfalso. apply (Hfail c). by rewrite result_bind, Hwf.
  - intros name agent Hin.
    destruct (secure_wrap_agents_verifies _ _ _ _ _ Hs Hin) as (conn & _ & _ & Hev & _).
    exists (conn_name conn).
    rewrite trace_catch, !trace_bind, Hs.
    match goal with |- _ ∈ match ?r with inl _ => _ | inr _ => _ end =>
      destruct r end.
    + apply elem_of_app. left. apply elem_of_app. by left.
    + apply elem_of_app. by left.
Qed.

End BuildFailure.

Lemma all_good_securing_succeeds :
  securing_succeeds Scenario.all_good Scenario.client Scenario.secured_agents.
Proof. exists "secret". split_and!; [reflexivity|discriminate|reflexivity|reflexivity]. Defined.




(** ** Keys outside the analyst catalog *)

Lemma find_is_Some {A} (f : A -> bool) (l : list A) x :
  x ∈ l -> f x = true -> exists y, List.find f l = Some y.
Proof.
  induction l as [|a l IH]; [by intros ?%elem_of_nil|].
  intros [->|Hin]%elem_of_cons Hx; simpl.
  - rewrite Hx. by eauto.
  - destruct (f a); [by eauto|by apply IH].
Qed.

Lemma find_is_None {A} (f : A -> bool) (l : list A) :
  Forall (fun x => f x = false) l -> List.find f l = None.
Proof. induction 1 as [|a l Ha _ IH]; simpl; [done|]. by rewrite Ha. Qed.

Lemma validate_unknown_source wf e :
  e ∈ edges wf -> known_source wf e = false ->
  exists msg, validate wf = inl (ValueError msg).
Proof.
  intros Hin Hsrc. unfold validate.
  destruct (find_is_Some (fun e => negb (known_source wf e)) (elements (edges wf)) e)
    as [e' ->]; [by apply elem_of_elements|by rewrite Hsrc|by eauto].
Qed.

Lemma validate_inl wf e : validate wf = inl e -> is_ValueError e.
Proof.
  unfold validate. destruct (List.find _ _); [by intros [= <-]|].
  destruct (negb _); [by intros [= <-]|].
  destruct (List.find _ _); [by intros [= <-]|done].
Qed.

Lemma create_workflow_inl sel secured an e :
  get_analyst_nodes (Some secured) = inr an ->
  result (create_workflow sel secured) = inl e -> is_ValueError e.
Proof.
  intros Han. unfold create_workflow, LangGraph.new. run. rewrite Han. run. simpl. run.
  change (add_node (mkGraph [] ∅) "START" start_node)
    with (@inr exn _ (mkGraph [("START", start_node)] ∅)).
  run.
  destruct (add_analyst_nodes sel (head sel) an _) as [e1|wf1] eqn:E1.
  { intros [= <-]. by eapply add_analyst_nodes_inl. }
  run. destruct (add_sequence_edges sel wf1) as [e2|wf2] eqn:E2.
  { intros [= <-]. by eapply add_sequence_edges_inl. }
  run. destruct (match last sel with
                 | Some k => add_edge wf2 k END
                 | None => inr wf2
                 end) as [e3|wf3] eqn:E3.
  { intros [= <-]. destruct (last sel); [by eapply add_edge_inl|done]. }
  run. unfold set_entry_point. by apply add_edge_inl.
Qed.

(** A selected key that is neither in the catalog nor the name of the
    start node has no node in the workflow, but is the source of one of
    its edges: [compile] refuses the workflow. *)
Lemma unknown_key_not_compiled env client secured sel k wf :
  result (secure_wrap_agents env client) = inr secured ->
  result (create_workflow sel secured) = inr wf ->
  k ∈ sel -> k ∉ keys ANALYST_CONFIG -> k <> "START" -> k <> START ->
  (k ∉ keys (nodes wf)) /\ exists msg, result (compile wf) = inl (ValueError msg).
Proof.
  intros Hs (an & Han & Hnodes & Hedges & _)%create_workflow_inr Hk Hcat Hns Hnst.
  pose proof (keys_secured_nodes _ _ _ _ Hs Han) as Hkeys.
  assert (k ∉ keys (nodes wf)) as Hnode.
  { rewrite Hnodes. simpl. apply not_elem_of_cons. split; [done|].
    rewrite keys_selected_nodes. intros [Hknown _]%list_elem_of_filter.
    apply Hcat. rewrite <- Hkeys. destruct Hknown as [f Hf].
    by eapply dict_get_Some_keys. }
  split; [done|].
  assert (exists b, (k, b) ∈ edges wf) as [b Hb].
  { destruct (selected_is_source _ _ Hk) as [Hlast|[b Hb]].
    - exists END. apply Hedges. right. left. by exists k.
    - exists b. apply Hedges. by do 2 right; left. }
  destruct (validate_unknown_source wf (k, b) Hb) as [msg Hmsg].
  { unfold known_source. simpl. apply orb_false_intro.
    - by apply dict_mem_false_keys.
    - by apply bool_decide_eq_false_2. }
  exists msg. unfold compile. run. by rewrite Hmsg.
Qed.

(** C5, as stated, fails: for a key outside the catalog nothing fails
    before the construction of the graph.  The graph is created first,
    the key is then skipped when the nodes are added, and
    [create_workflow] returns a workflow. *)
Lemma unknown_key_silently_skipped :
  ~ (forall secured selected_analysts k,
       k ∈ selected_analysts -> k ∉ keys ANALYST_CONFIG ->
       (exists e, result (create_workflow selected_analysts secured) = inl e) /\
       EvStateGraph ∉ trace (create_workflow selected_analysts secured)).
Proof.
  intros H.
  destruct (H Scenario.secured_agents ["nope"] "nope") as [_ Hnone].
  - by left.
  - by apply (bool_decide_unpack _).
  - apply Hnone. by apply (bool_decide_unpack _).
Qed.

(** The workflow that [create_workflow] returns for the one unknown key:
    the start node alone, the entry edge and the edge from the unknown key
    to the end marker. *)
Example unknown_key_workflow :
  result (create_workflow ["nope"] Scenario.secured_agents)
  = inr (mkGraph [("START", start_node)] {[ (START, "START"); ("nope", END) ]}).
Proof. by vm_compute. Qed.

(** C5, amended: a selected key outside the analyst catalog (and other
    than the node names [START] and [__start__]) is skipped without an
    error when the nodes are added, so the workflow has no node for it;
    the build then fails with a [ValueError] of the graph library, at the
    latest when the workflow is compiled, after the construction of the
    graph has begun and before it is invoked or any agent called, and the
    run returns [None].  When one of the seven agent keys that
    [get_analyst_nodes] reads is absent from the secured agents,
    [create_workflow] raises [KeyError] before the graph is created,
    whatever the selection. *)
Theorem unknown_key_fails_at_build (env : Env)
    (tickers : list string) (start_date end_date : string) (portfolio : json)
    (show_reasoning : bool) (model_name model_provider : string)
    (client : Aztp) (secured : dict callable) (selected_analysts : list string) :
  (forall k,
     securing_succeeds env client secured ->
     k ∈ selected_analysts ->
     k ∉ keys ANALYST_CONFIG -> k <> "START" -> k <> START ->
     (forall wf, result (create_workflow selected_analysts secured) = inr wf ->
        (k ∉ keys (nodes wf)) /\
        exists msg, result (compile wf) = inl (ValueError msg)) /\
     (forall e, result (create_workflow selected_analysts secured) = inl e ->
        is_ValueError e) /\
     EvStateGraph ∈ trace (create_workflow selected_analysts secured) /\
     result (run_hedge_fund env tickers start_date end_date portfolio show_reasoning
               selected_analysts model_name model_provider) = inr None /\
     only before_execution
          (run_hedge_fund env tickers start_date end_date portfolio show_reasoning
             selected_analysts model_name model_provider)) /\
  (forall others name,
     name ∈ map (fun item : string * AnalystInfo => key item.2) ANALYST_CONFIG ->
     dict_get others name = None ->
     exists missing,
       create_workflow selected_analysts others = (inl (KeyError missing), [])).
Proof.
  split.
  - intros k Hsec Hk Hcat Hns Hnst.
    pose proof Hsec as (? & _ & _ & _ & Hs).
    destruct (secured_nodes_wiring _ _ _ Hs) as (an & Han & _).
    assert (forall wf, result (create_workflow selected_analysts secured) = inr wf ->
              (k ∉ keys (nodes wf)) /\
              exists msg, result (compile wf) = inl (ValueError msg)) as Hcompile.
    { intros wf Hwf. by eapply unknown_key_not_compiled. }
    split_and!; [done| | | |].
    + intros e. by apply create_workflow_inl with an.
    + unfold create_workflow, LangGraph.new. run. rewrite Han. run. simpl. by left.
    + eapply (run_hedge_fund_build_fails _ _ _ _ _ _ _ _ client secured); [done| |].
      * by destruct selected_analysts; [apply elem_of_nil in Hk|].
      * intros c. rewrite result_bind.
        destruct (result (create_workflow selected_analysts secured)) as [e|wf] eqn:E;
          [done|].
        destruct (Hcompile wf eq_refl) as [_ [msg ->]]. done.
    + eapply (run_hedge_fund_build_fails _ _ _ _ _ _ _ _ client secured); [done| |].
      * by destruct selected_analysts; [apply elem_of_nil in Hk|].
      * intros c. rewrite result_bind.
        destruct (result (create_workflow selected_analysts secured)) as [e|wf] eqn:E;
          [done|].
        destruct (Hcompile wf eq_refl) as [_ [msg ->]]. done.
  - intros others name Hname Hnone. unfold create_workflow.
    assert (exists missing, get_analyst_nodes (Some others) = inl (KeyError missing))
      as [missing ->]; [|by exists missing].
    unfold get_analyst_nodes, dict_index.
    repeat match goal with
           | |- context [dict_get others ?n] =>
               destruct (dict_get others n) eqn:?; [|by eauto]
           end.
    exfalso. simpl in Hname.
    repeat (apply elem_of_cons in Hname as [->|Hname]; [congruence|]).
    by apply elem_of_nil in Hname.
Qed.

(** The theorem at the selection [nope], and at the selection
    [ben_graham] when the secured agents lack the key [technicals]. *)
Lemma unknown_key_fails_at_build_witness :
  ((forall wf, result (create_workflow ["nope"] Scenario.secured_agents) = inr wf ->
      ("nope" ∉ keys (nodes wf)) /\
      exists msg, result (compile wf) = inl (ValueError msg)) /\
   result (Scenario.run Scenario.all_good ["nope"]) = inr None) /\
  (exists missing,
     create_workflow ["ben_graham"]
       (List.filter (fun item : string * callable => negb (String.eqb item.1 "technicals"))
                    Scenario.secured_agents)
     = (inl (KeyError missing), [])).
Proof.
  split.
  - destruct (unknown_key_fails_at_build Scenario.all_good
                ["AAPL"] "2024-01-01" "2024-04-01" (JObject []) false "gpt-4" "OpenAI"
                Scenario.client Scenario.secured_agents ["nope"]) as [H _].
    destruct (H "nope") as (H1 & _ & _ & H2 & _).
    + exact all_good_securing_succeeds.
    + by left.
    + by apply (bool_decide_unpack _).
    + discriminate.
    + discriminate.
    + split; [exact H1|exact H2].
  - destruct (unknown_key_fails_at_build Scenario.all_good
                ["AAPL"] "2024-01-01" "2024-04-01" (JObject []) false "gpt-4" "OpenAI"
                Scenario.client Scenario.secured_agents ["ben_graham"]) as [_ H].
    apply (H _ "technicals").
    + by apply (bool_decide_unpack _).
    + reflexivity.
Defined.

(** ** Running a chain *)

Lemma get_analyst_nodes_keys secured an :
  get_analyst_nodes (Some secured) = inr an -> keys an = keys ANALYST_CONFIG.
Proof.
  unfold get_analyst_nodes.
  repeat match goal with
         | |- context [dict_index secured ?n] => destruct (dict_index secured n); [done|]
         end.
  by intros [= <-].
Qed.

Lemma selected_nodes_cons an a sel :
  selected_nodes an (a :: sel)
  = match dict_get an a with
    | Some f => (a, f) :: selected_nodes an sel
    | None => selected_nodes an sel
    end.
Proof. unfold selected_nodes. simpl. by destruct (dict_get an a). Qed.

Lemma dict_get_selected_nodes an sel k :
  dict_get (selected_nodes an sel) k = if decide (k ∈ sel) then dict_get an k else None.
Proof.
  induction sel as [|a sel IH].
  { rewrite decide_False; [done|apply not_elem_of_nil]. }
  rewrite selected_nodes_cons.
  destruct (dict_get an a) as [f|] eqn:Ea; simpl.
  - destruct (decide (a = k)) as [->|Hne].
    + rewrite decide_True by (by left). done.
    + rewrite IH. destruct (decide (k ∈ sel)) as [Hin|Hnin].
      * rewrite decide_True by (by right). done.
      * rewrite decide_False; [done|]. by intros [->|?]%elem_of_cons.
  - rewrite IH. destruct (decide (k ∈ sel)) as [Hin|Hnin].
    + rewrite decide_True by (by right). done.
    + destruct (decide (k ∈ a :: sel)) as [[->|?]%elem_of_cons|]; done.
Qed.

Lemma successors_singleton g cur next :
  (forall e, e ∈ edges g -> e.1 = cur -> e.2 = next) ->
  (cur, next) ∈ edges g ->
  successors g cur = [next].
Proof.
  intros Honly Hin. unfold successors.
  assert (set_map snd (filter (fun e : string * string => e.1 = cur) (edges g))
          = ({[ next ]} : gset string)) as ->; [|apply elements_singleton].
  apply set_eq. intros x. rewrite elem_of_map, elem_of_singleton. split.
  - intros (e & -> & [He Hedge]%elem_of_filter). by apply Honly.
  - intros ->. exists (cur, next). split; [done|]. by apply elem_of_filter.
Qed.

Section Chain.

Context (env : Env) (g : StateGraph) (an : dict callable) (sel : list string).

Hypothesis Hnodes : nodes g = ("START", start_node) :: selected_nodes an sel.
Hypothesis Hedges : forall e,
  e ∈ edges g <->
  e = (START, "START") \/
  (exists k, last sel = Some k /\ e = (k, END)) \/
  e ∈ zip sel (tail sel) \/
  (exists k, e = ("START", k) /\ head sel = Some k /\ is_Some (dict_get an k)).
Hypothesis Hdistinct : NoDup sel.
Hypothesis Hknown : forall k, k ∈ sel -> is_Some (dict_get an k).
Hypothesis Hnames : forall k, k ∈ sel -> k <> "START" /\ k <> START /\ k <> END.
Hypothesis Hwrites : forall k f, dict_get an k = Some f -> writes_own_entry env k f.

Lemma chain_edge_indices a b :
  (a, b) ∈ zip sel (tail sel) <-> exists i, sel !! i = Some a /\ sel !! S i = Some b.
Proof.
  split.
  - intros (i & x & y & [= -> ->] & Hx & Hy)%elem_of_lookup_zip_with_1.
    exists i. by rewrite <- lookup_tail.
  - intros (i & Ha & Hb).
    apply (elem_of_lookup_zip_with_2 pair sel (tail sel) a b (a, b) i); [done|].
    by rewrite lookup_tail.
Qed.

Lemma chain_successor i k :
  sel !! i = Some k -> successors g k = [default END (sel !! S i)].
Proof.
  intros Hi.
  assert (k ∈ sel) as Hk by (apply list_elem_of_lookup; eauto).
  destruct (Hnames k Hk) as (Hns & Hnst & _).
  apply successors_singleton.
  - intros [a b] Hin Ha. simpl in *. subst a.
    apply Hedges in Hin as [[= ? _]|[(k' & Hlast & [= <- ->])|[Hin|(k' & [= ? _] & _)]]];
      [done| | |done].
    + rewrite last_lookup in Hlast.
      rewrite <- (NoDup_lookup _ _ _ _ Hdistinct Hlast Hi).
      destruct sel as [|k0 rest]; [done|]. simpl.
      by rewrite (lookup_ge_None_2 rest (List.length rest)) by lia.
    + apply chain_edge_indices in Hin as (j & Hj & Hb).
      rewrite (NoDup_lookup _ _ _ _ Hdistinct Hi Hj). by rewrite Hb.
  - apply Hedges. destruct (sel !! S i) as [b|] eqn:Hb; simpl.
    + do 2 right. left. apply chain_edge_indices. by exists i.
    + right. left. exists k. split; [|done].
      rewrite last_lookup. apply lookup_ge_None_1 in Hb.
      apply lookup_lt_Some in Hi as Hlt.
      replace (pred (List.length sel)) with i by lia. done.
Qed.

Lemma chain_entry : successors g START = ["START"].
Proof.
  apply successors_singleton; [|apply Hedges; by left].
  intros [a b] Hin Ha. simpl in *. subst a.
  apply Hedges in Hin as [[= ->]|[(k' & Hlast & [= <- _])|[Hin|(k' & [=] & _)]]];
    [done| |].
  - rewrite last_lookup in Hlast.
    assert (START ∈ sel) as Hin by (apply list_elem_of_lookup; eauto).
    by destruct (Hnames _ Hin) as (_ & ? & _).
  - apply elem_of_zip_l in Hin. by destruct (Hnames _ Hin) as (_ & ? & _).
Qed.

Lemma chain_first k0 : head sel = Some k0 -> successors g "START" = [k0].
Proof.
  intros Hhead.
  assert (k0 ∈ sel) as Hk0 by (destruct sel; [done|]; injection Hhead as ->; by left).
  apply successors_singleton.
  - intros [a b] Hin Ha. simpl in *. subst a.
    apply Hedges in Hin as [[=]|[(k' & Hlast & [= <- _])|[Hin|(k' & [= ->] & Hh & _)]]];
      [| |congruence].
    + rewrite last_lookup in Hlast.
      assert ("START" ∈ sel) as Hin by (apply list_elem_of_lookup; eauto).
      by destruct (Hnames _ Hin) as (? & _).
    + apply elem_of_zip_l in Hin. by destruct (Hnames _ Hin) as (? & _).
  - apply Hedges. do 3 right. exists k0. split_and!; [done..|]. by apply Hknown.
Qed.

Lemma chain_node k : k ∈ sel -> dict_get (nodes g) k = dict_get an k.
Proof.
  intros Hk. rewrite Hnodes. simpl.
  destruct (Hnames k Hk) as (Hns & _).
  rewrite decide_False by done. rewrite dict_get_selected_nodes.
  by rewrite decide_True.
Qed.

(** From the node at position [i], the chain runs to its end and adds the
    keys of the remaining nodes. *)
Lemma run_chain n : forall i k state fuel,
  sel !! i = Some k -> List.length sel = i + S n -> n < fuel ->
  exists final,
    result (run_from env fuel g k state) = inr final /\
    dom (analyst_signals (data final))
    = list_to_set (drop i sel) ∪ dom (analyst_signals (data state)).
Proof.
  induction n as [|n IH]; intros i k state fuel Hi Hlen Hfuel;
    (destruct fuel as [|fuel]; [lia|]);
    assert (k ∈ sel) as Hk by (apply list_elem_of_lookup; eauto);
    destruct (Hknown k Hk) as [f Hf];
    destruct (Hwrites k f Hf state) as (state' & Hcall & Hdom);
    simpl; run; unfold dict_index; rewrite (chain_node k Hk), Hf; run;
    rewrite Hcall, (chain_successor i k Hi), (drop_S _ _ _ Hi).
  - rewrite lookup_ge_None_2 by lia. simpl. exists state'. split; [done|].
    rewrite drop_ge by lia. rewrite Hdom. set_solver.
  - destruct (sel !! S i) as [k'|] eqn:Hi'.
    2:{ apply lookup_ge_None_1 in Hi'. lia. }
    simpl.
    assert (k' ∈ sel) as Hk' by (apply list_elem_of_lookup; eauto).
    destruct (Hnames k' Hk') as (_ & _ & Hne).
    rewrite bool_decide_eq_false_2 by done.
    destruct (IH (S i) k' state' fuel Hi') as (final & Hrun & Hfinal); [lia..|].
    exists final. split; [done|]. rewrite Hfinal, Hdom. simpl. set_solver.
Qed.

Lemma chain_has_node k : k ∈ sel -> dict_mem (nodes g) k = true.
Proof.
  intros Hk. unfold dict_mem. apply bool_decide_eq_true.
  rewrite (chain_node k Hk). by apply Hknown.
Qed.

Lemma chain_has_start : dict_mem (nodes g) "START" = true.
Proof. by rewrite Hnodes. Qed.

Lemma chain_validates : validate g = inr tt.
Proof.
  unfold validate.
  rewrite find_is_None; [rewrite bool_decide_eq_true_2; [rewrite find_is_None|]|].
  - done.
  - apply Forall_forall. intros [a b] Hin%elem_of_elements.
    apply negb_false_iff, orb_true_iff. unfold known_target. simpl.
    apply Hedges in Hin as [[= -> ->]|[(k & _ & [= -> ->])|[Hin|(k & [= -> ->] & Hh & _)]]].
    + left. apply chain_has_start.
    + right. by apply bool_decide_eq_true.
    + left. apply chain_has_node. apply elem_of_zip_r in Hin.
      destruct sel; [done|]. by right.
    + left. apply chain_has_node. destruct sel; [done|]. injection Hh as ->. by left.
  - exists (START, "START"). split; [|done]. apply Hedges. by left.
  - apply Forall_forall. intros [a b] Hin%elem_of_elements.
    apply negb_false_iff, orb_true_iff. unfold known_source. simpl.
    apply Hedges in Hin as [[= -> ->]|[(k & Hl & [= -> ->])|[Hin|(k & [= -> ->] & _)]]].
    + right. by apply bool_decide_eq_true.
    + left. apply chain_has_node. rewrite last_lookup in Hl.
      apply list_elem_of_lookup. by eauto.
    + left. apply chain_has_node. by apply elem_of_zip_l in Hin.
    + left. apply chain_has_start.
Qed.

(** Invoking the compiled chain runs every selected node once. *)
Lemma invoke_chain state :
  sel <> [] -> List.length sel < recursion_limit ->
  exists final,
    result (invoke env (mkCompiled g) state) = inr final /\
    dom (analyst_signals (data final))
    = list_to_set sel ∪ dom (analyst_signals (data state)).
Proof.
  intros Hne Hlen.
  assert (exists k0, head sel = Some k0) as [k0 Hhead].
  { clear -Hne. destruct sel; [done|by eauto]. }
  assert (sel !! 0 = Some k0) as H0 by (by rewrite <- head_lookup).
  assert (k0 ∈ sel) as Hk0 by (apply list_elem_of_lookup; eauto).
  destruct (Hnames k0 Hk0) as (_ & _ & Hend).
  unfold invoke. run. cbn [builder]. rewrite chain_entry.
  rewrite bool_decide_eq_false_2 by done.
  change recursion_limit with (S 24) in Hlen |- *.
  cbn [run_from]. run. unfold dict_index.
  assert (dict_get (nodes g) "START" = Some start_node) as -> by (by rewrite Hnodes).
  run. cbn [call]. run. rewrite (chain_first k0) by done.
  rewrite bool_decide_eq_false_2 by done.
  apply lookup_lt_Some in H0 as Hpos.
  destruct (run_chain (pred (List.length sel)) 0 k0 state 24 H0)
    as (final & Hrun & Hfinal); [lia..|].
  exists final. split; [done|]. by rewrite Hfinal.
Qed.

End Chain.

Lemma add_analyst_nodes_ok sel first an wf :
  NoDup sel ->
  (forall k, k ∈ sel -> is_Some (dict_get an k) /\ k <> START /\ k <> END /\
                        k ∉ keys (nodes wf)) ->
  exists wf', add_analyst_nodes sel first an wf = inr wf'.
Proof.
  revert wf. induction sel as [|k sel IH]; intros wf Hnd Hsel; simpl; [by eauto|].
  apply NoDup_cons in Hnd as [Hk Hnd].
  destruct (Hsel k) as ([f Hf] & Hs & He & Hfresh); [by left|].
  rewrite Hf. unfold add_node at 1.
  apply dict_mem_false_keys in Hfresh. rewrite Hfresh.
  rewrite bool_decide_eq_false_2 by (by intros [|]).
  assert (forall wf1, nodes wf1 = nodes wf ++ [(k, f)] ->
            exists wf', add_analyst_nodes sel first an wf1 = inr wf') as Hrest.
  { intros wf1 Hn1. apply IH; [done|]. intros k' Hk'.
    destruct (Hsel k') as (? & ? & ? & Hfresh'); [by right|].
    split_and!; [done..|]. rewrite Hn1. unfold keys. rewrite map_app. simpl.
    intros [?|Heq%list_elem_of_singleton]%elem_of_app; [done|].
    simpl in Heq. by subst. }
  case_bool_decide.
  - rewrite add_edge_ok by done. by apply Hrest.
  - by apply Hrest.
Qed.

Lemma add_sequence_edges_ok sel wf :
  (forall k, k ∈ sel -> k <> START /\ k <> END) ->
  exists wf', add_sequence_edges sel wf = inr wf'.
Proof.
  revert wf. induction sel as [|a [|b sel] IH]; intros wf Hsel; [by eexists..|].
  change (add_sequence_edges (a :: b :: sel) wf)
    with (match add_edge wf a b with
          | inl e => inl e
          | inr wf1 => add_sequence_edges (b :: sel) wf1
          end).
  rewrite add_edge_ok.
  - apply IH. intros k Hk. apply Hsel. by right.
  - apply Hsel. by left.
  - apply Hsel. right. by left.
Qed.

Lemma create_workflow_ok sel secured an :
  get_analyst_nodes (Some secured) = inr an ->
  NoDup sel ->
  (forall k, k ∈ sel -> is_Some (dict_get an k) /\ k <> "START" /\ k <> START /\
                        k <> END) ->
  exists wf, result (create_workflow sel secured) = inr wf.
Proof.
  intros Han Hnd Hsel. unfold create_workflow, LangGraph.new. run. rewrite Han.
  run. simpl. run.
  change (add_node (mkGraph [] ∅) "START" start_node)
    with (@inr exn _ (mkGraph [("START", start_node)] ∅)).
  run.
  destruct (add_analyst_nodes_ok sel (head sel) an (mkGraph [("START", start_node)] ∅))
    as [wf1 ->]; [done| |].
  { intros k Hk. destruct (Hsel k Hk) as (? & ? & ? & ?). split_and!; [done..|].
    simpl. by intros ->%list_elem_of_singleton. }
  run. destruct (add_sequence_edges_ok sel wf1) as [wf2 ->].
  { intros k Hk. by destruct (Hsel k Hk) as (? & ? & ? & ?). }
  run. destruct (last sel) as [k|] eqn:Hlast.
  - assert (k ∈ sel) as Hk.
    { rewrite last_lookup in Hlast. apply list_elem_of_lookup. by eauto. }
    destruct (Hsel k Hk) as (_ & _ & _ & He).
    rewrite add_edge_ok by done. run. unfold set_entry_point.
    rewrite add_edge_ok by done. by eauto.
  - run. unfold set_entry_point. rewrite add_edge_ok by done. by eauto.
Qed.

(** ** The signals of a run *)

Lemma catalog_names k :
  k ∈ keys ANALYST_CONFIG -> k <> "START" /\ k <> START /\ k <> END.
Proof.
  intros Hk. split_and!; intros ->; revert Hk; by apply (bool_decide_unpack _).
Qed.

Lemma all_good_writes k f :
  dict_get Scenario.analyst_nodes k = Some f ->
  writes_own_entry Scenario.all_good k f.
Proof.
  unfold Scenario.analyst_nodes. simpl.
  repeat (case_decide; [subst; intros [= <-]; intros state; eexists;
                        split; [reflexivity|]; simpl; apply dom_insert_L|]).
  done.
Defined.

(** C2, as stated, fails: a list that names an analyst twice is a
    non-empty list of registered keys, and its pipeline is not built. *)
Lemma repeated_selection_has_no_final_state :
  ~ (forall env secured an selected_analysts state,
       get_analyst_nodes (Some secured) = inr an ->
       (forall k f, dict_get an k = Some f -> writes_own_entry env k f) ->
       selected_analysts <> [] ->
       (forall k, k ∈ selected_analysts -> k ∈ keys ANALYST_CONFIG) ->
       analyst_signals (data state) = ∅ ->
       exists final,
         result (workflow <- create_workflow selected_analysts secured ;;
                 agent <- compile workflow ;;
                 invoke env agent state) = inr final /\
         dom (analyst_signals (data final)) = list_to_set selected_analysts).
Proof.
  intros H.
  destruct (H Scenario.all_good Scenario.secured_agents Scenario.analyst_nodes
              ["ben_graham"; "ben_graham"] Scenario.state0)
    as (final & Hfinal & _).
  - reflexivity.
  - apply all_good_writes.
  - discriminate.
  - intros k [->|[->|[]%elem_of_nil]%elem_of_cons]%elem_of_cons;
      by apply (bool_decide_unpack _).
  - reflexivity.
  - by vm_compute in Hfinal.
Qed.

(** C2, amended: for a non-empty list of pairwise distinct keys of the
    analyst catalog, when each analyst node succeeds and adds exactly one
    entry under its own key, the pipeline built from the list runs to its
    end on a state without signals, and the keys of [analyst_signals] in
    the final state are exactly the keys of the list. *)
Theorem pipeline_signals_are_selection (env : Env) (secured an : dict callable)
    (selected_analysts : list string) (state : AgentState) :
  get_analyst_nodes (Some secured) = inr an ->
  (forall k f, dict_get an k = Some f -> writes_own_entry env k f) ->
  selected_analysts <> [] ->
  NoDup selected_analysts ->
  (forall k, k ∈ selected_analysts -> k ∈ keys ANALYST_CONFIG) ->
  analyst_signals (data state) = ∅ ->
  exists final,
    result (workflow <- create_workflow selected_analysts secured ;;
            agent <- compile workflow ;;
            invoke env agent state) = inr final /\
    dom (analyst_signals (data final)) = list_to_set selected_analysts.
Proof.
  intros Han Hwrites Hne Hnd Hcat Hempty.
  pose proof (get_analyst_nodes_keys _ _ Han) as Hkeys.
  assert (forall k, k ∈ selected_analysts -> is_Some (dict_get an k)) as Hknown.
  { intros k Hk. apply Hcat in Hk. rewrite <- Hkeys in Hk.
    apply dict_mem_keys in Hk. by apply bool_decide_eq_true in Hk. }
  assert (forall k, k ∈ selected_analysts -> k <> "START" /\ k <> START /\ k <> END)
    as Hnames.
  { intros k Hk. by apply catalog_names, Hcat. }
  assert (List.length selected_analysts < recursion_limit) as Hlen.
  { pose proof (submseteq_length _ _ (NoDup_submseteq _ _ Hnd Hcat)) as Hle.
    change (List.length (keys ANALYST_CONFIG)) with 7 in Hle.
    change recursion_limit with 25. lia. }
  destruct (create_workflow_ok selected_analysts secured an Han Hnd) as [wf Hwf].
  { intros k Hk. split; [by apply Hknown|by apply Hnames]. }
  pose proof Hwf as (an' & Han' & Hnodes & Hedges & _)%create_workflow_inr.
  rewrite Han in Han'. injection Han' as <-.
  destruct (invoke_chain env wf an selected_analysts Hnodes Hedges Hnd Hknown Hnames
              Hwrites state Hne Hlen) as (final & Hfinal & Hdom).
  exists final. split.
  - run. rewrite Hwf. unfold compile. run.
    assert (validate wf = inr tt) as -> by (eapply chain_validates; eassumption).
    run. exact Hfinal.
  - rewrite Hdom, Hempty. set_solver.
Qed.

Lemma pipeline_signals_are_selection_witness :
  exists final,
    result (workflow <- create_workflow ["ben_graham"; "valuation_analyst"]
                          Scenario.secured_agents ;;
            agent <- compile workflow ;;
            invoke Scenario.all_good agent Scenario.state0) = inr final /\
    dom (analyst_signals (data final))
    = list_to_set ["ben_graham"; "valuation_analyst"].
Proof.
  apply (pipeline_signals_are_selection Scenario.all_good Scenario.secured_agents
           Scenario.analyst_nodes ["ben_graham"; "valuation_analyst"] Scenario.state0).
  - reflexivity.
  - apply all_good_writes.
  - discriminate.
  - by apply (bool_decide_unpack _).
  - intros k [->|[->|[]%elem_of_nil]%elem_of_cons]%elem_of_cons;
      by apply (bool_decide_unpack _).
  - reflexivity.
Defined.


(** * Further properties *)

(** ** The outcome of the securing phase *)

Lemma secure_each_complete env items acc conns :
  NoDup (keys acc ++ keys items) ->
  Forall2 (fun item conn => connection_for env item.1 item.2 = inr conn) items conns ->
  result (secure_each env items acc) = inr (acc ++ zip_with secured_entry items conns).
Proof.
  intros Hnd Hall. revert acc Hnd.
  induction Hall as [|[name agent] conn items conns Hc _ IH]; intros acc Hnd; simpl.
  { run. by rewrite app_nil_r. }
  run. simpl in Hc. unfold connection_for in Hc.
  destruct (dict_index aztp_names name) as [e|aztp_name]; [done|]. run.
  rewrite Hc. run. unfold make_callable.
  assert (name ∉ keys acc) as Hfresh.
  { apply NoDup_app in Hnd as (_ & Hdisj & _). intros Hin.
    apply (Hdisj _ Hin). simpl. by left. }
  rewrite dict_set_fresh by done. rewrite IH.
  - by rewrite <- app_assoc.
  - unfold keys in *. rewrite map_app. simpl. by rewrite <- app_assoc.
Qed.

Lemma print_identities_result env (items : dict agent_fn) conns :
  List.length items = List.length conns ->
  result (for_each (zip_with secured_entry items conns) (print_identity env))
  = match collect (map (get_identity env) conns) with
    | inl e => inl e
    | inr _ => inr tt
    end.
Proof.
  revert conns. induction items as [|item items IH]; intros [|conn conns]; try done.
  intros [= Hlen]. simpl. unfold print_identity at 1. run. simpl. run.
  destruct (get_identity env conn) as [e|identity]; run; [done|].
  rewrite IH by done. by destruct (collect (map (get_identity env) conns)).
Qed.

(** Once the nine registrations have completed, the answers of the
    verifications and of the identity lookups decide the outcome. *)
Lemma secure_wrap_agents_outcome env client conns :
  Forall2 (fun item conn => connection_for env item.1 item.2 = inr conn) agents conns ->
  result (secure_wrap_agents env client)
  = match collect (map (verify_identity env) conns) with
    | inl e => inl e
    | inr valid =>
        if forallb id valid then
          match collect (map (get_identity env) conns) with
          | inl e => inl e
          | inr _ => inr (zip_with secured_entry agents conns)
          end
        else inl (ValueError "Agent verification failed")
    end.
Proof.
  intros Hall. unfold secure_wrap_agents. run.
  rewrite (secure_each_complete env agents [] conns) by (done || apply agents_NoDup).
  rewrite !app_nil_l. run. rewrite cells_of_secured by (by eapply Forall2_length).
  run. unfold gather_verify at 1. unfold result at 1. cbn [fst].
  destruct (collect (map (verify_identity env) conns)) as [e|valid]; [done|].
  destruct (forallb id valid); cbn [negb]; run; [|done].
  rewrite print_identities_result by (by eapply Forall2_length).
  by destruct (collect (map (get_identity env) conns)); run.
Qed.

Lemma collect_all_inr {A B} (f : A -> exn + B) (xs : list A) :
  (exists ys, collect (map f xs) = inr ys) <-> Forall (fun x => exists y, f x = inr y) xs.
Proof.
  induction xs as [|x xs IH]; simpl.
  - split; [constructor|by eauto].
  - destruct (f x) as [e|y] eqn:Ex.
    + split; [by intros [? ?]|]. intros [[y Hy] _]%Forall_cons. congruence.
    + split.
      * intros [ys Hys]. constructor; [by eauto|]. apply IH.
        destruct (collect (map f xs)); [done|by eauto].
      * intros [_ Hxs]%Forall_cons. apply IH in Hxs as [ys ->]. by eauto.
Qed.

(** X1: The securing phase succeeds exactly when every registration
    completes, every verification answers [True] and every identity
    lookup answers; it then returns one wrapped connection per entry of
    [agents], under the same keys and in the same order. *)
Theorem secure_wrap_agents_succeeds_iff (env : Env) (client : Aztp)
    (secured : dict callable) :
  result (secure_wrap_agents env client) = inr secured <->
  exists conns,
    Forall2 (fun item conn => connection_for env item.1 item.2 = inr conn) agents conns /\
    Forall (fun conn => verify_identity env conn = inr true /\
                        exists identity, get_identity env conn = inr identity) conns /\
    secured = zip_with secured_entry agents conns.
Proof.
  split.
  - intros Hres.
    destruct (secure_wrap_agents_result _ _ _ Hres) as (conns & Hall & Hvalid & ->).
    exists conns. split_and!; [done| |done].
    rewrite (secure_wrap_agents_outcome _ _ _ Hall) in Hres.
    destruct (collect (map (verify_identity env) conns)) as [e|valid]; [done|].
    destruct (forallb id valid); [|done].
    destruct (collect (map (get_identity env) conns)) as [e|ids] eqn:Eids; [done|].
    assert (Forall (fun c => exists y, get_identity env c = inr y) conns) as Hids.
    { apply collect_all_inr. by eauto. }
    rewrite Forall_forall in Hvalid, Hids. apply Forall_forall. intros c Hc.
    split; [by apply Hvalid|by apply Hids].
  - intros (conns & Hall & Hok & ->).
    rewrite (secure_wrap_agents_outcome _ _ _ Hall).
    assert (collect (map (verify_identity env) conns)
            = inr (map (fun _ => true) conns)) as ->.
    { apply collect_inr. rewrite <- list_fmap_compose. apply list_fmap_ext.
      intros i c Hc. simpl. rewrite Forall_forall in Hok.
      apply list_elem_of_lookup_2 in Hc. by destruct (Hok c Hc) as [-> _]. }
    assert (forallb id (map (fun _ : SecureConnection => true) conns) = true) as ->.
    { clear. by induction conns. }
    assert (exists ids, collect (map (get_identity env) conns) = inr ids) as [ids ->].
    { apply collect_all_inr. eapply Forall_impl; [exact Hok|]. by intros c [_ ?]. }
    done.
Qed.

(** ** The analyst nodes and the catalog *)

Lemma dict_index_inr {V} (d : dict V) k v : dict_index d k = inr v <-> dict_get d k = Some v.
Proof. unfold dict_index. destruct (dict_get d k); split; congruence. Qed.

Lemma get_analyst_nodes_inl secured e :
  get_analyst_nodes (Some secured) = inl e ->
  exists info, info ∈ map snd ANALYST_CONFIG /\ dict_get secured (key info) = None /\
               e = KeyError (key info).
Proof.
  unfold get_analyst_nodes, dict_index.
  repeat match goal with
         | |- context [dict_get secured ?n] =>
             destruct (dict_get secured n) eqn:?;
             [|cbn beta iota; intros [= <-];
               match goal with
               | H : dict_get secured ?k = None |- _ =>
                   exists (default (mkAnalyst EmptyString EmptyString 0)
                             (List.find (fun info => bool_decide (key info = k))
                                        (map snd ANALYST_CONFIG)))
               end; simpl; split_and!; [repeat (first [by left|right])|done|done]]
         end.
  done.
Qed.

Lemma get_analyst_nodes_inr secured an :
  get_analyst_nodes (Some secured) = inr an ->
  forall n, dict_get an n = info ← dict_get ANALYST_CONFIG n; dict_get secured (key info).
Proof.
  unfold get_analyst_nodes.
  repeat match goal with
         | |- context [dict_index secured ?n] =>
             destruct (dict_index secured n) eqn:?; [done|]
         end.
  repeat match goal with
         | H : dict_index secured _ = inr _ |- _ => apply dict_index_inr in H
         end.
  intros [= <-] n. simpl.
  repeat (case_decide; [subst; simpl; congruence|]). done.
Qed.

Lemma dict_get_elem {V} (d : dict V) k v :
  NoDup (keys d) -> (k, v) ∈ d -> dict_get d k = Some v.
Proof.
  induction d as [|[k' v'] d IH]; simpl; [by intros _ ?%elem_of_nil|].
  intros [Hk Hnd]%NoDup_cons [[= -> ->]|Hin]%elem_of_cons.
  - by rewrite decide_True.
  - rewrite decide_False; [by apply IH|]. intros ->. apply Hk.
    apply list_elem_of_fmap. by exists (k, v).
Qed.

(** X2: [get_analyst_nodes] and [ANALYST_CONFIG] agree: with secured agents,
    the call succeeds exactly when the [key] of every catalog entry is a
    key of the secured agents, and otherwise raises [KeyError] for such a
    key; the nodes it returns have the keys of the catalog, in that order,
    and the node of an analyst is the secured agent under the [key] of
    its entry. *)
Theorem analyst_nodes_follow_config (secured : dict callable) :
  ((exists an, get_analyst_nodes (Some secured) = inr an) <->
   (forall info, info ∈ map snd ANALYST_CONFIG ->
                 is_Some (dict_get secured (key info)))) /\
  (forall e, get_analyst_nodes (Some secured) = inl e ->
     exists info, info ∈ map snd ANALYST_CONFIG /\ e = KeyError (key info)) /\
  (forall an, get_analyst_nodes (Some secured) = inr an ->
     keys an = keys ANALYST_CONFIG /\
     forall n, dict_get an n
               = info ← dict_get ANALYST_CONFIG n; dict_get secured (key info)).
Proof.
  split_and!.
  - split.
    + intros [an Han] info Hinfo.
      pose proof (get_analyst_nodes_inr _ _ Han) as Hget.
      pose proof (get_analyst_nodes_keys _ _ Han) as Hkeys.
      apply list_elem_of_fmap in Hinfo as ([n info'] & -> & Hin). simpl.
      assert (dict_get ANALYST_CONFIG n = Some info') as Hn.
      { apply dict_get_elem; [|done]. by apply (bool_decide_unpack _). }
      assert (n ∈ keys an) as Hk.
      { rewrite Hkeys. by eapply dict_get_Some_keys. }
      apply dict_mem_keys in Hk. unfold dict_mem in Hk.
      apply bool_decide_eq_true in Hk. by rewrite Hget, Hn in Hk.
    + intros Hall.
      destruct (get_analyst_nodes (Some secured)) as [e|an] eqn:E; [|by eauto].
      apply get_analyst_nodes_inl in E as (info & Hinfo & Hnone & _).
      destruct (Hall info Hinfo) as [v Hv]. congruence.
  - intros e (info & Hinfo & _ & ->)%get_analyst_nodes_inl. by exists info.
  - intros an Han. split; [by eapply get_analyst_nodes_keys|].
    by apply get_analyst_nodes_inr.
Qed.

(** X3: After a successful securing phase, the secured workflow nodes and the
    nodes that [get_analyst_nodes] returns without secured agents have the
    same keys in the same order, and the node of each key does on every
    state what the unsecured node does. *)
Theorem secured_nodes_run_unsecured_agents (env : Env) (client : Aztp)
    (secured : dict callable) :
  result (secure_wrap_agents env client) = inr secured ->
  exists an unsecured,
    get_analyst_nodes (Some secured) = inr an /\
    get_analyst_nodes None = inr unsecured /\
    Forall2 (fun s u => s.1 = u.1 /\ forall state, call env s.2 state = call env u.2 state)
            an unsecured.
Proof.
  intros (an & Han & Hwire)%secured_nodes_wiring.
  exists an, (map (fun item => (item.1, raw item.2)) analyst_wiring).
  split_and!; [done|reflexivity|].
  apply Forall2_fmap_r, Forall2_flip.
  eapply Forall2_impl; [exact Hwire|].
  intros [k a] [k' f] [Hk (conn & Hf & Ha)]. simpl in *. subst. by split.
Qed.

Lemma secured_nodes_run_unsecured_agents_witness :
  exists an unsecured,
    get_analyst_nodes (Some Scenario.secured_agents) = inr an /\
    get_analyst_nodes None = inr unsecured /\
    Forall2 (fun s u => s.1 = u.1 /\
                        forall state, call Scenario.all_good s.2 state
                                      = call Scenario.all_good u.2 state)
            an unsecured.
Proof.
  apply (secured_nodes_run_unsecured_agents Scenario.all_good Scenario.client).
  reflexivity.
Defined.

(** ** The order of the agent calls *)

Lemma called_app tr1 tr2 : called (tr1 ++ tr2) = called tr1 ++ called tr2.
Proof. apply omap_app. Qed.

Lemma called_quiet tr : Forall before_execution tr -> called tr = [].
Proof.
  induction 1 as [|ev tr Hev _ IH]; [done|].
  destruct ev; simpl in Hev; try done; exact IH.
Qed.

Lemma called_call env f state :
  called (trace (call env f state)) = option_list (agent_of f).
Proof.
  destruct f as [a|conn|]; simpl; run; simpl; [| |done].
  - by destruct (agent_call env a state).
  - by destruct (agent_call env (_agent conn) state).
Qed.

Lemma node_agents_cons an k l :
  node_agents an (k :: l) = option_list (dict_get an k ≫= agent_of) ++ node_agents an l.
Proof. unfold node_agents. simpl. by destruct (dict_get an k ≫= agent_of). Qed.

Lemma node_agents_app an l1 l2 :
  node_agents an (l1 ++ l2) = node_agents an l1 ++ node_agents an l2.
Proof. apply omap_app. Qed.

Lemma bind_lift_inr {A B} (a : A) (k : A -> M B) : bind (lift (inr a)) k = k a.
Proof. unfold bind, lift. by destruct (k a). Qed.

Lemma run_from_step env fuel g k f state :
  dict_get (nodes g) k = Some f ->
  run_from env (S fuel) g k state
  = (state' <- call env f state ;;
     match successors g k with
     | [] => ret state'
     | [next] =>
         if bool_decide (next = END) then ret state'
         else run_from env fuel g next state'
     | _ => raise (OtherError "parallel branches")
     end).
Proof. intros Hf. simpl. unfold dict_index. rewrite Hf. by rewrite bind_lift_inr. Qed.

Section ChainCalls.

Context (env : Env) (g : StateGraph) (an : dict callable) (sel : list string).

Hypothesis Hnodes : nodes g = ("START", start_node) :: selected_nodes an sel.
Hypothesis Hedges : forall e,
  e ∈ edges g <->
  e = (START, "START") \/
  (exists k, last sel = Some k /\ e = (k, END)) \/
  e ∈ zip sel (tail sel) \/
  (exists k, e = ("START", k) /\ head sel = Some k /\ is_Some (dict_get an k)).
Hypothesis Hdistinct : NoDup sel.
Hypothesis Hknown : forall k, k ∈ sel -> is_Some (dict_get an k).
Hypothesis Hnames : forall k, k ∈ sel -> k <> "START" /\ k <> START /\ k <> END.

(** From position [i], the chain calls the agents of the nodes that
    answer, in order, and stops at the first node that raises. *)
Lemma run_chain_calls mid : forall i k rest state fuel,
  sel !! i = Some k -> drop i sel = mid ++ rest ->
  Forall (node_succeeds env an) mid ->
  List.length (mid ++ rest) <= fuel ->
  match rest with
  | [] =>
      (exists final, result (run_from env fuel g k state) = inr final) /\
      called (trace (run_from env fuel g k state)) = node_agents an mid
  | k' :: _ =>
      forall e, node_raises env an k' e ->
        result (run_from env fuel g k state) = inl e /\
        called (trace (run_from env fuel g k state)) = node_agents an (mid ++ [k'])
  end.
Proof.
  induction mid as [|k0 mid IH]; intros i k rest state fuel Hi Hdrop Hok Hfuel;
    rewrite (drop_S _ _ _ Hi) in Hdrop;
    assert (k ∈ sel) as Hk by (apply list_elem_of_lookup; eauto);
    destruct (Hknown k Hk) as [f Hf];
    (destruct fuel as [|fuel];
     [rewrite <- Hdrop in Hfuel; simpl in Hfuel; lia|]);
    rewrite (run_from_step env fuel g k f)
      by (erewrite chain_node by eassumption; exact Hf).
  - simpl in Hdrop. subst rest. intros e Hraise.
    specialize (Hraise f Hf state). run. rewrite Hraise. split; [done|].
    rewrite called_call, app_nil_l, node_agents_cons, Hf. simpl.
    by rewrite app_nil_r.
  - injection Hdrop as <- Hdrop. apply Forall_cons in Hok as [Hok0 Hok].
    destruct (Hok0 f Hf state) as [state' Hcall].
    erewrite chain_successor by eassumption.
    destruct (sel !! S i) as [k1|] eqn:Hi1; simpl.
    + assert (k1 ∈ sel) as Hk1 by (apply list_elem_of_lookup; eauto).
      destruct (Hnames k1 Hk1) as (_ & _ & Hne).
      rewrite bool_decide_eq_false_2 by done.
      specialize (IH (S i) k1 rest state' fuel Hi1 Hdrop Hok).
      assert (List.length (mid ++ rest) <= fuel) as Hfuel' by (simpl in Hfuel; lia).
      specialize (IH Hfuel').
      destruct rest as [|k' rest].
      * destruct IH as ([final Hfinal] & Hcalled). split.
        -- exists final. run. by rewrite Hcall.
        -- run. rewrite Hcall, called_app, called_call, Hcalled, Hf. simpl.
           by destruct (agent_of f).
      * intros e Hraise. destruct (IH e Hraise) as (Hres & Hcalled). split.
        -- run. by rewrite Hcall.
        -- run. rewrite Hcall, called_app, called_call, Hcalled.
           change ((k :: mid) ++ [k']) with (k :: (mid ++ [k'])).
           rewrite ?node_agents_cons, Hf. simpl. by destruct (agent_of f).
    + apply lookup_ge_None_1 in Hi1. rewrite drop_ge in Hdrop by lia.
      symmetry in Hdrop. apply app_eq_nil in Hdrop as [-> ->]. split.
      * exists state'. run. by rewrite Hcall.
      * run. rewrite Hcall, called_app, called_call, ?node_agents_cons, Hf. simpl.
        destruct (agent_of f); simpl; by rewrite ?app_nil_r.
Qed.

(** The same for the whole graph, from its entry point. *)
Lemma invoke_chain_calls mid rest state :
  sel = mid ++ rest -> sel <> [] ->
  Forall (node_succeeds env an) mid ->
  List.length sel < recursion_limit ->
  match rest with
  | [] =>
      (exists final, result (invoke env (mkCompiled g) state) = inr final) /\
      called (trace (invoke env (mkCompiled g) state)) = node_agents an mid
  | k' :: _ =>
      forall e, node_raises env an k' e ->
        result (invoke env (mkCompiled g) state) = inl e /\
        called (trace (invoke env (mkCompiled g) state))
        = node_agents an (mid ++ [k'])
  end.
Proof.
  intros Hsplit Hne Hok Hlen.
  assert (exists k0, head sel = Some k0) as [k0 Hhead].
  { clear -Hne. destruct sel; [done|by eauto]. }
  assert (sel !! 0 = Some k0) as H0 by (by rewrite <- head_lookup).
  assert (k0 ∈ sel) as Hk0 by (apply list_elem_of_lookup; eauto).
  destruct (Hnames k0 Hk0) as (_ & _ & Hend).
  assert (invoke env (mkCompiled g) state
          = (emit EvInvoke ;;; run_from env 24 g k0 state)) as ->.
  { unfold invoke. cbn [builder]. erewrite chain_entry by eassumption.
    rewrite bool_decide_eq_false_2 by done.
    change recursion_limit with (S 24).
    rewrite (run_from_step env 24 g "START" start_node) by (by rewrite Hnodes).
    cbn [call]. erewrite chain_first by eassumption.
    rewrite bool_decide_eq_false_2 by done.
    f_equal. unfold bind, ret. by destruct (run_from env 24 g k0 state). }
  pose proof (run_chain_calls mid 0 k0 rest state 24 H0) as Hrun.
  rewrite drop_0 in Hrun. specialize (Hrun Hsplit Hok).
  assert (List.length (mid ++ rest) <= 24) as Hfuel.
  { rewrite <- Hsplit. change recursion_limit with 25 in Hlen. lia. }
  specialize (Hrun Hfuel). run. simpl.
  destruct rest as [|k' rest]; [done|].
  intros e Hraise. by destruct (Hrun e Hraise).
Qed.

End ChainCalls.

(** ** The structure of a run *)

Lemma bind_bind {A B C D} (m : M A) (f : A -> M B) (g : B -> M C) (k : C -> M D) :
  (x <- m ;; y <- f x ;; z <- g y ;; k z)
  = (z <- (x <- m ;; y <- f x ;; g y) ;; k z).
Proof.
  unfold bind. destruct m as [[e|a] tr]; [done|].
  destruct (f a) as [[e|b] tr1]; [done|].
  destruct (g b) as [[e|c] tr2]; [done|].
  destruct (k c) as [r tr3]. by rewrite !app_assoc.
Qed.

Lemma bind_ext {A B} (m : M A) (f g : A -> M B) :
  (forall a, f a = g a) -> bind m f = bind m g.
Proof. intros H. unfold bind. destruct m as [[e|a] tr]; [done|]. by rewrite H. Qed.

Lemma parse_hedge_fund_response_decision env text :
  result (parse_hedge_fund_response env text) = inr (decision env text).
Proof.
  unfold parse_hedge_fund_response, decision. run.
  by destruct (json_loads env text); run.
Qed.

Lemma parse_hedge_fund_response_quiet (P : event -> Prop) env text :
  (forall line, P (EvPrint line)) -> only P (parse_hedge_fund_response env text).
Proof.
  intros HP. unfold parse_hedge_fund_response. apply only_catch; [apply only_lift|].
  intros. apply only_bind; [by apply only_emit|]. intros. apply only_ret.
Qed.

Lemma run_from_emits (P : event -> Prop) env fuel g cur state :
  (forall a, P (EvAgentCall a)) -> only P (run_from env fuel g cur state).
Proof.
  intros HP. revert cur state. induction fuel as [|fuel IH]; intros cur state; simpl.
  { apply only_raise. }
  apply only_bind; [apply only_lift|]. intros f _.
  apply only_bind.
  { destruct f; simpl; [| |apply only_ret];
      (apply only_bind; [by apply only_emit|]; intros; apply only_lift). }
  intros state' _.
  destruct (successors g cur) as [|next [|]]; [apply only_ret| |apply only_raise].
  case_bool_decide; [apply only_ret|apply IH].
Qed.

Lemma build_and_invoke_emits (P : event -> Prop) env sel secured state :
  P EvStateGraph -> P EvCompile -> P EvInvoke -> (forall a, P (EvAgentCall a)) ->
  only P (build_and_invoke env sel secured state).
Proof.
  intros Hg Hc Hi Ha. unfold build_and_invoke.
  apply only_bind.
  { eapply only_weaken; [|apply create_workflow_only]. by intros ev ->. }
  intros wf _. apply only_bind.
  { unfold compile. apply only_bind; [by apply only_emit|]. intros _ _.
    apply only_bind; [apply only_lift|]. intros _ _. apply only_ret. }
  intros c _. unfold invoke.
  apply only_bind; [by apply only_emit|]. intros _ _.
  destruct (successors (builder c) START) as [|entry [|]];
    [apply only_ret| |apply only_raise].
  case_bool_decide; [apply only_ret|by apply run_from_emits].
Qed.

Section RunStructure.

Context (env : Env).
Context (tickers : list string) (start_date end_date : string) (portfolio : json).
Context (show_reasoning : bool) (model_name model_provider : string).

Local Abbreviation run_with selected_analysts :=
  (run_hedge_fund env tickers start_date end_date portfolio show_reasoning
     selected_analysts model_name model_provider).

Local Abbreviation state0 :=
  (initial_state tickers start_date end_date portfolio show_reasoning model_name
     model_provider).

(** What follows [progress.start()] inside the [try ... finally]. *)
Local Abbreviation guarded sel secured :=
  (final_state <- build_and_invoke env (effective_selection sel) secured state0 ;;
   match last (messages final_state) with
   | None => raise (IndexError "list index out of range")
   | Some m =>
       d <- parse_hedge_fund_response env (content m) ;;
       ret (Some (mkResult d (analyst_signals (data final_state))))
   end).

Lemma run_hedge_fund_secured client secured sel :
  securing_succeeds env client secured ->
  run_with sel
  = catch (secured_agents <- secure_wrap_agents env client ;;
           emit EvProgressStart ;;;
           finally (guarded sel secured_agents) [EvProgressStop])
          (on_exception (Some client)).
Proof.
  intros (api_key & Hkey & Hne & Hinit & Hs). unfold run_hedge_fund. rewrite Hkey.
  destruct api_key as [|c0 api_key]; [done|]. rewrite Hinit.
  f_equal. apply bind_ext. intros sec. apply bind_ext. intros _. f_equal.
  unfold build_and_invoke, effective_selection. apply bind_bind.
Qed.

Lemma guarded_result sel secured :
  result (guarded sel secured)
  = match result (build_and_invoke env (effective_selection sel) secured state0) with
    | inl e => inl e
    | inr final =>
        match last (messages final) with
        | None => inl (IndexError "list index out of range")
        | Some m => inr (Some (mkResult (decision env (content m))
                                        (analyst_signals (data final))))
        end
    end.
Proof.
  run. destruct (result (build_and_invoke _ _ _ _)) as [e|final]; [done|].
  destruct (last (messages final)) as [m|]; run; [|done].
  by rewrite parse_hedge_fund_response_decision.
Qed.

Lemma guarded_emits (P : event -> Prop) sel secured :
  P EvStateGraph -> P EvCompile -> P EvInvoke -> (forall a, P (EvAgentCall a)) ->
  (forall line, P (EvPrint line)) ->
  only P (guarded sel secured).
Proof.
  intros Hg Hc Hi Ha Hp. apply only_bind; [by apply build_and_invoke_emits|].
  intros final _. destruct (last (messages final)); [|apply only_raise].
  apply only_bind; [by apply parse_hedge_fund_response_quiet|]. intros. apply only_ret.
Qed.

Lemma run_hedge_fund_trace client secured sel :
  securing_succeeds env client secured ->
  trace (run_with sel)
  = trace (secure_wrap_agents env client) ++
    EvProgressStart :: trace (guarded sel secured) ++
    EvProgressStop ::
    match result (guarded sel secured) with
    | inl e => trace (on_exception (Some client) e)
    | inr _ => []
    end.
Proof.
  intros Hsec. rewrite (run_hedge_fund_secured client secured sel Hsec).
  destruct Hsec as (_ & _ & _ & _ & Hs).
  rewrite trace_catch, result_bind, trace_bind, Hs, result_bind, trace_bind,
    result_emit, trace_emit, result_finally, trace_finally.
  destruct (result (guarded sel secured)); simpl;
    rewrite <- ?app_assoc; simpl; by rewrite <- ?app_assoc, ?app_nil_r.
Qed.

Lemma run_hedge_fund_outcome (client : Aztp) (secured : dict callable)
    (selected_analysts : list string) :
  securing_succeeds env client secured ->
  result (run_hedge_fund env tickers start_date end_date portfolio show_reasoning
            selected_analysts model_name model_provider)
  = inr match result (build_and_invoke env (effective_selection selected_analysts)
                        secured
                        (initial_state tickers start_date end_date portfolio
                           show_reasoning model_name model_provider)) with
        | inl _ => None
        | inr final =>
            (fun m => mkResult (decision env (content m))
                               (analyst_signals (data final)))
              <$> last (messages final)
        end.
Proof.
  intros Hsec. rewrite (run_hedge_fund_secured client secured _ Hsec).
  destruct Hsec as (_ & _ & _ & _ & Hs).
  rewrite result_catch, result_bind, Hs, result_bind, result_emit, result_finally,
    guarded_result.
  destruct (result (build_and_invoke _ _ _ _)) as [e|final];
    [apply on_exception_bound|].
  destruct (last (messages final)); [done|apply on_exception_bound].
Qed.

(** X4: When the securing phase has succeeded, the pipeline decides what
    [run_hedge_fund] returns: [None] when the build, the compilation or a
    node raises or the final state has no message, and otherwise the
    decoded content of the last message ([None] when it cannot be
    decoded) together with the signals of the final state. *)
Theorem run_hedge_fund_result (client : Aztp) (secured : dict callable)
    (selected_analysts : list string) :
  securing_succeeds env client secured ->
  result (run_hedge_fund env tickers start_date end_date portfolio show_reasoning
            selected_analysts model_name model_provider)
  = inr match result (build_and_invoke env (effective_selection selected_analysts)
                        secured
                        (initial_state tickers start_date end_date portfolio
                           show_reasoning model_name model_provider)) with
        | inl _ => None
        | inr final =>
            (fun m => mkResult (decision env (content m))
                               (analyst_signals (data final)))
              <$> last (messages final)
        end.
Proof.
  intros Hsec. rewrite (run_hedge_fund_secured client secured _ Hsec).
  destruct Hsec as (_ & _ & _ & _ & Hs).
  rewrite result_catch, result_bind, Hs, result_bind, result_emit, result_finally,
    guarded_result.
  destruct (result (build_and_invoke _ _ _ _)) as [e|final];
    [apply on_exception_bound|].
  destruct (last (messages final)); [done|apply on_exception_bound].
Qed.

Lemma run_hedge_fund_called client secured sel :
  securing_succeeds env client secured ->
  called (trace (run_with sel))
  = called (trace (build_and_invoke env (effective_selection sel) secured state0)).
Proof.
  intros Hsec. rewrite (run_hedge_fund_trace client secured sel Hsec).
  rewrite called_app, (called_quiet (trace (secure_wrap_agents env client))).
  2:{ eapply Forall_impl; [apply secure_wrap_agents_only|]. by intros []. }
  change (EvProgressStart :: ?l) with ([EvProgressStart] ++ l).
  rewrite called_app, called_app. simpl.
  rewrite (called_quiet (match result (guarded sel secured) with
                         | inl e => trace (on_exception (Some client) e)
                         | inr _ => []
                         end)).
  2:{ destruct (result (guarded sel secured)); [|constructor].
      eapply Forall_impl; [apply on_exception_only|]. by intros []. }
  rewrite app_nil_r, trace_bind.
  destruct (result (build_and_invoke _ _ _ _)) as [e|final]; [done|].
  rewrite called_app, (called_quiet (trace (match last (messages final) with
                                            | None => _ | Some m => _ end))).
  { by rewrite app_nil_r. }
  destruct (last (messages final)); [|constructor].
  apply only_bind; [by apply parse_hedge_fund_response_quiet|].
  intros. apply only_ret.
Qed.

(** X5: In every run, [progress.stop()] is called exactly once after
    [progress.start()], and not otherwise: the trace either holds no
    progress event, or holds one start and, later, one stop. *)
Theorem progress_is_stopped (selected_analysts : list string) :
  let tr := trace (run_hedge_fund env tickers start_date end_date portfolio
                     show_reasoning selected_analysts model_name model_provider) in
  Forall (fun ev => ~ is_progress ev) tr \/
  exists pre mid post,
    tr = pre ++ EvProgressStart :: mid ++ EvProgressStop :: post /\
    Forall (fun ev => ~ is_progress ev) pre /\
    Forall (fun ev => ~ is_progress ev) mid /\
    Forall (fun ev => ~ is_progress ev) post.
Proof.
  intros tr. subst tr.
  assert (forall ev, securing_event ev -> ~ is_progress ev) as Hsec.
  { intros ev. destruct ev; simpl; tauto. }
  assert (forall c e, Forall (fun ev => ~ is_progress ev) (trace (on_exception c e)))
    as Hexc.
  { intros. eapply Forall_impl; [apply on_exception_only|done]. }
  destruct (getenv_AZTP_API_KEY env) as [api_key|] eqn:Hkey.
  2:{ left. unfold run_hedge_fund. rewrite Hkey. apply Hexc. }
  destruct (decide (api_key = EmptyString)) as [->|Hne].
  { left. unfold run_hedge_fund. rewrite Hkey. apply Hexc. }
  destruct (Aztp_init env api_key) as [e|client] eqn:Hinit.
  { left. unfold run_hedge_fund. rewrite Hkey, Hinit.
    destruct api_key; [done|apply Hexc]. }
  destruct (result (secure_wrap_agents env client)) as [e|secured] eqn:Hs.
  - left. unfold run_hedge_fund. rewrite Hkey, Hinit.
    destruct api_key as [|c0 api_key]; [done|].
    apply only_catch; [|intros; apply Hexc].
    apply only_bind; [|intros a Ha; congruence].
    eapply only_weaken; [exact Hsec|apply secure_wrap_agents_only].
  - right. assert (securing_succeeds env client secured) as Hok.
    { by exists api_key. }
    eexists _, _, _. split; [apply (run_hedge_fund_trace client secured _ Hok)|].
    split_and!.
    + eapply Forall_impl; [apply secure_wrap_agents_only|exact Hsec].
    + apply guarded_emits; by auto.
    + match goal with
      | |- Forall _ (match ?r with inl _ => _ | inr _ => _ end) =>
          destruct r; [apply Hexc|constructor]
      end.
Qed.

End RunStructure.

Lemma wiring_lookup an :
  Forall2 (fun (item : string * agent_fn) (node : string * callable) =>
             node.1 = item.1 /\ wraps item.2 node.2) analyst_wiring an ->
  forall k, dict_get an k ≫= agent_of = dict_get analyst_wiring k.
Proof.
  generalize analyst_wiring. intros wiring Hall k.
  induction Hall as [|[k0 a] [k1 f] wiring an [Hk (conn & Hf & Ha)] _ IH]; [done|].
  simpl in *. subst. by destruct (decide (k0 = k)).
Qed.

Lemma node_agents_selected an :
  (forall k, dict_get an k ≫= agent_of = dict_get analyst_wiring k) ->
  forall sel, node_agents an sel = selected_agents sel.
Proof.
  intros Hlook sel. unfold node_agents, selected_agents.
  generalize (dict_get analyst_wiring) Hlook. clear Hlook. intros g Hlook.
  induction sel as [|k sel IH]; [done|]. csimpl. by rewrite Hlook, IH.
Qed.

Lemma compile_valid wf :
  validate wf = inr tt -> compile wf = (inr (mkCompiled wf), [EvCompile]).
Proof. intros Hv. unfold compile. by rewrite Hv. Qed.

(** The pipeline over a non-empty list of distinct catalog keys calls the
    agents of the nodes that answer, in the order of the list, and stops
    with the exception of the first node that raises. *)
Lemma build_and_invoke_calls env secured an sel mid rest state :
  get_analyst_nodes (Some secured) = inr an ->
  sel = mid ++ rest -> sel <> [] -> NoDup sel ->
  (forall k, k ∈ sel -> k ∈ keys ANALYST_CONFIG) ->
  Forall (node_succeeds env an) mid ->
  match rest with
  | [] =>
      (exists final, result (build_and_invoke env sel secured state) = inr final) /\
      called (trace (build_and_invoke env sel secured state)) = node_agents an mid
  | k' :: _ =>
      forall e, node_raises env an k' e ->
        result (build_and_invoke env sel secured state) = inl e /\
        called (trace (build_and_invoke env sel secured state))
        = node_agents an (mid ++ [k'])
  end.
Proof.
  intros Han Hsplit Hne Hnd Hcat Hok.
  pose proof (get_analyst_nodes_keys _ _ Han) as Hkeys.
  assert (forall k, k ∈ sel -> is_Some (dict_get an k)) as Hknown.
  { intros k Hk. apply Hcat in Hk. rewrite <- Hkeys in Hk.
    apply dict_mem_keys in Hk. by apply bool_decide_eq_true in Hk. }
  assert (forall k, k ∈ sel -> k <> "START" /\ k <> START /\ k <> END) as Hnames.
  { intros k Hk. by apply catalog_names, Hcat. }
  assert (List.length sel < recursion_limit) as Hlen.
  { pose proof (submseteq_length _ _ (NoDup_submseteq _ _ Hnd Hcat)) as Hle.
    change (List.length (keys ANALYST_CONFIG)) with 7 in Hle.
    change recursion_limit with 25. lia. }
  destruct (create_workflow_ok sel secured an Han Hnd) as [wf Hwf].
  { intros k Hk. split; [by apply Hknown|by apply Hnames]. }
  pose proof Hwf as (an' & Han' & Hnodes & Hedges & _)%create_workflow_inr.
  rewrite Han in Han'. injection Han' as <-.
  assert (validate wf = inr tt) as Hv by (eapply chain_validates; eassumption).
  pose proof (invoke_chain_calls env wf an sel Hnodes Hedges Hnd Hknown Hnames
                mid rest state Hsplit Hne Hok Hlen) as Hinv.
  assert (result (build_and_invoke env sel secured state)
          = result (invoke env (mkCompiled wf) state) /\
          called (trace (build_and_invoke env sel secured state))
          = called (trace (invoke env (mkCompiled wf) state))) as [-> ->].
  { unfold build_and_invoke. rewrite result_bind, trace_bind, Hwf.
    rewrite result_bind, trace_bind, (compile_valid wf Hv). cbn [result trace fst snd].
    split; [done|]. rewrite !called_app.
    rewrite (called_quiet (trace (create_workflow sel secured))).
    - done.
    - eapply Forall_impl; [apply create_workflow_only|]. by intros ev ->. }
  exact Hinv.
Qed.

Lemma always_succeeds_node env an k a :
  dict_get an k ≫= agent_of = Some a ->
  always_succeeds env a -> node_succeeds env an k.
Proof.
  intros Hk Ha f Hf state. rewrite Hf in Hk. simpl in Hk.
  destruct (Ha state) as [state' Hs].
  destruct f as [a'|conn|]; simpl in Hk; [| |done]; injection Hk as <-;
    exists state'; simpl; run; by rewrite Hs.
Qed.

Lemma always_raises_node env an k a e :
  dict_get an k ≫= agent_of = Some a ->
  always_raises env a e -> node_raises env an k e.
Proof.
  intros Hk Ha f Hf state. rewrite Hf in Hk. simpl in Hk.
  destruct f as [a'|conn|]; simpl in Hk; [| |done]; injection Hk as <-;
    simpl; run; by rewrite Ha.
Qed.

Lemma effective_selection_nonempty sel : effective_selection sel <> [].
Proof. by destruct sel. Qed.

Section Order.

Context (env : Env).
Context (tickers : list string) (start_date end_date : string) (portfolio : json).
Context (show_reasoning : bool) (model_name model_provider : string).

(** X6: Every agent of the workflow answers: the run calls the agents of the
    selected analysts (of all seven analysts, in the order of
    [ANALYST_ORDER], when nothing is selected), each once and in the
    order of the selection, and the pipeline reaches its end. *)
Theorem agents_called_in_selection_order (client : Aztp) (secured : dict callable)
    (selected_analysts : list string) :
  securing_succeeds env client secured ->
  NoDup selected_analysts ->
  (forall k, k ∈ selected_analysts -> k ∈ keys ANALYST_CONFIG) ->
  Forall (always_succeeds env) (selected_agents (effective_selection selected_analysts)) ->
  called (trace (run_hedge_fund env tickers start_date end_date portfolio
                   show_reasoning selected_analysts model_name model_provider))
  = selected_agents (effective_selection selected_analysts) /\
  exists final,
    result (build_and_invoke env (effective_selection selected_analysts) secured
              (initial_state tickers start_date end_date portfolio show_reasoning
                 model_name model_provider)) = inr final.
Proof.
  intros Hsec Hnd Hcat Hok.
  pose proof Hsec as (_ & _ & _ & _ & Hs).
  destruct (secured_nodes_wiring _ _ _ Hs) as (an & Han & Hwire).
  pose proof (wiring_lookup an Hwire) as Hlook.
  set (sel := effective_selection selected_analysts) in *.
  assert (NoDup sel /\ forall k, k ∈ sel -> k ∈ keys ANALYST_CONFIG) as [Hnd' Hcat'].
  { subst sel. destruct selected_analysts as [|k0 l]; [|done]. simpl. split.
    - by apply (bool_decide_unpack _).
    - apply Forall_forall. by apply (bool_decide_unpack _). }
  assert (node_agents an sel = selected_agents sel) as Hagents.
  { by apply node_agents_selected. }
  pose proof (build_and_invoke_calls env secured an sel sel []
                (initial_state tickers start_date end_date portfolio show_reasoning
                   model_name model_provider) Han) as Hcalls.
  rewrite app_nil_r in Hcalls.
  destruct Hcalls as [Hres Hcalled]; [done|apply effective_selection_nonempty|done..| |].
  { apply Forall_forall. intros k Hk.
    assert (is_Some (dict_get analyst_wiring k)) as [a Ha].
    { apply Hcat' in Hk. change (keys ANALYST_CONFIG) with (keys analyst_wiring) in Hk.
      apply dict_mem_keys in Hk. by apply bool_decide_eq_true in Hk. }
    apply (always_succeeds_node env an k a); [by rewrite Hlook|].
    rewrite Forall_forall in Hok. apply Hok. unfold selected_agents.
    apply list_elem_of_omap. by exists k. }
  split; [|done].
  rewrite (run_hedge_fund_called env _ _ _ _ _ _ _ client secured _ Hsec).
  fold sel. by rewrite Hcalled.
Qed.

(** X7: An agent of the workflow raises: the agents selected before it were
    called in order, it was called, the agents selected after it are
    never called, and the run reports the exception and returns
    [None]. *)
Theorem failing_agent_stops_the_run (client : Aztp) (secured : dict callable)
    (selected_analysts pre post : list string) (k : string) (a : agent_fn) (e : exn) :
  securing_succeeds env client secured ->
  selected_analysts = pre ++ k :: post ->
  NoDup selected_analysts ->
  (forall k', k' ∈ selected_analysts -> k' ∈ keys ANALYST_CONFIG) ->
  Forall (always_succeeds env) (selected_agents pre) ->
  dict_get analyst_wiring k = Some a ->
  always_raises env a e ->
  result (run_hedge_fund env tickers start_date end_date portfolio show_reasoning
            selected_analysts model_name model_provider) = inr None /\
  called (trace (run_hedge_fund env tickers start_date end_date portfolio
                   show_reasoning selected_analysts model_name model_provider))
  = selected_agents pre ++ [a] /\
  EvPrint ("Error running hedge fund: " ++ exn_str e)
  ∈ trace (run_hedge_fund env tickers start_date end_date portfolio
             show_reasoning selected_analysts model_name model_provider).
Proof.
  intros Hsec Hsplit Hnd Hcat Hok Hk Ha.
  pose proof Hsec as (_ & _ & _ & _ & Hs).
  destruct (secured_nodes_wiring _ _ _ Hs) as (an & Han & Hwire).
  pose proof (wiring_lookup an Hwire) as Hlook.
  assert (effective_selection selected_analysts = selected_analysts) as Heff.
  { rewrite Hsplit. by destruct pre. }
  pose proof (build_and_invoke_calls env secured an selected_analysts pre (k :: post)
                (initial_state tickers start_date end_date portfolio show_reasoning
                   model_name model_provider) Han Hsplit) as Hcalls.
  cbn beta iota in Hcalls.
  destruct (Hcalls) with (e := e) as [Hres Hcalled]; [by rewrite Hsplit; destruct pre|done..| | |].
  { apply Forall_forall. intros k' Hk'.
    assert (k' ∈ selected_analysts) as Hin.
    { rewrite Hsplit. apply elem_of_app. by left. }
    assert (is_Some (dict_get analyst_wiring k')) as [a' Ha'].
    { apply Hcat in Hin. change (keys ANALYST_CONFIG) with (keys analyst_wiring) in Hin.
      apply dict_mem_keys in Hin. by apply bool_decide_eq_true in Hin. }
    apply (always_succeeds_node env an k' a'); [by rewrite Hlook|].
    rewrite Forall_forall in Hok. apply Hok. unfold selected_agents.
    apply list_elem_of_omap. by exists k'. }
  { apply (always_raises_node env an k a e); [by rewrite Hlook|done]. }
  assert (node_agents an (pre ++ [k]) = selected_agents pre ++ [a]) as Hagents.
  { rewrite node_agents_app. f_equal.
    - by apply node_agents_selected.
    - unfold node_agents. simpl. by rewrite Hlook, Hk. }
  split_and!.
  - rewrite (run_hedge_fund_outcome env _ _ _ _ _ _ _ client secured _ Hsec).
    by rewrite Heff, Hres.
  - rewrite (run_hedge_fund_called env _ _ _ _ _ _ _ client secured _ Hsec).
    by rewrite Heff, Hcalled.
  - rewrite (run_hedge_fund_trace env _ _ _ _ _ _ _ client secured _ Hsec).
    rewrite result_bind, Heff, Hres.
    apply elem_of_app. right. right. apply elem_of_app. right. right.
    unfold on_exception. rewrite trace_bind, result_print, trace_print. by left.
Qed.

End Order.

Lemma crashing_securing_succeeds failed :
  securing_succeeds (crashing failed) Scenario.client Scenario.secured_agents.
Proof. exists "secret". split_and!; [reflexivity|discriminate|reflexivity|reflexivity]. Defined.

Lemma run_hedge_fund_result_witness :
  result (Scenario.run Scenario.all_good ["valuation_analyst"])
  = inr match result (build_and_invoke Scenario.all_good
                        (effective_selection ["valuation_analyst"])
                        Scenario.secured_agents Scenario.state0) with
        | inl _ => None
        | inr final =>
            (fun m => mkResult (decision Scenario.all_good (content m))
                               (analyst_signals (data final)))
              <$> last (messages final)
        end.
Proof.
  apply (run_hedge_fund_result Scenario.all_good ["AAPL"] "2024-01-01" "2024-04-01"
           (JObject []) false "gpt-4" "OpenAI" Scenario.client).
  exact all_good_securing_succeeds.
Defined.

Lemma agents_called_in_selection_order_witness :
  called (trace (Scenario.run Scenario.all_good ["warren_buffett"; "ben_graham"]))
  = [warren_buffett_agent; ben_graham_agent].
Proof.
  apply (agents_called_in_selection_order Scenario.all_good ["AAPL"] "2024-01-01"
           "2024-04-01" (JObject []) false "gpt-4" "OpenAI" Scenario.client
           Scenario.secured_agents ["warren_buffett"; "ben_graham"]).
  - exact all_good_securing_succeeds.
  - by apply (bool_decide_unpack _).
  - apply Forall_forall. by apply (bool_decide_unpack _).
  - repeat constructor; intros state; by eexists.
Defined.

Lemma failing_agent_stops_the_run_witness :
  result (Scenario.run (crashing bill_ackman_agent)
            ["ben_graham"; "bill_ackman"; "warren_buffett"]) = inr None /\
  called (trace (Scenario.run (crashing bill_ackman_agent)
                   ["ben_graham"; "bill_ackman"; "warren_buffett"]))
  = [ben_graham_agent; bill_ackman_agent] /\
  EvPrint "Error running hedge fund: rate limit exceeded"
  ∈ trace (Scenario.run (crashing bill_ackman_agent)
             ["ben_graham"; "bill_ackman"; "warren_buffett"]).
Proof.
  apply (failing_agent_stops_the_run (crashing bill_ackman_agent) ["AAPL"]
           "2024-01-01" "2024-04-01" (JObject []) false "gpt-4" "OpenAI"
           Scenario.client Scenario.secured_agents
           ["ben_graham"; "bill_ackman"; "warren_buffett"]
           ["ben_graham"] ["warren_buffett"] "bill_ackman" bill_ackman_agent
           (OtherError "rate limit exceeded")).
  - exact (crashing_securing_succeeds bill_ackman_agent).
  - reflexivity.
  - by apply (bool_decide_unpack _).
  - apply Forall_forall. by apply (bool_decide_unpack _).
  - repeat constructor; intros state; by eexists.
  - reflexivity.
  - intros state. reflexivity.
Defined.

(** ** The tickers of the command line *)

#[global] Arguments chars s : simpl never.

Lemma append_cons c s1 s2 : String c s1 +:+ s2 = String c (s1 +:+ s2).
Proof. done. Qed.

Lemma append_empty_l s : EmptyString +:+ s = s.
Proof. done. Qed.

Lemma append_empty_r s : s +:+ EmptyString = s.
Proof. induction s as [|c s IH]; [done|]. by rewrite append_cons, IH. Qed.

Lemma append_assoc' s1 s2 s3 : (s1 +:+ s2) +:+ s3 = s1 +:+ (s2 +:+ s3).
Proof. induction s1 as [|c s1 IH]; [done|]. by rewrite !append_cons, IH. Qed.

Lemma chars_cons c s : chars (String c s) = c :: chars s.
Proof. done. Qed.

Lemma chars_app s1 s2 : chars (s1 +:+ s2) = chars s1 ++ chars s2.
Proof.
  induction s1 as [|c s1 IH]; [done|]. by rewrite append_cons, !chars_cons, IH.
Qed.

Lemma split_char_step a piece c rest :
  split_from (String a EmptyString) 0 piece (String c rest)
  = if decide (a = c) then piece :: split_from (String a EmptyString) 0 EmptyString rest
    else split_from (String a EmptyString) 0 (piece +:+ String c EmptyString) rest.
Proof.
  cbn [split_from String.prefix String.length].
  destruct (ascii_dec a c), (decide (a = c)); try done.
  by destruct rest.
Qed.

Lemma split_char_pass a piece field rest :
  a ∉ chars field ->
  split_from (String a EmptyString) 0 piece (field +:+ rest)
  = split_from (String a EmptyString) 0 (piece +:+ field) rest.
Proof.
  revert piece. induction field as [|c field IH]; intros piece Hin.
  - by rewrite append_empty_l, append_empty_r.
  - rewrite chars_cons in Hin. apply not_elem_of_cons in Hin as [Hc Hin].
    rewrite append_cons, split_char_step, decide_False by done.
    rewrite IH by done. by rewrite append_assoc', append_cons, append_empty_l.
Qed.

Lemma split_char_end a piece : split_from (String a EmptyString) 0 piece EmptyString = [piece].
Proof. done. Qed.


Lemma split_char_length a piece s :
  List.length (split_from (String a EmptyString) 0 piece s)
  = S (List.length (filter (fun c => c = a) (chars s))).
Proof.
  revert piece. induction s as [|c s IH]; intros piece; [done|].
  rewrite split_char_step, chars_cons, filter_cons.
  destruct (decide (a = c)) as [<-|Hne].
  - rewrite decide_True by done. simpl. by rewrite IH.
  - rewrite decide_False by done. apply IH.
Qed.

Lemma split_char_fields a piece s :
  a ∉ chars piece ->
  Forall (fun field => a ∉ chars field) (split_from (String a EmptyString) 0 piece s).
Proof.
  revert piece. induction s as [|c s IH]; intros piece Hpiece.
  - by constructor.
  - rewrite split_char_step. destruct (decide (a = c)) as [<-|Hne].
    + constructor; [done|]. apply IH. by intros ?%elem_of_nil.
    + apply IH. rewrite chars_app. intros [?|Hin]%elem_of_app; [done|].
      by apply list_elem_of_singleton in Hin.
Qed.

Lemma rstrip_bare drop s :
  (forall c, last (chars s) = Some c -> drop c = false) -> rstrip drop s = s.
Proof.
  induction s as [|a s IH]; [done|]. intros Hlast. simpl.
  destruct s as [|b s].
  - simpl. by rewrite (Hlast a).
  - rewrite IH; [done|]. intros c Hc. apply Hlast.
    by rewrite (chars_cons a), (chars_cons b), last_cons_cons.
Qed.

Lemma chars_of_list l : chars (string_of_list_ascii l) = l.
Proof. apply list_ascii_of_string_of_list_ascii. Qed.


Section StripFront.

Context (two : ascii -> ascii -> bool) (three : ascii -> ascii -> ascii -> bool).

Lemma space_width_le l : space_width two three l <= List.length l.
Proof.
  destruct l as [|a [|b [|c l]]]; simpl;
    repeat match goal with |- context [if ?b then _ else _] => destruct b end; lia.
Qed.

Lemma strip_front_eq l :
  strip_front two three l
  = match space_width two three l with
    | 0 => l
    | S _ => strip_front two three (drop (space_width two three l) l)
    end.
Proof.
  destruct l as [|a rest]; [done|]. cbn [strip_front space_width].
  destruct (is_space a); [done|]. destruct rest as [|b rest']; [done|].
  destruct (two a b); [done|]. destruct rest' as [|c rest'']; [done|].
  by destruct (three a b c).
Qed.

Lemma strip_front_ind (P : list ascii -> Prop) :
  (forall l, (space_width two three l <> 0 ->
              P (drop (space_width two three l) l)) -> P l) ->
  forall l, P l.
Proof.
  intros Hstep l. remember (List.length l) as n eqn:Hn. revert l Hn.
  induction n as [n IH] using lt_wf_ind. intros l ->. apply Hstep. intros Hw.
  apply (IH (List.length (drop (space_width two three l) l))); [|done].
  rewrite length_drop. pose proof (space_width_le l). lia.
Qed.


Lemma strip_front_width l : space_width two three (strip_front two three l) = 0.
Proof.
  induction l as [l IH] using strip_front_ind. rewrite strip_front_eq.
  destruct (space_width two three l) eqn:Hw; [done|]. by apply IH.
Qed.

Lemma strip_front_suffix l : strip_front two three l `suffix_of` l.
Proof.
  induction l as [l IH] using strip_front_ind. rewrite strip_front_eq.
  destruct (space_width two three l) eqn:Hw; [done|].
  etrans; [by apply IH|]. apply suffix_drop.
Qed.



Lemma space_width_app l rest :
  space_width two three l <> 0 -> space_width two three (l ++ rest) <> 0.
Proof.
  destruct l as [|a [|b [|c l]]]; simpl;
    repeat match goal with |- context [if ?b then _ else _] => destruct b end; done.
Qed.

Lemma space_width_head l c :
  space_width two three l = 0 -> head l = Some c -> is_space c = false.
Proof.
  destruct l as [|a l]; [done|]. simpl. intros Hw [= ->].
  by destruct (is_space c).
Qed.

End StripFront.



Lemma rstrip_space_prefix l : rstrip_space l `prefix_of` l.
Proof.
  unfold rstrip_space.
  destruct (strip_front_suffix is_space2_back is_space3_back (reverse l)) as [k Hk].
  exists (reverse k). apply (inj reverse).
  by rewrite reverse_app, !reverse_involutive.
Qed.

Lemma strip_chars s c : c ∈ chars (strip s) -> c ∈ chars s.
Proof.
  unfold strip. rewrite chars_of_list. intros Hin.
  destruct (rstrip_space_prefix (lstrip_space (chars s))) as [k Hk].
  destruct (strip_front_suffix is_space2 is_space3 (chars s)) as [k' Hk'].
  rewrite Hk'. apply elem_of_app. right. unfold lstrip_space in Hk.
  rewrite Hk. apply elem_of_app. by left.
Qed.

Lemma strip_trimmed s : trimmed (strip s).
Proof.
  unfold trimmed, strip. rewrite chars_of_list. split.
  - destruct (rstrip_space_prefix (lstrip_space (chars s))) as [k Hk].
    destruct (decide (space_width is_space2 is_space3
                        (rstrip_space (lstrip_space (chars s))) = 0)) as [|Hw];
      [done|].
    apply (space_width_app _ _ _ k) in Hw. rewrite <- Hk in Hw.
    exfalso. apply Hw. apply strip_front_width.
  - unfold rstrip_space. rewrite reverse_involutive. apply strip_front_width.
Qed.

Lemma trimmed_bare s : trimmed s -> bare s.
Proof.
  intros [Hfront Hback] c [Hc|Hc].
  - exact (space_width_head _ _ _ _ Hfront Hc).
  - apply (space_width_head _ _ _ _ Hback). by rewrite head_reverse.
Qed.


(** X8: [main] makes one ticker of every field between the commas of
    [--tickers], empty fields included: there are as many tickers as
    commas and one more, and no ticker holds a comma or begins or ends
    with a whitespace character, ASCII or not. *)
Theorem parse_tickers_fields (text : string) :
  (List.length (parse_tickers text)
   = S (List.length (filter (fun c => c = ","%char) (chars text)))) /\
  Forall (fun ticker => (","%char ∉ chars ticker) /\ trimmed ticker /\ bare ticker)
         (parse_tickers text).
Proof.
  unfold parse_tickers, str_split. split.
  - by rewrite length_map, split_char_length.
  - apply Forall_map. eapply Forall_impl.
    + apply split_char_fields. by intros ?%elem_of_nil.
    + intros field Hfield. simpl. split_and!.
      * intros Hin. apply Hfield. by apply strip_chars.
      * apply strip_trimmed.
      * apply trimmed_bare, strip_trimmed.
Qed.



(** ** The model of the command line *)

Lemma split_paren_first piece name tail :
  "("%char ∉ chars name ->
  exists rest,
    split_from " (" 0 piece (name +:+ " (" +:+ tail) = (piece +:+ name) :: rest.
Proof.
  revert piece. induction name as [|c name IH]; intros piece Hin.
  - rewrite append_empty_l, append_empty_r, !append_cons, append_empty_l.
    cbn [split_from String.prefix].
    destruct (ascii_dec " " " "); [|done]. destruct (ascii_dec "(" "("); [|done].
    destruct tail; by eexists.
  - rewrite chars_cons in Hin. apply not_elem_of_cons in Hin as [Hc Hin].
    rewrite append_cons.
    assert (String.prefix " (" (String c (name +:+ " (" +:+ tail)) = false) as Hpre.
    { cbn [String.prefix]. destruct (ascii_dec " " c); [|done].
      destruct name as [|c' name].
      - rewrite append_empty_l, !append_cons. by destruct (ascii_dec "(" " ").
      - rewrite append_cons. cbn [String.prefix].
        destruct (ascii_dec "(" c') as [<-|]; [|done].
        exfalso. apply Hin. rewrite chars_cons. by left. }
    cbn [split_from]. rewrite Hpre.
    destruct (IH (piece +:+ String c EmptyString) Hin) as [rest ->].
    exists rest. by rewrite append_assoc', append_cons, append_empty_l.
Qed.

Lemma rstrip_dropped drop s c :
  drop c = true -> rstrip drop (s +:+ String c EmptyString) = rstrip drop s.
Proof.
  intros Hc. induction s as [|a s IH].
  - rewrite append_empty_l. simpl. by rewrite Hc.
  - rewrite append_cons. simpl. by rewrite IH.
Qed.

(** X10: A choice written as a name, a space and the provider in parentheses
    is read back as that name and that provider, when neither holds an
    opening parenthesis and the provider does not end with a closing
    one. *)
Theorem parse_model_choice_round_trip (name provider : string) :
  "("%char ∉ chars name ->
  "("%char ∉ chars provider ->
  last (chars provider) <> Some ")"%char ->
  parse_model_choice (name +:+ " (" +:+ provider +:+ ")") = inr (name, provider).
Proof.
  intros Hname Hprovider Hlast. unfold parse_model_choice, str_split.
  destruct (split_paren_first EmptyString name (provider +:+ ")") Hname) as [rest ->].
  rewrite append_empty_l. cbn [list_index lookup list_lookup].
  replace (name +:+ " (" +:+ provider +:+ ")")
    with ((name +:+ " ") +:+ "(" +:+ (provider +:+ ")") +:+ EmptyString).
  2:{ by rewrite append_empty_r, !append_assoc'. }
  rewrite split_char_pass, append_empty_l, append_cons, split_char_step.
  2:{ rewrite chars_app. intros [?|Hin]%elem_of_app; [done|].
      by apply list_elem_of_singleton in Hin. }
  rewrite decide_True, append_empty_l, split_char_pass, append_empty_l by first
    [done|rewrite chars_app; intros [?|Hin]%elem_of_app; [done|];
          by apply list_elem_of_singleton in Hin].
  cbn [split_from list_index lookup list_lookup].
  rewrite rstrip_dropped by done. rewrite rstrip_bare; [done|].
  intros c Hc. unfold one_of. simpl. rewrite orb_false_r.
  apply Ascii.eqb_neq. by intros ->.
Qed.

Lemma parse_model_choice_round_trip_witness :
  parse_model_choice "mixtral-8x7b-32768 (Groq)" = inr ("mixtral-8x7b-32768", "Groq").
Proof.
  apply (parse_model_choice_round_trip "mixtral-8x7b-32768" "Groq");
    unfold chars; simpl; by apply (bool_decide_unpack _).
Defined.

(** ** How [main] ends *)

Lemma on_exception_unbound e :
  on_exception None e
  = (inl (UnboundLocalError "client"),
     [EvPrint ("Error running hedge fund: " ++ exn_str e)]).
Proof. done. Qed.

Lemma on_exception_prints client e :
  EvPrint ("Error running hedge fund: " ++ exn_str e) ∈ trace (on_exception client e).
Proof. unfold on_exception. rewrite trace_bind, trace_print. by left. Qed.

Lemma run_hedge_fund_without_client env tickers start_date end_date portfolio
    show_reasoning selected_analysts model_name model_provider :
  client_of env = None ->
  exists e,
    run_hedge_fund env tickers start_date end_date portfolio show_reasoning
                   selected_analysts model_name model_provider
    = (inl (UnboundLocalError "client"),
       [EvPrint ("Error running hedge fund: " ++ exn_str e)]).
Proof.
  unfold client_of, run_hedge_fund.
  destruct (getenv_AZTP_API_KEY env) as [[|c api_key]|]; [by eexists| |by eexists].
  destruct (Aztp_init env _) as [e|client]; [|done]. by exists e.
Qed.

(** Once the client exists, a run ends with a result or, after its
    handler has printed the error, with [None]. *)
Lemma run_hedge_fund_with_client env tickers start_date end_date portfolio
    show_reasoning selected_analysts model_name model_provider client :
  client_of env = Some client ->
  (exists r, result (run_hedge_fund env tickers start_date end_date portfolio
                       show_reasoning selected_analysts model_name model_provider)
             = inr (Some r)) \/
  (result (run_hedge_fund env tickers start_date end_date portfolio
             show_reasoning selected_analysts model_name model_provider) = inr None /\
   exists e, EvPrint ("Error running hedge fund: " ++ exn_str e)
             ∈ trace (run_hedge_fund env tickers start_date end_date portfolio
                        show_reasoning selected_analysts model_name model_provider)).
Proof.
  unfold client_of, run_hedge_fund.
  destruct (getenv_AZTP_API_KEY env) as [[|c api_key]|]; [done| |done].
  destruct (Aztp_init env _) as [e|client']; [done|]. intros [= ->].
  rewrite result_catch, trace_catch.
  match goal with |- context [match result ?m with inl _ => _ | inr _ => _ end] =>
    destruct (result m) as [e|r] eqn:Ebody end.
  - right. rewrite on_exception_bound. split; [done|]. exists e.
    apply elem_of_app. right. apply on_exception_prints.
  - left. revert Ebody.
    repeat (run; try done;
            match goal with
            | |- context [match result ?m with inl _ => _ | inr _ => _ end] =>
                destruct (result m)
            | |- context [match last ?l with Some _ => _ | None => _ end] =>
                destruct (last l)
            end).
    run. intros [= <-]. by eexists.
Qed.

Lemma failure_line_differs e :
  EvPrint ("Error running hedge fund: " ++ exn_str e)
  <> EvPrint (nl ++ "Hedge fund execution failed.").
Proof. done. Qed.

(** X11: [main] leaves with status 1 having printed nothing but
    [Error: Invalid portfolio JSON] exactly when the dates could be
    settled and the decoder refuses the text of [--portfolio] with a
    [JSONDecodeError]; the model prompt is not shown and no run starts. *)
Theorem invalid_portfolio_exit (cli : Cli) (env : Env) :
  main cli env = (SystemExit 1, [EvPrint "Error: Invalid portfolio JSON"])
  <-> (exists settled, dates cli = inr settled) /\
      (exists msg, json_loads env (args_portfolio (args cli)) = inl (JSONDecodeError msg)).
Proof.
  unfold main, arguments. split.
  - destruct (dates cli) as [e|[start_date end_date]]; [done|].
    destruct (json_loads env _) as [[]|portfolio]; try done.
    { intros _. by eauto. }
    destruct (ask cli _ _ _) as [model_choice|]; [|done].
    destruct (parse_model_choice model_choice) as [e|[model_name model_provider]];
      [done|].
    match goal with |- context [match result ?m with inl _ => _ | inr _ => _ end] =>
      destruct (result m) as [e|[r|]]; [done|done|]; destruct (trace m) as [|ev [|ev' tr]]
    end; done.
  - intros [[[start_date end_date] ->] [msg ->]]. done.
Qed.

(** X12: When [main] reaches the run and the securing phase succeeds, the
    pipeline decides how [main] ends: it leaves with status 1 when the
    build, the compilation or a node raises or the final state has no
    message, and it displays a result otherwise, also when the last
    message could not be decoded and the decisions are [None]. *)
Theorem main_follows_pipeline (cli : Cli) (env : Env) (inv : Invocation)
    (client : Aztp) (secured : dict callable) :
  arguments cli env = inr inv ->
  securing_succeeds env client secured ->
  fst (main cli env)
  = match result (build_and_invoke env
                    (effective_selection (inv_selected_analysts inv)) secured
                    (initial_state (inv_tickers inv) (inv_start_date inv)
                       (inv_end_date inv) (inv_portfolio inv)
                       (inv_show_reasoning inv) (inv_model_name inv)
                       (inv_model_provider inv))) with
    | inl _ => SystemExit 1
    | inr final =>
        match last (messages final) with
        | None => SystemExit 1
        | Some m => Displayed (mkResult (decision env (content m))
                                        (analyst_signals (data final)))
        end
    end.
Proof.
  intros Hargs Hsec. unfold main, run_invocation. rewrite Hargs.
  rewrite (run_hedge_fund_outcome env _ _ _ _ _ _ _ client secured _ Hsec).
  destruct (result (build_and_invoke _ _ _ _)) as [e|final]; [done|].
  by destruct (last (messages final)).
Qed.

(** X13: When [main] reaches the run and no client can be made, because
    [AZTP_API_KEY] is missing or empty or the constructor raises, [main]
    ends with the [UnboundLocalError] of the handler of [run_hedge_fund]:
    it neither prints its own failure line nor leaves through
    [sys.exit]. *)
Theorem main_crashes_without_client (cli : Cli) (env : Env) (inv : Invocation) :
  arguments cli env = inr inv ->
  client_of env = None ->
  fst (main cli env) = Uncaught (UnboundLocalError "client") /\
  (EvPrint (nl ++ "Hedge fund execution failed.") ∉ snd (main cli env)).
Proof.
  intros Hargs Hclient. unfold main, run_invocation. rewrite Hargs.
  destruct (run_hedge_fund_without_client env (inv_tickers inv) (inv_start_date inv)
              (inv_end_date inv) (inv_portfolio inv) (inv_show_reasoning inv)
              (inv_selected_analysts inv) (inv_model_name inv) (inv_model_provider inv)
              Hclient) as [e ->].
  split; [done|]. simpl. intros Hin%list_elem_of_singleton.
  by apply (failure_line_differs e).
Qed.

(** X14: When [main] reaches the run and the client exists, no exception
    reaches the top level: [main] displays the result of the run, or the
    run has printed its error and [main] prints its failure line last and
    leaves with status 1. *)
Theorem main_reports_failure (cli : Cli) (env : Env) (inv : Invocation)
    (client : Aztp) :
  arguments cli env = inr inv ->
  client_of env = Some client ->
  (exists r, main cli env = (Displayed r, trace (run_invocation env inv))) \/
  (main cli env
   = (SystemExit 1,
      trace (run_invocation env inv) ++ [EvPrint (nl ++ "Hedge fund execution failed.")])
   /\ exists e, EvPrint ("Error running hedge fund: " ++ exn_str e)
                ∈ trace (run_invocation env inv)).
Proof.
  intros Hargs Hclient. unfold main. rewrite Hargs.
  destruct (run_hedge_fund_with_client env (inv_tickers inv) (inv_start_date inv)
              (inv_end_date inv) (inv_portfolio inv) (inv_show_reasoning inv)
              (inv_selected_analysts inv) (inv_model_name inv) (inv_model_provider inv)
              client Hclient) as [[r Hr]|[Hr He]].
  - left. exists r. unfold run_invocation. by rewrite Hr.
  - right. unfold run_invocation. by rewrite Hr.
Qed.

Lemma command_line_arguments env :
  json_loads env = Decoder.loads ->
  arguments (command_line "AAPL, MSFT" ["ben_graham"]) env
  = inr (mkInvocation ["AAPL"; "MSFT"] "2024-01-01" "2024-04-01" (JObject []) false
                      ["ben_graham"] "gpt-4" "OpenAI").
Proof. intros Hloads. unfold arguments. rewrite Hloads. reflexivity. Defined.

Lemma main_follows_pipeline_witness :
  fst (main (command_line "AAPL, MSFT" ["ben_graham"]) Scenario.all_good)
  = match result (build_and_invoke Scenario.all_good (effective_selection ["ben_graham"])
                    Scenario.secured_agents
                    (initial_state ["AAPL"; "MSFT"] "2024-01-01" "2024-04-01"
                       (JObject []) false "gpt-4" "OpenAI")) with
    | inl _ => SystemExit 1
    | inr final =>
        match last (messages final) with
        | None => SystemExit 1
        | Some m => Displayed (mkResult (decision Scenario.all_good (content m))
                                        (analyst_signals (data final)))
        end
    end.
Proof.
  apply (main_follows_pipeline (command_line "AAPL, MSFT" ["ben_graham"])
           Scenario.all_good
           (mkInvocation ["AAPL"; "MSFT"] "2024-01-01" "2024-04-01" (JObject []) false
                         ["ben_graham"] "gpt-4" "OpenAI")
           Scenario.client Scenario.secured_agents).
  - by apply command_line_arguments.
  - exact all_good_securing_succeeds.
Defined.

Lemma main_crashes_without_client_witness :
  fst (main (command_line "AAPL, MSFT" ["ben_graham"]) Scenario.no_api_key)
  = Uncaught (UnboundLocalError "client") /\
  (EvPrint (nl ++ "Hedge fund execution failed.")
   ∉ snd (main (command_line "AAPL, MSFT" ["ben_graham"]) Scenario.no_api_key)).
Proof.
  apply (main_crashes_without_client (command_line "AAPL, MSFT" ["ben_graham"])
           Scenario.no_api_key
           (mkInvocation ["AAPL"; "MSFT"] "2024-01-01" "2024-04-01" (JObject []) false
                         ["ben_graham"] "gpt-4" "OpenAI")).
  - by apply command_line_arguments.
  - reflexivity.
Defined.

Lemma main_reports_failure_witness :
  (exists r,
     main (command_line "AAPL, MSFT" ["ben_graham"])
          (Scenario.rejecting risk_management_agent)
     = (Displayed r,
        trace (run_invocation (Scenario.rejecting risk_management_agent)
                 (mkInvocation ["AAPL"; "MSFT"] "2024-01-01" "2024-04-01" (JObject [])
                               false ["ben_graham"] "gpt-4" "OpenAI")))) \/
  (main (command_line "AAPL, MSFT" ["ben_graham"])
        (Scenario.rejecting risk_management_agent)
   = (SystemExit 1,
      trace (run_invocation (Scenario.rejecting risk_management_agent)
               (mkInvocation ["AAPL"; "MSFT"] "2024-01-01" "2024-04-01" (JObject [])
                             false ["ben_graham"] "gpt-4" "OpenAI"))
        ++ [EvPrint (nl ++ "Hedge fund execution failed.")])
   /\ exists e,
        EvPrint ("Error running hedge fund: " ++ exn_str e)
        ∈ trace (run_invocation (Scenario.rejecting risk_management_agent)
                   (mkInvocation ["AAPL"; "MSFT"] "2024-01-01" "2024-04-01"
                                 (JObject []) false ["ben_graham"] "gpt-4" "OpenAI"))).
Proof.
  apply (main_reports_failure (command_line "AAPL, MSFT" ["ben_graham"])
           (Scenario.rejecting risk_management_agent)
           (mkInvocation ["AAPL"; "MSFT"] "2024-01-01" "2024-04-01" (JObject []) false
                         ["ben_graham"] "gpt-4" "OpenAI")
           Scenario.client).
  - by apply command_line_arguments.
  - reflexivity.
Defined.
